(** * The centralized arbiter of StarPU's data dependencies

    A shallow embedding of [data_arbiter_concurrency.c]: the submission
    path [_starpu_submit_job_enforce_arbitered_deps], the termination path
    [_starpu_notify_arbitered_dependencies] and
    [starpu_data_assign_arbiter], in the configuration the file compiles
    in (the definition of LOCK_OR_DELEGATE is commented out).

    Handles, arbiters and jobs are pointers into a store; the functions run
    in a state-and-error monad whose state is the store of handle headers
    together with the log of the synchronisation and scheduling calls the
    code performs. *)

From stdpp Require Import base numbers option list gmap.

Open Scope Z_scope.

(** ** Data *)

(** [starpu_data_handle_t], [starpu_arbiter_t] and [struct _starpu_job *]
    are pointers: addresses are [positive], a nullable pointer is an
    [option]. [enum starpu_data_access_mode] is kept as the integer the
    enumerator stands for; the code only copies and compares modes. *)
Abbreviation starpu_data_handle_t := positive (only parsing).
Abbreviation starpu_arbiter_t := positive (only parsing).
Abbreviation job_ptr := positive (only parsing).
Abbreviation starpu_data_access_mode := Z (only parsing).

(** Modelled from the spec: the declaration of the handle header is not in
    this file; the spec gives [ref_count: u32] and [busy_count: u32], so
    both counters are 32-bit unsigned integers and arithmetic on them wraps
    modulo [2^32]. *)
Definition UINT_MAX : Z := 2 ^ 32 - 1.
Definition u32 (z : Z) : Z := z mod 2 ^ 32.

(** [struct _starpu_data_requester], with the fields the code fills in. *)
Record _starpu_data_requester := {
  req_mode : starpu_data_access_mode;
  is_requested_by_codelet : Z;
  req_j : job_ptr;
  buffer_index : nat;
  ready_data_callback : option positive;
  argcb : option positive
}.

(** The part of [struct _starpu_data_state] the arbiter code reads and
    writes. [arbitered_req_list] is a pointer to a requester list: [None]
    is NULL, [Some l] an allocated list whose head is the head of [l]. *)
Record _starpu_data_state := {
  refcnt : Z;
  busy_count : Z;
  current_mode : starpu_data_access_mode;
  arbiter : option starpu_arbiter_t;
  arbitered_req_list : option (list _starpu_data_requester)
}.

(** Locks the code takes, and the calls it makes that are visible outside
    the handle headers. *)
Inductive lock :=
| arbiter_mutex (a : starpu_arbiter_t)
| header_lock (h : starpu_data_handle_t).

Inductive event :=
| Lock (l : lock)
| Unlock (l : lock)
| Push (j : job_ptr).

Global Instance lock_eq_dec : EqDecision lock.
Proof. solve_decision. Defined.

Global Instance event_eq_dec : EqDecision event.
Proof. solve_decision. Defined.

Global Instance requester_eq_dec : EqDecision _starpu_data_requester.
Proof. solve_decision. Defined.

Global Instance data_state_eq_dec : EqDecision _starpu_data_state.
Proof. solve_decision. Defined.

(** The machine: the handle headers, and the log of events, most recent
    first. *)
Record machine := {
  heap : gmap positive _starpu_data_state;
  log : list event
}.

(** ** The monad

    One thread runs: between two actions of a call nothing else touches
    the store, so a header read before a lock is taken is the header read
    under the lock. Locks are events of the log, not waits. *)

Inductive outcome (A : Type) : Type :=
| Ret (a : A) (s : machine)   (* the call returns *)
| Abort                       (* a STARPU_ASSERT failed: the process aborts *)
| Fault                       (* an invalid or NULL pointer was dereferenced *)
| OutOfFuel.                  (* the recursion bound of the model was hit *)
Arguments Ret {A} a s.
Arguments Abort {A}.
Arguments Fault {A}.
Arguments OutOfFuel {A}.

Definition M (A : Type) : Type := machine → outcome A.

Global Instance M_ret : MRet M := λ A a s, Ret a s.

Global Instance M_bind : MBind M := λ A B f m s,
  match m s with
  | Ret a s' => f a s'
  | Abort => Abort
  | Fault => Fault
  | OutOfFuel => OutOfFuel
  end.

(** Reading through a pointer that may be invalid. *)
Definition deref {A} (o : option A) : M A :=
  λ s, match o with Some a => Ret a s | None => Fault end.

Definition load (h : starpu_data_handle_t) : M _starpu_data_state :=
  λ s, match heap s !! h with Some hs => Ret hs s | None => Fault end.

Definition store (h : starpu_data_handle_t) (hs : _starpu_data_state) : M unit :=
  λ s, Ret () {| heap := <[h := hs]> (heap s); log := log s |}.

Definition emit (e : event) : M unit :=
  λ s, Ret () {| heap := heap s; log := e :: log s |}.

Definition STARPU_ASSERT (b : bool) : M unit :=
  λ s, if b then Ret () s else Abort.

Definition STARPU_PTHREAD_MUTEX_LOCK (a : starpu_arbiter_t) : M unit :=
  emit (Lock (arbiter_mutex a)).
Definition STARPU_PTHREAD_MUTEX_UNLOCK (a : starpu_arbiter_t) : M unit :=
  emit (Unlock (arbiter_mutex a)).
Definition _starpu_spin_lock (h : starpu_data_handle_t) : M unit :=
  emit (Lock (header_lock h)).
Definition _starpu_spin_unlock (h : starpu_data_handle_t) : M unit :=
  emit (Unlock (header_lock h)).
Definition _starpu_push_task (j : job_ptr) : M unit :=
  emit (Push j).

(** ** Updates of a handle header *)

(** Lines 271-273: [refcnt += 1; busy_count += 1; current_mode = mode]. *)
Definition submit_take (mode : starpu_data_access_mode) (hs : _starpu_data_state)
  : _starpu_data_state :=
  {| refcnt := u32 (refcnt hs + 1);
     busy_count := u32 (busy_count hs + 1);
     current_mode := mode;
     arbiter := arbiter hs;
     arbitered_req_list := arbitered_req_list hs |}.

(** Lines 435-436: [refcnt += 1; current_mode = mode]. *)
Definition notify_take (mode : starpu_data_access_mode) (hs : _starpu_data_state)
  : _starpu_data_state :=
  {| refcnt := u32 (refcnt hs + 1);
     busy_count := busy_count hs;
     current_mode := mode;
     arbiter := arbiter hs;
     arbitered_req_list := arbitered_req_list hs |}.

(** Lines 301 and 499: [refcnt -= 1]. *)
Definition drop_reference (hs : _starpu_data_state) : _starpu_data_state :=
  {| refcnt := u32 (refcnt hs - 1);
     busy_count := busy_count hs;
     current_mode := current_mode hs;
     arbiter := arbiter hs;
     arbitered_req_list := arbitered_req_list hs |}.

(** [_starpu_data_requester_list_push_front] on the list of a handle,
    after lines 323-324 have allocated the list when the pointer was
    NULL. *)
Definition _starpu_data_requester_list_push_front
    (l : option (list _starpu_data_requester)) (r : _starpu_data_requester)
  : list _starpu_data_requester :=
  match l with
  | None => [r]
  | Some rs => r :: rs
  end.

(** Lines 313-319: the requester [_starpu_data_requester_new] returns,
    filled in for buffer [idx] of job [j]. *)
Definition job_requester (j : job_ptr) (idx : nat)
    (mode : starpu_data_access_mode) : _starpu_data_requester :=
  {| req_mode := mode;
     is_requested_by_codelet := 1;
     req_j := j;
     buffer_index := idx;
     ready_data_callback := None;
     argcb := None |}.

(** Lines 321-329: the requester goes in the list, and [busy_count] is
    incremented when [bump] ([idx_buf_arbiter <= idx_buf_cancel]) holds. *)
Definition record_requester (r : _starpu_data_requester) (bump : bool)
    (hs : _starpu_data_state) : _starpu_data_state :=
  {| refcnt := refcnt hs;
     busy_count := if bump then u32 (busy_count hs + 1) else busy_count hs;
     current_mode := current_mode hs;
     arbiter := arbiter hs;
     arbitered_req_list :=
       Some (_starpu_data_requester_list_push_front (arbitered_req_list hs) r) |}.

(** Lines 459-463: the list that lost a requester is deleted, and the
    pointer set to NULL, when it became empty. *)
Definition set_req_list (l : list _starpu_data_requester)
    (hs : _starpu_data_state) : _starpu_data_state :=
  {| refcnt := refcnt hs;
     busy_count := busy_count hs;
     current_mode := current_mode hs;
     arbiter := arbiter hs;
     arbitered_req_list := match l with [] => None | _ => Some l end |}.

(** [remove_job_from_requester_list]: erase the first requester whose job
    is [j]; 0 when one was found, 1 otherwise. *)
Fixpoint remove_job_from_requester_list
    (req_list : list _starpu_data_requester) (j : job_ptr)
  : list _starpu_data_requester * Z :=
  match req_list with
  | [] => ([], 1)
  | iter :: rest =>
      if bool_decide (req_j iter = j) then (rest, 0)
      else let '(l, res) := remove_job_from_requester_list rest j in
           (iter :: l, res)
  end.

(** [starpu_data_assign_arbiter] *)
Definition starpu_data_assign_arbiter
    (handle : starpu_data_handle_t) (arb : option starpu_arbiter_t) : M unit :=
  hs ← load handle;
  STARPU_ASSERT (bool_decide (arbiter hs = None));;
  STARPU_ASSERT (refcnt hs =? 0);;
  STARPU_ASSERT (busy_count hs =? 0);;
  store handle {| refcnt := refcnt hs;
                  busy_count := busy_count hs;
                  current_mode := current_mode hs;
                  arbiter := arb;
                  arbitered_req_list := arbitered_req_list hs |}.

Section arbiter.

(** The jobs: each job pointer gives the job's ordered buffers, an array
    of (handle, mode) descriptors. The arbiter code never writes them. *)
Variable jobs : gmap positive (list (positive * Z)).

(** Modelled from the spec: the accessor macros of the job are not in this
    file; a task carries [buffers], an ordered sequence of (handle, mode)
    pairs, and the macros index it. Reading past the array is a fault. *)
Definition job_handle (j : job_ptr) (i : nat) : option starpu_data_handle_t :=
  jobs !! j ≫= λ bufs, fst <$> bufs !! i.

Definition job_mode (j : job_ptr) (i : nat) : option starpu_data_access_mode :=
  jobs !! j ≫= λ bufs, snd <$> bufs !! i.

Definition _STARPU_JOB_GET_ORDERED_BUFFER_HANDLE (j : job_ptr) (i : nat)
  : M starpu_data_handle_t :=
  deref (job_handle j i).

Definition _STARPU_JOB_GET_ORDERED_BUFFER_MODE (j : job_ptr) (i : nat)
  : M starpu_data_access_mode :=
  deref (job_mode j i).

Definition STARPU_TASK_GET_NBUFFERS (j : job_ptr) : M nat :=
  deref (length <$> jobs !! j).

(** The test [idx && HANDLE(j, idx-1) == handle] that skips a buffer whose
    handle was requested at the previous index. *)
Definition already_requested (j : job_ptr) (idx : nat)
    (handle : starpu_data_handle_t) : M bool :=
  match idx with
  | O => mret false
  | S prev =>
      h ← _STARPU_JOB_GET_ORDERED_BUFFER_HANDLE j prev;
      mret (bool_decide (h = handle))
  end.

(** *** Submission *)

(** Lines 250-283, the try-acquire pass. The loops
    [for (idx = first; idx < nbuffers; idx++)] recurse on the number [n] of
    indices left, [nbuffers - idx]. Returns [idx_buf_arbiter] and
    [all_arbiter_available]. *)
Fixpoint submit_take_loop (arb : starpu_arbiter_t) (j : job_ptr)
    (n idx_buf_arbiter : nat) : M (nat * bool) :=
  match n with
  | O => mret (idx_buf_arbiter, true)
  | S n' =>
      handle ← _STARPU_JOB_GET_ORDERED_BUFFER_HANDLE j idx_buf_arbiter;
      mode ← _STARPU_JOB_GET_ORDERED_BUFFER_MODE j idx_buf_arbiter;
      skip ← already_requested j idx_buf_arbiter handle;
      if (skip : bool) then submit_take_loop arb j n' (S idx_buf_arbiter)
      else
        hs ← load handle;
        if bool_decide (arbiter hs ≠ Some arb) then
          mret (idx_buf_arbiter, true)
        else
          _starpu_spin_lock handle;;
          if refcnt hs =? 0 then
            store handle (submit_take mode hs);;
            _starpu_spin_unlock handle;;
            submit_take_loop arb j n' (S idx_buf_arbiter)
          else
            _starpu_spin_unlock handle;;
            mret (idx_buf_arbiter, false)
  end.

(** Lines 288-303 (and, the same loop again, lines 490-501 of notify):
    drop the references just taken. *)
Fixpoint cancel_loop (arb : starpu_arbiter_t) (j : job_ptr)
    (n idx_buf_cancel : nat) : M unit :=
  match n with
  | O => mret ()
  | S n' =>
      cancel_handle ← _STARPU_JOB_GET_ORDERED_BUFFER_HANDLE j idx_buf_cancel;
      skip ← already_requested j idx_buf_cancel cancel_handle;
      if (skip : bool) then cancel_loop arb j n' (S idx_buf_cancel)
      else
        hs ← load cancel_handle;
        if bool_decide (arbiter hs ≠ Some arb) then mret ()
        else
          _starpu_spin_lock cancel_handle;;
          STARPU_ASSERT (refcnt hs =? 1);;
          store cancel_handle (drop_reference hs);;
          _starpu_spin_unlock cancel_handle;;
          cancel_loop arb j n' (S idx_buf_cancel)
  end.

(** Lines 305-331: record the job on the handles of the group. *)
Fixpoint record_loop (arb : starpu_arbiter_t) (j : job_ptr)
    (idx_buf_arbiter : nat) (n idx_buf_cancel : nat) : M unit :=
  match n with
  | O => mret ()
  | S n' =>
      cancel_handle ← _STARPU_JOB_GET_ORDERED_BUFFER_HANDLE j idx_buf_cancel;
      cancel_mode ← _STARPU_JOB_GET_ORDERED_BUFFER_MODE j idx_buf_cancel;
      hs ← load cancel_handle;
      if bool_decide (arbiter hs ≠ Some arb) then mret ()
      else
        let r := job_requester j idx_buf_cancel cancel_mode in
        _starpu_spin_lock cancel_handle;;
        store cancel_handle
          (record_requester r (bool_decide (idx_buf_arbiter ≤ idx_buf_cancel)%nat) hs);;
        _starpu_spin_unlock cancel_handle;;
        record_loop arb j idx_buf_arbiter n' (S idx_buf_cancel)
  end.

(** Lines 238-351. The function calls itself for the next arbiter group;
    [fuel] bounds the depth of that recursion. Returns 1 when the job was
    parked and 0 when it was pushed. *)
Fixpoint submit_fuel (fuel : nat) (j : job_ptr) (buf nbuffers : nat) : M Z :=
  match fuel with
  | O => λ _, OutOfFuel
  | S fuel' =>
      handle ← _STARPU_JOB_GET_ORDERED_BUFFER_HANDLE j buf;
      hs ← load handle;
      (* locking &arbiter->mutex dereferences the arbiter *)
      arb ← deref (arbiter hs);
      STARPU_PTHREAD_MUTEX_LOCK arb;;
      '(idx_buf_arbiter, all_arbiter_available) ←
        submit_take_loop arb j (nbuffers - buf) buf;
      if (all_arbiter_available : bool) then
        STARPU_PTHREAD_MUTEX_UNLOCK arb;;
        if bool_decide (idx_buf_arbiter < nbuffers)%nat then
          submit_fuel fuel' j idx_buf_arbiter nbuffers
        else
          _starpu_push_task j;;
          mret 0
      else
        cancel_loop arb j (idx_buf_arbiter - buf) buf;;
        record_loop arb j idx_buf_arbiter (nbuffers - buf) buf;;
        STARPU_PTHREAD_MUTEX_UNLOCK arb;;
        mret 1
  end.

(** Every recursive call starts at a larger index below [nbuffers], so
    [nbuffers - buf] calls after the first are enough (see
    [submit_fuel_enough]). *)
Definition _starpu_submit_job_enforce_arbitered_deps
    (j : job_ptr) (buf nbuffers : nat) : M Z :=
  submit_fuel (S (nbuffers - buf)) j buf nbuffers.

(** *** Notification *)

(** Lines 393-406: the index of the first buffer of this arbiter. (The
    loop also reads the mode of the buffer and does not use it.) *)
Fixpoint find_arbiter_buffers (arb : starpu_arbiter_t) (j : job_ptr)
    (n nb_non_arbitered_buff : nat) : M nat :=
  match n with
  | O => mret nb_non_arbitered_buff
  | S n' =>
      handle_arbiter ← _STARPU_JOB_GET_ORDERED_BUFFER_HANDLE j nb_non_arbitered_buff;
      skip ← already_requested j nb_non_arbitered_buff handle_arbiter;
      if (skip : bool) then find_arbiter_buffers arb j n' (S nb_non_arbitered_buff)
      else
        hs ← load handle_arbiter;
        if bool_decide (arbiter hs = Some arb) then mret nb_non_arbitered_buff
        else find_arbiter_buffers arb j n' (S nb_non_arbitered_buff)
  end.

(** Lines 411-438: the fast-takes of notify. *)
Fixpoint notify_take_loop (arb : starpu_arbiter_t) (j : job_ptr)
    (n idx_buf_arbiter : nat) : M (nat * bool) :=
  match n with
  | O => mret (idx_buf_arbiter, true)
  | S n' =>
      handle_arbiter ← _STARPU_JOB_GET_ORDERED_BUFFER_HANDLE j idx_buf_arbiter;
      skip ← already_requested j idx_buf_arbiter handle_arbiter;
      if (skip : bool) then notify_take_loop arb j n' (S idx_buf_arbiter)
      else
        hs ← load handle_arbiter;
        if bool_decide (arbiter hs ≠ Some arb) then
          mret (idx_buf_arbiter, true)
        else
          mode ← _STARPU_JOB_GET_ORDERED_BUFFER_MODE j idx_buf_arbiter;
          _starpu_spin_lock handle_arbiter;;
          if negb (refcnt hs =? 0) then
            _starpu_spin_unlock handle_arbiter;;
            mret (idx_buf_arbiter, false)
          else
            store handle_arbiter (notify_take mode hs);;
            _starpu_spin_unlock handle_arbiter;;
            notify_take_loop arb j n' (S idx_buf_arbiter)
  end.

(** Lines 442-465: take the job out of the lists of the handles it has
    just taken. Returns the final [idx_buf_arbiter]. *)
Fixpoint remove_loop (arb : starpu_arbiter_t) (j : job_ptr)
    (n idx_buf_arbiter : nat) : M nat :=
  match n with
  | O => mret idx_buf_arbiter
  | S n' =>
      handle_arbiter ← _STARPU_JOB_GET_ORDERED_BUFFER_HANDLE j idx_buf_arbiter;
      skip ← already_requested j idx_buf_arbiter handle_arbiter;
      if (skip : bool) then remove_loop arb j n' (S idx_buf_arbiter)
      else
        hs ← load handle_arbiter;
        if bool_decide (arbiter hs ≠ Some arb) then mret idx_buf_arbiter
        else
          mode ← _STARPU_JOB_GET_ORDERED_BUFFER_MODE j idx_buf_arbiter;
          _starpu_spin_lock handle_arbiter;;
          STARPU_ASSERT (refcnt hs =? 1);;
          STARPU_ASSERT (1 <=? busy_count hs);;
          STARPU_ASSERT (current_mode hs =? mode);;
          (* _starpu_data_requester_list_begin reads through the pointer *)
          req_list ← deref (arbitered_req_list hs);
          let '(l, correctly_deleted) := remove_job_from_requester_list req_list j in
          STARPU_ASSERT (correctly_deleted =? 0);;
          store handle_arbiter (set_req_list l hs);;
          _starpu_spin_unlock handle_arbiter;;
          remove_loop arb j n' (S idx_buf_arbiter)
  end.

(** Lines 387-505: the scan [while (r) { ... r = r->_next; }] over the
    requesters of the handle. No list is modified before the scan
    returns, so it runs over the list as read at line 386. *)
Fixpoint notify_scan (arb : starpu_arbiter_t)
    (rs : list _starpu_data_requester) : M Z :=
  match rs with
  | [] =>
      (* no task has been pushed *)
      STARPU_PTHREAD_MUTEX_UNLOCK arb;;
      mret 1
  | r :: next =>
      let j := req_j r in
      nbuffers ← STARPU_TASK_GET_NBUFFERS j;
      nb_non_arbitered_buff ← find_arbiter_buffers arb j nbuffers 0%nat;
      '(idx_buf_arbiter, all_arbiter_available) ←
        notify_take_loop arb j (nbuffers - nb_non_arbitered_buff) nb_non_arbitered_buff;
      if (all_arbiter_available : bool) then
        idx_buf_arbiter ←
          remove_loop arb j (nbuffers - nb_non_arbitered_buff) nb_non_arbitered_buff;
        STARPU_PTHREAD_MUTEX_UNLOCK arb;;
        (if bool_decide (idx_buf_arbiter < nbuffers)%nat then
           _starpu_submit_job_enforce_arbitered_deps j idx_buf_arbiter nbuffers;;
           mret ()
         else
           _starpu_push_task j);;
        mret 0
      else
        cancel_loop arb j (idx_buf_arbiter - nb_non_arbitered_buff) nb_non_arbitered_buff;;
        notify_scan arb next
  end.

(** Lines 367-511. Returns 0 when a task was promoted and 1 otherwise. *)
Definition _starpu_notify_arbitered_dependencies
    (handle : starpu_data_handle_t) : M Z :=
  hs ← load handle;
  arb ← deref (arbiter hs);
  STARPU_PTHREAD_MUTEX_LOCK arb;;
  match arbitered_req_list hs with
  | None =>
      STARPU_PTHREAD_MUTEX_UNLOCK arb;;
      mret 1
  | Some rs => notify_scan arb rs
  end.

End arbiter.
(** ** What the log says *)

(** The locks held after the events of a log (most recent first): a lock
    is held from its [Lock] to the next [Unlock] of it. *)
Fixpoint release (k : lock) (held : list lock) : list lock :=
  match held with
  | [] => []
  | k' :: held' => if decide (k = k') then held' else k' :: release k held'
  end.

Fixpoint locks_held (l : list event) : list lock :=
  match l with
  | [] => []
  | Lock k :: l' => k :: locks_held l'
  | Unlock k :: l' => release k (locks_held l')
  | Push _ :: l' => locks_held l'
  end.

(** The jobs pushed to the scheduling policy, most recent first. *)
Fixpoint pushes (l : list event) : list positive :=
  match l with
  | [] => []
  | Push j :: l' => j :: pushes l'
  | _ :: l' => pushes l'
  end.

(** Every push of the log was made with exactly the locks [held] held. *)
Fixpoint pushes_with (held : list lock) (l : list event) : Prop :=
  match l with
  | [] => True
  | Push _ :: l' => locks_held l' = held ∧ pushes_with held l'
  | _ :: l' => pushes_with held l'
  end.

(** A stretch of execution that pushes nothing and gives back every lock
    it takes. *)
Definition log_quiet (s s' : machine) : Prop :=
  locks_held (log s') = locks_held (log s) ∧
  pushes (log s') = pushes (log s) ∧
  ∀ held, pushes_with held (log s) → pushes_with held (log s').

(** Two stores with the same handles, related header by header. *)
Definition heap_rel (R : relation _starpu_data_state) (s s' : machine) : Prop :=
  ∀ h, option_Forall2 R (heap s !! h) (heap s' !! h).

(** What a whole call adds to the log: the locks held are those held on
    entry, a push is made with exactly those held, and at most one job is
    pushed. *)
Definition log_call (s s' : machine) : Prop :=
  locks_held (log s') = locks_held (log s) ∧
  (pushes_with (locks_held (log s)) (log s) →
   pushes_with (locks_held (log s)) (log s')) ∧
  (pushes (log s') = pushes (log s) ∨ ∃ j, pushes (log s') = j :: pushes (log s)).

(** The test on the previous buffer, as a function of the job. *)
Definition requested_before (jobs : gmap positive (list (positive * Z)))
    (j : job_ptr) (idx : nat) (handle : starpu_data_handle_t) : bool :=
  match idx with
  | O => false
  | S prev => bool_decide (job_handle jobs j prev = Some handle)
  end.

(** The two ways a run relates the machine on entry to the machine at a
    later point: a stretch inside a call, and a whole call. *)
Definition step_ok (R : relation _starpu_data_state) (s s' : machine) : Prop :=
  heap_rel R s s' ∧ log_quiet s s'.

Definition call_ok (R : relation _starpu_data_state) (s s' : machine) : Prop :=
  heap_rel R s s' ∧ log_call s s'.

(** The run returns, and [P] holds of its value and of the machine it
    leaves. *)
Definition after {A} (o : outcome A) (P : A → machine → Prop) : Prop :=
  match o with
  | Ret a s => P a s
  | _ => False
  end.

(** A run that has fuel left, and a run that returns. *)
Definition in_fuel {A} (o : outcome A) : Prop := o ≠ OutOfFuel.

Definition returns {A} (o : outcome A) : Prop := ∃ a s', o = Ret a s'.

(** A buffer index at which a pass attempts handle [h]: the buffer is on
    [h] and the previous buffer is not. *)
Definition attempted (jobs : gmap positive (list (positive * Z)))
    (j : job_ptr) (i : nat) (h : starpu_data_handle_t) : Prop :=
  job_handle jobs j i = Some h ∧ requested_before jobs j i h = false.

(** The buffers of [j] in [idx, idx + n) are on allocated handles. *)
Definition buffers_allocated (jobs : gmap positive (list (positive * Z)))
    (j : job_ptr) (idx n : nat) (s : machine) : Prop :=
  ∀ i, (idx ≤ i < idx + n)%nat →
    ∃ h, job_handle jobs j i = Some h ∧ is_Some (heap s !! h).

(** ** The relations and invariants of the claims *)

(** The arbiter of a header is the same before and after. *)
Definition arbiter_kept : relation _starpu_data_state :=
  λ a b, arbiter b = arbiter a.

(** The reference count is the same, or moves between 0 and 1. *)
Definition single_reference : relation _starpu_data_state :=
  λ a b, arbiter b = arbiter a ∧
         (refcnt b = refcnt a ∨
          ((refcnt a = 0 ∨ refcnt a = 1) ∧ (refcnt b = 0 ∨ refcnt b = 1))).

(** Every handle that has an arbiter holds no or one reference. *)
Definition refcnt_binary (hs : _starpu_data_state) : Prop :=
  arbiter hs ≠ None → refcnt hs = 0 ∨ refcnt hs = 1.

Definition arbitered_refcnt_binary (s : machine) : Prop :=
  map_Forall (λ _, refcnt_binary) (heap s).

(** The requesters recorded on a header; a NULL list holds none. *)
Definition requesters (hs : _starpu_data_state) : list _starpu_data_requester :=
  default [] (arbitered_req_list hs).

(** The list pointer of a header is non-NULL exactly when a requester is
    recorded. *)
Definition req_list_exact (hs : _starpu_data_state) : Prop :=
  arbitered_req_list hs ≠ None ↔ requesters hs ≠ [].

Definition req_list_kept_exact : relation _starpu_data_state :=
  λ a b, req_list_exact a → req_list_exact b.

Definition req_lists_exact (s : machine) : Prop :=
  map_Forall (λ _, req_list_exact) (heap s).

Global Instance refcnt_binary_dec hs : Decision (refcnt_binary hs).
Proof. unfold refcnt_binary. apply _. Defined.

Global Instance arbitered_refcnt_binary_dec s : Decision (arbitered_refcnt_binary s).
Proof. unfold arbitered_refcnt_binary. apply _. Defined.

Global Instance req_list_exact_dec hs : Decision (req_list_exact hs).
Proof. unfold req_list_exact. apply _. Defined.

Global Instance req_lists_exact_dec s : Decision (req_lists_exact s).
Proof. unfold req_lists_exact. apply _. Defined.

(** No constraint on the headers: what is left is the log. *)
Definition any_update : relation _starpu_data_state := λ _ _, True.

(** A header is as it was, but for the mode, which a fast-take that was
    rolled back leaves behind. *)
Definition same_but_mode : relation _starpu_data_state :=
  λ a b, refcnt b = refcnt a ∧ busy_count b = busy_count a ∧
         arbiter b = arbiter a ∧ arbitered_req_list b = arbitered_req_list a.

(** A header before the fast-takes of a requester of job [j], and after
    the job was taken out of its list: one reference is held, and the
    first requester of [j] is gone from the list. *)
Definition promoted (j : job_ptr) : relation _starpu_data_state :=
  λ hs hs2,
    refcnt hs = 0 ∧ refcnt hs2 = 1 ∧
    busy_count hs2 = busy_count hs ∧ 1 ≤ busy_count hs ∧
    arbiter hs2 = arbiter hs ∧
    ∃ l, arbitered_req_list hs = Some l ∧
         remove_job_from_requester_list l j = (requesters hs2, 0).

(** I1 of the spec on a header, and on the store. *)
Definition counters_ordered (hs : _starpu_data_state) : Prop :=
  refcnt hs ≤ busy_count hs.

Definition all_counters_ordered (s : machine) : Prop :=
  map_Forall (λ _, counters_ordered) (heap s).

Global Instance all_counters_ordered_dec s : Decision (all_counters_ordered s).
Proof. unfold all_counters_ordered, counters_ordered. apply _. Defined.

(** Every [busy_count] is a 32-bit value that can take [n] more
    increments without wrapping. *)
Definition headroom (n : nat) (s : machine) : Prop :=
  map_Forall (λ _ hs, 0 ≤ busy_count hs ∧ busy_count hs + Z.of_nat n ≤ UINT_MAX)
    (heap s).

Global Instance headroom_dec n s : Decision (headroom n s).
Proof. unfold headroom. apply _. Defined.

(** The job is counted in [busy_count] on the handles of its buffers in
    [idx, idx + n): what parking the job has done. *)
Definition counted_on_buffers (jobs : gmap positive (list (positive * Z)))
    (j : job_ptr) (idx n : nat) (s : machine) : Prop :=
  ∀ i h hs, (idx ≤ i < idx + n)%nat → job_handle jobs j i = Some h →
    heap s !! h = Some hs → 1 ≤ busy_count hs.

(** The counters of a header are as they were ([counters_kept]), or the
    reference count went down ([reference_dropped]). *)
Definition counters_kept : relation _starpu_data_state :=
  λ a b, refcnt b = refcnt a ∧ busy_count b = busy_count a.

Definition reference_dropped : relation _starpu_data_state :=
  λ a b, busy_count b = busy_count a ∧
         (refcnt b = refcnt a ∨ 0 ≤ refcnt b ≤ refcnt a).

(** What is recorded on a header is in front of what was there, and is
    for job [j]. *)
Definition pushed_front (j : job_ptr) : relation _starpu_data_state :=
  λ a b, ∃ new, requesters b = new ++ requesters a ∧
                Forall (λ r, req_j r = j) new.

(** The list and the arbiter of a header are as they were. *)
Definition list_kept : relation _starpu_data_state :=
  λ a b, arbitered_req_list b = arbitered_req_list a ∧ arbiter b = arbiter a.

(** The promotion of job [j], whose fast-takes went through its buffers in
    [pos, stop) from the store of [s] and left [s1]: the first requester of
    the job is taken out of the list of every handle attempted, the other
    headers are those of [s], the arbiter mutex is given back, and the job
    goes to its next arbiter group or, when it has none, is pushed. *)
Definition promotion (jobs : gmap positive (list (positive * Z)))
    (arb : starpu_arbiter_t) (j : job_ptr) (nbuffers pos stop : nat)
    (s s1 s' : machine) : Prop :=
  ∃ s2,
    remove_loop jobs arb j (nbuffers - pos) pos s1 = Ret stop s2 ∧
    (∀ i h, (pos ≤ i < stop)%nat → attempted jobs j i h →
       ∃ hs hs2, heap s !! h = Some hs ∧ heap s2 !! h = Some hs2 ∧
                 promoted j hs hs2) ∧
    (∀ h, (∀ i, (pos ≤ i < stop)%nat → ¬ attempted jobs j i h) →
       heap s2 !! h = heap s !! h) ∧
    (if bool_decide (stop < nbuffers)%nat then
       ∃ v', _starpu_submit_job_enforce_arbitered_deps jobs j stop nbuffers
               {| heap := heap s2;
                  log := Unlock (arbiter_mutex arb) :: log s2 |} = Ret v' s'
     else
       s' = {| heap := heap s2;
               log := Push j :: Unlock (arbiter_mutex arb) :: log s2 |}).

(** ** Further properties of the code *)

(** A stretch of the log made of header locks only, each given back
    before the next is taken. *)
Inductive header_pairs : list event → Prop :=
| header_pairs_nil : header_pairs []
| header_pairs_cons h evs :
    header_pairs evs →
    header_pairs (Unlock (header_lock h) :: Lock (header_lock h) :: evs).

Definition header_locks_only (s s' : machine) : Prop :=
  ∃ evs, log s' = evs ++ log s ∧ header_pairs evs.

(** The locks of the arbiter code a thread holds: none, the mutex of an
    arbiter, or that mutex and the header lock of one handle. *)
Inductive lock_state :=
| Unlocked
| InArbiter (a : starpu_arbiter_t)
| InHeader (a : starpu_arbiter_t) (h : starpu_data_handle_t).

Global Instance lock_state_eq_dec : EqDecision lock_state.
Proof. solve_decision. Defined.

(** The discipline: a header lock is taken under an arbiter mutex and
    given back before anything else is locked or unlocked; the mutex is
    taken with nothing held; a push is made with nothing held. *)
Definition lock_step (st : lock_state) (e : event) : option lock_state :=
  match st, e with
  | Unlocked, Lock (arbiter_mutex a) => Some (InArbiter a)
  | Unlocked, Push _ => Some Unlocked
  | InArbiter a, Lock (header_lock h) => Some (InHeader a h)
  | InArbiter a, Unlock (arbiter_mutex a') =>
      if decide (a' = a) then Some Unlocked else None
  | InHeader a h, Unlock (header_lock h') =>
      if decide (h' = h) then Some (InArbiter a) else None
  | _, _ => None
  end.

(** The state the events of a log (most recent first) lead to, when they
    follow the discipline. *)
Fixpoint lock_discipline (l : list event) : option lock_state :=
  match l with
  | [] => Some Unlocked
  | e :: l' => lock_discipline l' ≫= λ st, lock_step st e
  end.

(** A header whose reference count is as it was, or went from 0 to 1. *)
Definition reference_taken : relation _starpu_data_state :=
  λ a b, refcnt b = refcnt a ∨ (refcnt a = 0 ∧ refcnt b = 1).

(** A header after a fast-take of the submission was undone: all is as it
    was, but the mode and, where the take went through, [busy_count]. *)
Definition rolled_back : relation _starpu_data_state :=
  λ a b, refcnt b = refcnt a ∧ arbiter b = arbiter a ∧
         arbitered_req_list b = arbitered_req_list a ∧
         (busy_count b = busy_count a ∨
          (refcnt a = 0 ∧ busy_count b = u32 (busy_count a + 1))).

(** The buffers of [j] in [lo, hi) are on allocated handles that have an
    arbiter. *)
Definition buffers_arbitered (jobs : gmap positive (list (positive * Z)))
    (j : job_ptr) (lo hi : nat) (s : machine) : Prop :=
  ∀ i, (lo ≤ i < hi)%nat →
    ∃ h hs, job_handle jobs j i = Some h ∧ heap s !! h = Some hs ∧
            arbiter hs ≠ None.

(** The handles attempted for the buffers of [j] in [lo, hi) are free. *)
Definition buffers_free (jobs : gmap positive (list (positive * Z)))
    (j : job_ptr) (lo hi : nat) (s : machine) : Prop :=
  ∀ i h hs, (lo ≤ i < hi)%nat → attempted jobs j i h →
    heap s !! h = Some hs → refcnt hs = 0.

(** No handle is attempted twice among the buffers of [j] in [lo, hi):
    the buffers on one handle are adjacent, as the ordering of the buffers
    makes them. *)
Definition attempted_once (jobs : gmap positive (list (positive * Z)))
    (j : job_ptr) (lo hi : nat) : Prop :=
  ∀ i i' h, (lo ≤ i < hi)%nat → (lo ≤ i' < hi)%nat →
    attempted jobs j i h → attempted jobs j i' h → i = i'.

(** Handle [h] is on none of the buffers of [j] in [lo, hi). *)
Definition off_buffers (jobs : gmap positive (list (positive * Z)))
    (j : job_ptr) (lo hi : nat) (h : starpu_data_handle_t) : Prop :=
  ∀ i, (lo ≤ i < hi)%nat → job_handle jobs j i ≠ Some h.

(** One returning call of a function of the file. *)
Inductive arbiter_call (jobs : gmap positive (list (positive * Z)))
  : machine → machine → Prop :=
| call_assign handle arb s u s' :
    starpu_data_assign_arbiter handle arb s = Ret u s' →
    arbiter_call jobs s s'
| call_submit j buf nbuffers s v s' :
    _starpu_submit_job_enforce_arbitered_deps jobs j buf nbuffers s = Ret v s' →
    arbiter_call jobs s s'
| call_notify handle s v s' :
    _starpu_notify_arbitered_dependencies jobs handle s = Ret v s' →
    arbiter_call jobs s s'.

(** The buffers of [j] in [lo, hi) are on handles that differ two by
    two. *)
Definition handles_distinct (jobs : gmap positive (list (positive * Z)))
    (j : job_ptr) (lo hi : nat) : Prop :=
  ∀ i i' h, (lo ≤ i < hi)%nat → (lo ≤ i' < hi)%nat →
    job_handle jobs j i = Some h → job_handle jobs j i' = Some h → i = i'.

(** Job [j] was parked on a header for its buffer [i], of mode [m]: the
    requester of the buffer is in front of the list, the job is counted
    once more in [busy_count], and the rest is as it was. *)
Definition parked_on (j : job_ptr) (i : nat) (m : starpu_data_access_mode)
  : relation _starpu_data_state :=
  λ hs hs',
    refcnt hs' = refcnt hs ∧
    busy_count hs' = u32 (busy_count hs + 1) ∧
    arbiter hs' = arbiter hs ∧
    arbitered_req_list hs' = Some (job_requester j i m :: requesters hs).

(** ** The scan of notify, on the store *)


(** The mode of a header is as it was. *)
Definition mode_kept : relation _starpu_data_state :=
  λ a b, current_mode b = current_mode a.







(** ** Concrete machines *)

(** An arbiter at address 7, handles at 10, 11 and 12, and four jobs.
    Job 3 names handle 11 twice, in adjacent buffers. *)
Definition free_header : _starpu_data_state :=
  {| refcnt := 0; busy_count := 0; current_mode := 0;
     arbiter := Some 7%positive; arbitered_req_list := None |}.

Definition held_header : _starpu_data_state :=
  {| refcnt := 1; busy_count := 1; current_mode := 2;
     arbiter := Some 7%positive; arbitered_req_list := None |}.

Definition fresh_header : _starpu_data_state :=
  {| refcnt := 0; busy_count := 0; current_mode := 0;
     arbiter := None; arbitered_req_list := None |}.

Definition example_jobs : gmap positive (list (positive * Z)) :=
  {[ 1%positive := [(10%positive, 2); (11%positive, 3)];
     2%positive := [(10%positive, 2)];
     3%positive := [(10%positive, 2); (11%positive, 3); (11%positive, 1)];
     4%positive := [(10%positive, 3)] ]}.

Definition machine_free : machine :=
  {| heap := {[ 10%positive := free_header; 11%positive := free_header ]};
     log := [] |}.

Definition machine_held : machine :=
  {| heap := {[ 10%positive := held_header; 11%positive := free_header ]};
     log := [] |}.

Definition machine_second_held : machine :=
  {| heap := {[ 10%positive := free_header; 11%positive := held_header ]};
     log := [] |}.

Definition machine_fresh : machine :=
  {| heap := {[ 10%positive := fresh_header ]}; log := [] |}.

(** Handle 10 is free and has job 2 in its list, and its [busy_count]
    does not count the job. *)
Definition machine_uncounted : machine :=
  {| heap := {[ 10%positive :=
                  {| refcnt := 0; busy_count := 0; current_mode := 2;
                     arbiter := Some 7%positive;
                     arbitered_req_list := Some [job_requester 2 0 2] |} ]};
     log := [] |}.

(** Handle 10 is free again and has job 2 in its list, counted. *)
Definition machine_parked : machine :=
  {| heap := {[ 10%positive :=
                  {| refcnt := 0; busy_count := 1; current_mode := 2;
                     arbiter := Some 7%positive;
                     arbitered_req_list := Some [job_requester 2 0 2] |} ]};
     log := [] |}.




(** Job 5 has a buffer on handle 10, of arbiter 7, and one on handle 12,
    of arbiter 8. It is parked on its first group: handle 10 counts it,
    handle 12 does not yet. *)
Definition two_group_jobs : gmap positive (list (positive * Z)) :=
  {[ 5%positive := [(10%positive, 2); (12%positive, 3)] ]}.

Definition machine_two_groups : machine :=
  {| heap := {[ 10%positive :=
                  {| refcnt := 0; busy_count := 1; current_mode := 2;
                     arbiter := Some 7%positive;
                     arbitered_req_list := Some [job_requester 5 0 2] |};
                12%positive :=
                  {| refcnt := 0; busy_count := 0; current_mode := 0;
                     arbiter := Some 8%positive;
                     arbitered_req_list := None |} ]};
     log := [] |}.

(** Handle 10 is free and its [busy_count] is [UINT_MAX]. *)
Definition machine_full : machine :=
  {| heap := {[ 10%positive :=
                  {| refcnt := 0; busy_count := UINT_MAX; current_mode := 0;
                     arbiter := Some 7%positive;
                     arbitered_req_list := None |} ]};
     log := [] |}.
(** ** Reasoning in the monad *)

Lemma bind_inv {A B} (f : A → M B) (m : M A) s b s' :
  mbind f m s = Ret b s' → ∃ a s1, m s = Ret a s1 ∧ f a s1 = Ret b s'.
Proof. unfold mbind, M_bind. destruct (m s); naive_solver. Qed.

Lemma bind_Ret {A B} (f : A → M B) (m : M A) s a s1 :
  m s = Ret a s1 → mbind f m s = f a s1.
Proof. unfold mbind, M_bind. by intros ->. Qed.

Lemma mret_inv {A} (a b : A) s s' : mret (M := M) a s = Ret b s' → b = a ∧ s' = s.
Proof. unfold mret, M_ret. naive_solver. Qed.

Lemma deref_inv {A} (o : option A) s a s' : deref o s = Ret a s' → o = Some a ∧ s' = s.
Proof. unfold deref. destruct o; naive_solver. Qed.

Lemma load_inv h s hs s' : load h s = Ret hs s' → heap s !! h = Some hs ∧ s' = s.
Proof. unfold load. destruct (heap s !! h); naive_solver. Qed.

Lemma load_Some h s hs : heap s !! h = Some hs → load h s = Ret hs s.
Proof. unfold load. by intros ->. Qed.

Lemma store_inv h hs s u s' :
  store h hs s = Ret u s' → s' = {| heap := <[h := hs]> (heap s); log := log s |}.
Proof. unfold store. naive_solver. Qed.

Lemma emit_inv e s u s' :
  emit e s = Ret u s' → s' = {| heap := heap s; log := e :: log s |}.
Proof. unfold emit. naive_solver. Qed.

Lemma assert_inv b s u s' : STARPU_ASSERT b s = Ret u s' → b = true ∧ s' = s.
Proof. unfold STARPU_ASSERT. destruct b; naive_solver. Qed.

Lemma already_requested_inv jobs j idx handle s b s' :
  already_requested jobs j idx handle s = Ret b s' →
  requested_before jobs j idx handle = b ∧ s' = s.
Proof.
  destruct idx as [|prev]; simpl; intros H.
  - by apply mret_inv in H as [-> ->].
  - apply bind_inv in H as (h & s1 & H1 & H).
    apply deref_inv in H1 as [H1 ->]. apply mret_inv in H as [-> ->].
    split; [|done]. rewrite H1. apply bool_decide_ext. naive_solver.
Qed.

(** Take a returning run apart, down to the primitive actions. *)
Ltac inv_run H :=
  lazymatch type of H with
  | mbind _ _ _ = Ret _ _ =>
      let a := fresh "a" in
      let s := fresh "s" in
      let H1 := fresh "Hrun" in
      apply bind_inv in H as (a & s & H1 & H);
      inv_run H1; simpl in H; try inv_run H
  | mret _ _ = Ret _ _ =>
      apply mret_inv in H as [? ?]; simplify_eq/=
  | deref _ _ = Ret _ _ =>
      apply deref_inv in H as [H ?]; simplify_eq/=
  | load _ _ = Ret _ _ =>
      apply load_inv in H as [H ?]; simplify_eq/=
  | store _ _ _ = Ret _ _ =>
      apply store_inv in H; simplify_eq/=
  | emit _ _ = Ret _ _ =>
      apply emit_inv in H; simplify_eq/=
  | STARPU_PTHREAD_MUTEX_LOCK _ _ = Ret _ _ =>
      apply emit_inv in H; simplify_eq/=
  | STARPU_PTHREAD_MUTEX_UNLOCK _ _ = Ret _ _ =>
      apply emit_inv in H; simplify_eq/=
  | _starpu_spin_lock _ _ = Ret _ _ =>
      apply emit_inv in H; simplify_eq/=
  | _starpu_spin_unlock _ _ = Ret _ _ =>
      apply emit_inv in H; simplify_eq/=
  | _starpu_push_task _ _ = Ret _ _ =>
      apply emit_inv in H; simplify_eq/=
  | STARPU_ASSERT _ _ = Ret _ _ =>
      apply assert_inv in H as [H ?]; simplify_eq/=
  | _STARPU_JOB_GET_ORDERED_BUFFER_HANDLE _ _ _ _ = Ret _ _ =>
      apply deref_inv in H as [H ?]; simplify_eq/=
  | _STARPU_JOB_GET_ORDERED_BUFFER_MODE _ _ _ _ = Ret _ _ =>
      apply deref_inv in H as [H ?]; simplify_eq/=
  | STARPU_TASK_GET_NBUFFERS _ _ _ = Ret _ _ =>
      apply deref_inv in H as [H ?]; simplify_eq/=
  | already_requested _ _ _ _ _ = Ret _ _ =>
      apply already_requested_inv in H as [H ?]; simplify_eq/=
  | (if ?b then _ else _) _ = Ret _ _ =>
      let Hb := fresh "Hif" in
      destruct b eqn:Hb; inv_run H
  | (let '(_, _) := ?p in _) _ = Ret _ _ =>
      let Hp := fresh "Hpair" in
      destruct p eqn:Hp; inv_run H
  | _ => idtac
  end.

(** Turn the tests a run went through into propositions. *)
Ltac norm_tests :=
  repeat match goal with
  | H : bool_decide _ = true |- _ => apply bool_decide_eq_true in H
  | H : bool_decide _ = false |- _ => apply bool_decide_eq_false in H
  | H : ¬ (_ ≠ _) |- _ => apply dec_stable in H
  | H : (_ =? _) = true |- _ => apply Z.eqb_eq in H
  | H : (_ =? _) = false |- _ => apply Z.eqb_neq in H
  | H : (_ <=? _) = true |- _ => apply Z.leb_le in H
  | H : negb _ = true |- _ => apply negb_true_iff in H
  | H : negb _ = false |- _ => apply negb_false_iff in H
  end.

Lemma release_head k held : release k (k :: held) = held.
Proof. simpl. by rewrite decide_True. Qed.

Lemma log_quiet_refl s : log_quiet s s.
Proof. by repeat split. Qed.

Lemma log_quiet_trans s1 s2 s3 : log_quiet s1 s2 → log_quiet s2 s3 → log_quiet s1 s3.
Proof.
  intros (Ha & Hb & Hc) (Ha' & Hb' & Hc').
  repeat split; [congruence | congruence | auto].
Qed.

(** Taking the header lock of a handle and giving it back is quiet. *)
Lemma log_quiet_locked s hp h :
  log_quiet s {| heap := hp;
                 log := Unlock (header_lock h) :: Lock (header_lock h) :: log s |}.
Proof.
  repeat split; simpl.
  - by rewrite decide_True.
  - done.
Qed.

Lemma heap_rel_refl R `{!Reflexive R} s : heap_rel R s s.
Proof. intros h. destruct (heap s !! h); by constructor. Qed.

Lemma heap_rel_trans R `{!Transitive R} s1 s2 s3 :
  heap_rel R s1 s2 → heap_rel R s2 s3 → heap_rel R s1 s3.
Proof.
  intros H12 H23 h. specialize (H12 h). specialize (H23 h).
  destruct H12; inversion H23; simplify_eq; constructor. etrans; eauto.
Qed.

(** Overwriting one header with a related one. *)
Lemma heap_rel_store R `{!Reflexive R} s h hs hs' l :
  heap s !! h = Some hs → R hs hs' →
  heap_rel R s {| heap := <[h := hs']> (heap s); log := l |}.
Proof.
  intros Hh HR h'. simpl. destruct (decide (h' = h)) as [->|Hne].
  - rewrite lookup_insert_eq, Hh. by constructor.
  - rewrite lookup_insert_ne by done. destruct (heap s !! h'); by constructor.
Qed.

Lemma log_quiet_call s s' : log_quiet s s' → log_call s s'.
Proof. intros (Ha & Hb & Hc). repeat split; auto. Qed.

Lemma log_quiet_then_call s1 s2 s3 : log_quiet s1 s2 → log_call s2 s3 → log_call s1 s3.
Proof.
  intros (Ha & Hb & Hc) (Ha' & Hb' & Hc'). repeat split.
  - congruence.
  - intros Hp. rewrite <- Ha. apply Hb'. rewrite Ha. by apply Hc.
  - rewrite <- Hb. exact Hc'.
Qed.

(** A quiet stretch run under a mutex, then the mutex given back. *)
Lemma log_quiet_bracket s s1 k hp hp' :
  log_quiet {| heap := hp; log := Lock k :: log s |} s1 →
  log_quiet s {| heap := hp'; log := Unlock k :: log s1 |}.
Proof.
  intros (Ha & Hb & Hc); simpl in *. repeat split; simpl.
  - rewrite Ha. apply release_head.
  - done.
  - intros held Hp. by apply Hc.
Qed.

(** A push made with the locks of the entry held. *)
Lemma log_call_push s hp j : log_call s {| heap := hp; log := Push j :: log s |}.
Proof. repeat split; simpl; eauto. Qed.

(** ** Preservation, once for all properties of a header

    [R] relates a header before and after an update; when each update the
    code makes is in [R], every call relates the store on entry to the
    store on return, header by header, and treats the log as [log_call]
    says. *)
Section preservation.

Variable jobs : gmap positive (list (positive * Z)).
Variable R : relation _starpu_data_state.
Context `{!PreOrder R}.

Hypothesis R_submit_take : ∀ hs mode, refcnt hs = 0 → R hs (submit_take mode hs).
Hypothesis R_drop : ∀ hs, refcnt hs = 1 → R hs (drop_reference hs).
Hypothesis R_record : ∀ hs r bump, R hs (record_requester r bump hs).
Hypothesis R_notify_take : ∀ hs mode, refcnt hs = 0 → R hs (notify_take mode hs).
Hypothesis R_remove : ∀ hs req_list j l,
  arbitered_req_list hs = Some req_list →
  remove_job_from_requester_list req_list j = (l, 0) →
  refcnt hs = 1 → 1 ≤ busy_count hs →
  R hs (set_req_list l hs).


Lemma step_ok_refl s : step_ok R s s.
Proof. split; [exact (heap_rel_refl R s) | apply log_quiet_refl]. Qed.

Lemma step_ok_trans s1 s2 s3 : step_ok R s1 s2 → step_ok R s2 s3 → step_ok R s1 s3.
Proof.
  intros [Ha Hb] [Ha' Hb'].
  split; [exact (heap_rel_trans R _ _ _ Ha Ha') | by eapply log_quiet_trans].
Qed.

Lemma step_ok_locked_store s h hs hs' :
  heap s !! h = Some hs → R hs hs' →
  step_ok R s {| heap := <[h := hs']> (heap s);
               log := Unlock (header_lock h) :: Lock (header_lock h) :: log s |}.
Proof.
  intros Hh HR. split; [exact (heap_rel_store R _ _ _ _ _ Hh HR) | apply log_quiet_locked].
Qed.

Lemma step_ok_locked s h :
  step_ok R s {| heap := heap s;
               log := Unlock (header_lock h) :: Lock (header_lock h) :: log s |}.
Proof. split; [exact (heap_rel_refl R s) | apply log_quiet_locked]. Qed.

Lemma step_ok_then_call s1 s2 s3 : step_ok R s1 s2 → call_ok R s2 s3 → call_ok R s1 s3.
Proof.
  intros [Ha Hb] [Ha' Hb'].
  split; [exact (heap_rel_trans R _ _ _ Ha Ha') | by eapply log_quiet_then_call].
Qed.

Lemma step_ok_call s s' : step_ok R s s' → call_ok R s s'.
Proof. intros [Ha Hb]. split; [done | by apply log_quiet_call]. Qed.

Lemma step_ok_bracket s s1 k :
  step_ok R {| heap := heap s; log := Lock k :: log s |} s1 →
  step_ok R s {| heap := heap s1; log := Unlock k :: log s1 |}.
Proof. intros [Ha Hb]. split; [done | by eapply log_quiet_bracket]. Qed.

Local Hint Resolve step_ok_refl step_ok_locked : core.

Lemma submit_take_loop_ok arb j n idx s r s' :
  submit_take_loop jobs arb j n idx s = Ret r s' → step_ok R s s'.
Proof.
  revert idx s. induction n as [|n IH]; intros idx s H; simpl in H; inv_run H;
    norm_tests; eauto.
  eapply step_ok_trans; [|by eapply IH]. eapply step_ok_locked_store; eauto.
Qed.

Lemma cancel_loop_ok arb j n idx s u s' :
  cancel_loop jobs arb j n idx s = Ret u s' → step_ok R s s'.
Proof.
  revert idx s. induction n as [|n IH]; intros idx s H; simpl in H; inv_run H;
    norm_tests; eauto.
  eapply step_ok_trans; [|by eapply IH]. eapply step_ok_locked_store; eauto.
Qed.

Lemma record_loop_ok arb j ia n idx s u s' :
  record_loop jobs arb j ia n idx s = Ret u s' → step_ok R s s'.
Proof.
  revert idx s. induction n as [|n IH]; intros idx s H; simpl in H; inv_run H;
    norm_tests; eauto.
  eapply step_ok_trans; [|by eapply IH]. eapply step_ok_locked_store; eauto.
Qed.

Lemma find_arbiter_buffers_same arb j n idx s r s' :
  find_arbiter_buffers jobs arb j n idx s = Ret r s' → s' = s.
Proof.
  revert idx s. induction n as [|n IH]; intros idx s H; simpl in H; inv_run H;
    eauto.
Qed.

Lemma notify_take_loop_ok arb j n idx s r s' :
  notify_take_loop jobs arb j n idx s = Ret r s' → step_ok R s s'.
Proof.
  revert idx s. induction n as [|n IH]; intros idx s H; simpl in H; inv_run H;
    norm_tests; eauto.
  eapply step_ok_trans; [|by eapply IH]. eapply step_ok_locked_store; eauto.
Qed.

Lemma remove_loop_ok arb j n idx s r s' :
  remove_loop jobs arb j n idx s = Ret r s' → step_ok R s s'.
Proof.
  revert idx s. induction n as [|n IH]; intros idx s H; simpl in H; inv_run H;
    norm_tests; subst; eauto.
  eapply step_ok_trans; [|by eapply IH]. eapply step_ok_locked_store; eauto.
Qed.

Lemma submit_fuel_ok fuel j buf nbuffers s v s' :
  submit_fuel jobs fuel j buf nbuffers s = Ret v s' → call_ok R s s'.
Proof.
  revert buf s. induction fuel as [|fuel IH]; intros buf s H; simpl in H; [done|].
  inv_run H.
  - eapply step_ok_then_call; [|by eapply IH].
    apply step_ok_bracket. by eapply submit_take_loop_ok.
  - eapply step_ok_then_call;
      [apply step_ok_bracket; by eapply submit_take_loop_ok|].
    split; [exact (heap_rel_refl R _) | apply log_call_push].
  - apply step_ok_call. apply step_ok_bracket.
    eapply step_ok_trans; [by eapply submit_take_loop_ok|].
    eapply step_ok_trans; [by eapply cancel_loop_ok|].
    by eapply record_loop_ok.
Qed.

Lemma notify_scan_ok arb rs s0 s v s' :
  step_ok R {| heap := heap s0; log := Lock (arbiter_mutex arb) :: log s0 |} s →
  notify_scan jobs arb rs s = Ret v s' → call_ok R s0 s'.
Proof.
  revert s. induction rs as [|r rs IH]; intros s Hs H; simpl in H; inv_run H.
  - apply step_ok_call. by apply step_ok_bracket.
  - apply find_arbiter_buffers_same in Hrun0 as ->.
    eapply step_ok_then_call; [|by eapply submit_fuel_ok].
    apply step_ok_bracket.
    eapply step_ok_trans; [exact Hs|].
    eapply step_ok_trans; [by eapply notify_take_loop_ok|].
    by eapply remove_loop_ok.
  - apply find_arbiter_buffers_same in Hrun0 as ->.
    eapply step_ok_then_call.
    + apply step_ok_bracket.
      eapply step_ok_trans; [exact Hs|].
      eapply step_ok_trans; [by eapply notify_take_loop_ok|].
      by eapply remove_loop_ok.
    + split; [exact (heap_rel_refl R _) | apply log_call_push].
  - apply find_arbiter_buffers_same in Hrun0 as ->.
    eapply IH; [|done].
    eapply step_ok_trans; [exact Hs|].
    eapply step_ok_trans; [by eapply notify_take_loop_ok|].
    by eapply cancel_loop_ok.
Qed.

Lemma notify_ok handle s v s' :
  _starpu_notify_arbitered_dependencies jobs handle s = Ret v s' → call_ok R s s'.
Proof.
  unfold _starpu_notify_arbitered_dependencies. intros H. inv_run H.
  destruct (arbitered_req_list a) as [rs|] eqn:Hl.
  - eapply notify_scan_ok; [|exact H]. apply step_ok_refl.
  - inv_run H. apply step_ok_call.
    apply (step_ok_bracket s {| heap := heap s; log := _ |}). apply step_ok_refl.
Qed.

End preservation.
(** ** The recursion bound is never hit *)


Lemma in_fuel_bind {A B} (f : A → M B) (m : M A) s :
  in_fuel (m s) → (∀ a s1, m s = Ret a s1 → in_fuel (f a s1)) →
  in_fuel (mbind f m s).
Proof.
  unfold in_fuel, mbind, M_bind. intros Hm Hf.
  destruct (m s) eqn:E; try done. by eapply Hf.
Qed.

Lemma in_fuel_deref {A} (o : option A) s : in_fuel (deref o s).
Proof. unfold in_fuel, deref. by destruct o. Qed.

Lemma in_fuel_load h s : in_fuel (load h s).
Proof. unfold in_fuel, load. by destruct (heap s !! h). Qed.

Lemma in_fuel_assert b s : in_fuel (STARPU_ASSERT b s).
Proof. unfold in_fuel, STARPU_ASSERT. by destruct b. Qed.

Lemma in_fuel_store h hs s : in_fuel (store h hs s).
Proof. done. Qed.

Lemma in_fuel_emit e s : in_fuel (emit e s).
Proof. done. Qed.

Lemma in_fuel_mret {A} (a : A) s : in_fuel (mret (M := M) a s).
Proof. done. Qed.

Lemma in_fuel_already_requested jobs j idx h s :
  in_fuel (already_requested jobs j idx h s).
Proof.
  destruct idx; simpl; [done|].
  apply in_fuel_bind; [apply in_fuel_deref | done].
Qed.

Ltac in_fuel_step :=
  lazymatch goal with
  | |- in_fuel (mbind _ _ _) => apply in_fuel_bind; [|intros ? ? ?]
  | |- in_fuel (deref _ _) => apply in_fuel_deref
  | |- in_fuel (_STARPU_JOB_GET_ORDERED_BUFFER_HANDLE _ _ _ _) => apply in_fuel_deref
  | |- in_fuel (_STARPU_JOB_GET_ORDERED_BUFFER_MODE _ _ _ _) => apply in_fuel_deref
  | |- in_fuel (STARPU_TASK_GET_NBUFFERS _ _ _) => apply in_fuel_deref
  | |- in_fuel (already_requested _ _ _ _ _) => apply in_fuel_already_requested
  | |- in_fuel (load _ _) => apply in_fuel_load
  | |- in_fuel (STARPU_ASSERT _ _) => apply in_fuel_assert
  | |- in_fuel (store _ _ _) => apply in_fuel_store
  | |- in_fuel (emit _ _) => apply in_fuel_emit
  | |- in_fuel (STARPU_PTHREAD_MUTEX_LOCK _ _) => apply in_fuel_emit
  | |- in_fuel (STARPU_PTHREAD_MUTEX_UNLOCK _ _) => apply in_fuel_emit
  | |- in_fuel (_starpu_spin_lock _ _) => apply in_fuel_emit
  | |- in_fuel (_starpu_spin_unlock _ _) => apply in_fuel_emit
  | |- in_fuel (_starpu_push_task _ _) => apply in_fuel_emit
  | |- in_fuel (mret _ _) => apply in_fuel_mret
  | |- in_fuel ((if ?b then _ else _) _) => destruct b
  | |- in_fuel ((let '(_, _) := ?p in _) _) => destruct p
  end.

Section fuel.

Variable jobs : gmap positive (list (positive * Z)).

Lemma in_fuel_submit_take_loop arb j n idx s :
  in_fuel (submit_take_loop jobs arb j n idx s).
Proof.
  revert idx s. induction n as [|n IH]; intros idx s; simpl;
    repeat in_fuel_step; auto.
Qed.

Lemma in_fuel_cancel_loop arb j n idx s :
  in_fuel (cancel_loop jobs arb j n idx s).
Proof.
  revert idx s. induction n as [|n IH]; intros idx s; simpl;
    repeat in_fuel_step; auto.
Qed.

Lemma in_fuel_record_loop arb j ia n idx s :
  in_fuel (record_loop jobs arb j ia n idx s).
Proof.
  revert idx s. induction n as [|n IH]; intros idx s; simpl;
    repeat in_fuel_step; auto.
Qed.

Lemma in_fuel_find_arbiter_buffers arb j n idx s :
  in_fuel (find_arbiter_buffers jobs arb j n idx s).
Proof.
  revert idx s. induction n as [|n IH]; intros idx s; simpl;
    repeat in_fuel_step; auto.
Qed.

Lemma in_fuel_notify_take_loop arb j n idx s :
  in_fuel (notify_take_loop jobs arb j n idx s).
Proof.
  revert idx s. induction n as [|n IH]; intros idx s; simpl;
    repeat in_fuel_step; auto.
Qed.

Lemma in_fuel_remove_loop arb j n idx s :
  in_fuel (remove_loop jobs arb j n idx s).
Proof.
  revert idx s. induction n as [|n IH]; intros idx s; simpl;
    repeat in_fuel_step; auto.
Qed.

(** The index at which a pass stops lies in the range it was given. *)
Lemma submit_take_loop_range arb j n idx s stop ok s' :
  submit_take_loop jobs arb j n idx s = Ret (stop, ok) s' →
  (idx ≤ stop ≤ idx + n)%nat.
Proof.
  revert idx s. induction n as [|n IH]; intros idx s H; simpl in H; inv_run H;
    try lia; apply IH in H; lia.
Qed.

Lemma notify_take_loop_range arb j n idx s stop ok s' :
  notify_take_loop jobs arb j n idx s = Ret (stop, ok) s' →
  (idx ≤ stop ≤ idx + n)%nat.
Proof.
  revert idx s. induction n as [|n IH]; intros idx s H; simpl in H; inv_run H;
    try lia; apply IH in H; lia.
Qed.

Lemma remove_loop_range arb j n idx s stop s' :
  remove_loop jobs arb j n idx s = Ret stop s' →
  (idx ≤ stop ≤ idx + n)%nat.
Proof.
  revert idx s. induction n as [|n IH]; intros idx s H; simpl in H; inv_run H;
    try lia; apply IH in H; lia.
Qed.

(** A pass that starts on a buffer of its own arbiter and does not fail
    gets past that buffer. *)
Lemma submit_take_loop_progress arb j n idx s stop s' h hs :
  submit_take_loop jobs arb j (S n) idx s = Ret (stop, true) s' →
  job_handle jobs j idx = Some h → heap s !! h = Some hs →
  arbiter hs = Some arb →
  (idx < stop)%nat.
Proof.
  intros H Hh Hhs Harb. simpl in H. inv_run H;
    try (apply submit_take_loop_range in H; lia).
  apply bool_decide_eq_true in Hif0. congruence.
Qed.

Lemma submit_fuel_enough fuel j buf nbuffers s :
  (nbuffers - buf < fuel)%nat →
  in_fuel (submit_fuel jobs fuel j buf nbuffers s).
Proof.
  revert buf s. induction fuel as [|fuel IH]; intros buf s Hlt; [lia|].
  simpl.
  apply in_fuel_bind; [apply in_fuel_deref | intros h s1 Hh].
  apply in_fuel_bind; [apply in_fuel_load | intros hs s2 Hhs].
  apply in_fuel_bind; [apply in_fuel_deref | intros arb s3 Harb].
  apply in_fuel_bind; [apply in_fuel_emit | intros u s4 Hlock].
  apply in_fuel_bind; [apply in_fuel_submit_take_loop | intros [stop ok] s5 Htake].
  inv_run Hh. inv_run Hhs. inv_run Harb. inv_run Hlock.
  destruct ok.
  - apply in_fuel_bind; [apply in_fuel_emit | intros ? s6 Hun].
    case_bool_decide as Hstop; [|repeat in_fuel_step].
    apply IH. assert (buf < stop)%nat; [|lia].
    destruct (nbuffers - buf)%nat as [|k] eqn:Hk.
    + apply submit_take_loop_range in Htake. lia.
    + eapply submit_take_loop_progress; eauto.
  - repeat in_fuel_step;
      auto using in_fuel_cancel_loop, in_fuel_record_loop.
Qed.

(** [_starpu_submit_job_enforce_arbitered_deps] always has fuel left. *)
Lemma submit_in_fuel j buf nbuffers s :
  in_fuel (_starpu_submit_job_enforce_arbitered_deps jobs j buf nbuffers s).
Proof. apply submit_fuel_enough. lia. Qed.

Lemma notify_scan_in_fuel arb rs s : in_fuel (notify_scan jobs arb rs s).
Proof.
  revert s. induction rs as [|r rs IH]; intros s; simpl;
    repeat in_fuel_step; auto using in_fuel_find_arbiter_buffers,
      in_fuel_notify_take_loop, in_fuel_remove_loop, submit_in_fuel,
      in_fuel_cancel_loop.
Qed.

Lemma notify_in_fuel handle s :
  in_fuel (_starpu_notify_arbitered_dependencies jobs handle s).
Proof.
  unfold _starpu_notify_arbitered_dependencies. repeat in_fuel_step.
  destruct (arbitered_req_list _); [apply notify_scan_in_fuel|].
  repeat in_fuel_step.
Qed.

End fuel.

(** ** Runs that return *)


Lemma returns_bind {A B} (f : A → M B) (m : M A) s :
  returns (m s) → (∀ a s1, m s = Ret a s1 → returns (f a s1)) →
  returns (mbind f m s).
Proof.
  unfold mbind, M_bind. intros (a & s1 & Hm) Hf. rewrite Hm. by eapply Hf.
Qed.

Lemma returns_Ret {A} (a : A) s : returns (Ret a s).
Proof. by exists a, s. Qed.

Lemma returns_deref {A} (o : option A) s : is_Some o → returns (deref o s).
Proof. intros [a ->]. apply returns_Ret. Qed.

Lemma deref_Some {A} (o : option A) a s : o = Some a → deref o s = Ret a s.
Proof. by intros ->. Qed.

Lemma returns_load h s : is_Some (heap s !! h) → returns (load h s).
Proof. unfold load. intros [hs ->]. apply returns_Ret. Qed.

Section jobs_facts.

Variable jobs : gmap positive (list (positive * Z)).

Lemma job_handle_mode j i h :
  job_handle jobs j i = Some h → ∃ m, job_mode jobs j i = Some m.
Proof.
  unfold job_handle, job_mode. destruct (jobs !! j) as [bufs|]; simpl; [|done].
  destruct (bufs !! i) as [[h' m]|]; simpl; [|done]. eauto.
Qed.

Lemma job_handle_prev j i h :
  job_handle jobs j (S i) = Some h → is_Some (job_handle jobs j i).
Proof.
  unfold job_handle. destruct (jobs !! j) as [bufs|]; simpl; [|done].
  destruct (bufs !! S i) as [p|] eqn:E; simpl; [|done]. intros _.
  apply lookup_lt_Some in E.
  destruct (lookup_lt_is_Some_2 bufs i) as [q ->]; [lia|]. by eexists.
Qed.

Lemma returns_already_requested j idx h s :
  job_handle jobs j idx = Some h → returns (already_requested jobs j idx h s).
Proof.
  destruct idx as [|p]; simpl; [intros _; apply returns_Ret|].
  intros Hh. apply returns_bind.
  - apply returns_deref. by eapply job_handle_prev.
  - intros. apply returns_Ret.
Qed.

Lemma already_requested_run j idx h s :
  job_handle jobs j idx = Some h →
  already_requested jobs j idx h s = Ret (requested_before jobs j idx h) s.
Proof.
  intros Hh. destruct (returns_already_requested j idx h s Hh) as (b & s' & Hr).
  rewrite Hr. by apply already_requested_inv in Hr as [-> ->].
Qed.

End jobs_facts.


Lemma buffers_allocated_next jobs j idx n s s' :
  buffers_allocated jobs j idx (S n) s →
  (∀ h, is_Some (heap s !! h) → is_Some (heap s' !! h)) →
  buffers_allocated jobs j (S idx) n s'.
Proof.
  intros Hal Hs i Hi. destruct (Hal i) as (h & Hh & Hin); [lia|]. eauto.
Qed.

Lemma is_Some_insert_keep (hp : gmap positive _starpu_data_state) h hs h' :
  is_Some (hp !! h') → is_Some (<[h := hs]> hp !! h').
Proof.
  intros Hin. destruct (decide (h = h')) as [->|Hne].
  - rewrite lookup_insert_eq. by eexists.
  - by rewrite lookup_insert_ne.
Qed.

Lemma u32_one : u32 (0 + 1) = 1.
Proof. reflexivity. Qed.

Lemma u32_small z : 0 ≤ z ≤ UINT_MAX → u32 z = z.
Proof. unfold u32, UINT_MAX. intros Hz. apply Z.mod_small. lia. Qed.


Tactic Notation "ret_step" "by" tactic(tac) :=
  apply returns_bind;
    [tac | let Hr := fresh "Hr" in intros ? ? Hr; inv_run Hr].

Ltac ret_if :=
  lazymatch goal with
  | |- returns ((if ?b then _ else _) _) =>
      let Hb := fresh "Hif" in destruct b eqn:Hb
  end.

(** ** The try-acquire pass of the submission *)

Section take.

Variable jobs : gmap positive (list (positive * Z)).

(** On allocated handles the pass has nothing to fault or abort on. *)
Lemma submit_take_loop_returns arb j n idx s :
  buffers_allocated jobs j idx n s →
  returns (submit_take_loop jobs arb j n idx s).
Proof.
  revert idx s. induction n as [|n IH]; intros idx s Hal; simpl.
  { apply returns_Ret. }
  destruct (Hal idx) as (h & Hh & Hin); [lia|].
  destruct (job_handle_mode jobs j idx h Hh) as [m Hm].
  ret_step by (apply returns_deref; eauto).
  ret_step by (apply returns_deref; eauto).
  ret_step by (by apply returns_already_requested).
  ret_if.
  { apply IH. eapply buffers_allocated_next; eauto. }
  ret_step by (by apply returns_load).
  ret_if; [apply returns_Ret|].
  ret_step by (apply returns_Ret).
  ret_if.
  - ret_step by (apply returns_Ret).
    ret_step by (apply returns_Ret).
    apply IH. eapply buffers_allocated_next; eauto.
    intros h'. simpl. apply is_Some_insert_keep.
  - ret_step by (apply returns_Ret).
    apply returns_Ret.
Qed.

(** What a pass that returned has done: the handles attempted before the
    stop were free and are taken, the others are untouched, and the stop
    is explained. *)
Lemma submit_take_loop_inv arb j n idx s stop ok s' :
  submit_take_loop jobs arb j n idx s = Ret (stop, ok) s' →
  (∀ i h, (idx ≤ i < stop)%nat → attempted jobs j i h →
     ∃ hs m, heap s !! h = Some hs ∧ job_mode jobs j i = Some m ∧
       arbiter hs = Some arb ∧ refcnt hs = 0 ∧
       heap s' !! h = Some (submit_take m hs)) ∧
  (∀ h, (∀ i, (idx ≤ i < stop)%nat → ¬ attempted jobs j i h) →
     heap s' !! h = heap s !! h) ∧
  (ok = false →
     (stop < idx + n)%nat ∧
     ∃ h hs, attempted jobs j stop h ∧ heap s' !! h = Some hs ∧
       arbiter hs = Some arb ∧ refcnt hs ≠ 0) ∧
  (ok = true →
     stop = (idx + n)%nat ∨
     ∃ h hs, attempted jobs j stop h ∧ heap s' !! h = Some hs ∧
       arbiter hs ≠ Some arb).
Proof.
  revert idx s. induction n as [|n IH]; intros idx s H; simpl in H; inv_run H.
  - split_and!; [intros; lia | done | done | intros _; left; lia].
  - (* the buffer is skipped *)
    destruct (IH _ _ H) as (Htaken & Hframe & Hfail & Hsucc).
    split_and!.
    + intros i h Hi Hat. destruct (decide (i = idx)) as [->|Hne].
      * destruct Hat as [Hh Hb]. congruence.
      * apply Htaken; [lia | done].
    + intros h Hno. apply Hframe. intros i Hi. apply Hno. lia.
    + intros Hok. destruct (Hfail Hok) as [Hlt Hrest]. split; [lia | done].
    + intros Hok. destruct (Hsucc Hok) as [->|Hrest]; [left; lia | by right].
  - (* another arbiter *)
    apply bool_decide_eq_true in Hif0.
    split_and!; [intros; lia | done | done |].
    intros _. right. exists a, a1. by repeat split.
  - (* the reference is taken *)
    apply bool_decide_eq_false in Hif0. apply dec_stable in Hif0.
    apply Z.eqb_eq in Hif1.
    destruct (IH _ _ H) as (Htaken & Hframe & Hfail & Hsucc). simpl in *.
    assert (Hnot : ∀ i, (S idx ≤ i < stop)%nat → ¬ attempted jobs j i a).
    { intros i Hi Hat. destruct (Htaken i a Hi Hat) as (hs & m & Hl & _ & _ & Hz & _).
      rewrite lookup_insert_eq in Hl. simplify_eq. simpl in Hz.
      rewrite Hif1 in Hz. done. }
    split_and!.
    + intros i h Hi Hat. destruct (decide (i = idx)) as [->|Hne].
      * assert (h = a) as -> by (destruct Hat; congruence).
        exists a1, a0. split_and!; try done.
        rewrite (Hframe a Hnot). apply lookup_insert_eq.
      * destruct (Htaken i h) as (hs & m & Hl & Hm & Ha & Hz & Hl'); [lia|done|].
        destruct (decide (h = a)) as [->|Hha].
        { rewrite lookup_insert_eq in Hl. simplify_eq. simpl in Hz.
          rewrite Hif1 in Hz. done. }
        rewrite lookup_insert_ne in Hl by done. eauto 10.
    + intros h Hno. assert (h ≠ a).
      { intros ->. apply (Hno idx); [|done].
        apply submit_take_loop_range in H. lia. }
      rewrite Hframe; [by rewrite lookup_insert_ne|].
      intros i Hi. apply Hno. lia.
    + intros Hok. destruct (Hfail Hok) as [Hlt Hrest]. split; [lia | done].
    + intros Hok. destruct (Hsucc Hok) as [->|Hrest]; [left; lia | by right].
  - (* the handle is taken already: the pass stops *)
    apply bool_decide_eq_false in Hif0. apply dec_stable in Hif0.
    apply Z.eqb_neq in Hif1.
    split_and!; [intros; lia | done | | done].
    intros _. split; [lia|]. exists a, a1. by repeat split.
Qed.
(** The same two facts for the fast-takes of notify. *)
Lemma notify_take_loop_returns arb j n idx s :
  buffers_allocated jobs j idx n s →
  returns (notify_take_loop jobs arb j n idx s).
Proof.
  revert idx s. induction n as [|n IH]; intros idx s Hal; simpl.
  { apply returns_Ret. }
  destruct (Hal idx) as (h & Hh & Hin); [lia|].
  destruct (job_handle_mode jobs j idx h Hh) as [m Hm].
  ret_step by (apply returns_deref; eauto).
  ret_step by (by apply returns_already_requested).
  ret_if.
  { apply IH. eapply buffers_allocated_next; eauto. }
  ret_step by (by apply returns_load).
  ret_if; [apply returns_Ret|].
  ret_step by (apply returns_deref; eauto).
  ret_step by (apply returns_Ret).
  ret_if.
  - ret_step by (apply returns_Ret).
    apply returns_Ret.
  - ret_step by (apply returns_Ret).
    ret_step by (apply returns_Ret).
    apply IH. eapply buffers_allocated_next; eauto.
    intros h'. simpl. apply is_Some_insert_keep.
Qed.

Lemma notify_take_loop_inv arb j n idx s stop ok s' :
  notify_take_loop jobs arb j n idx s = Ret (stop, ok) s' →
  (∀ i h, (idx ≤ i < stop)%nat → attempted jobs j i h →
     ∃ hs m, heap s !! h = Some hs ∧ job_mode jobs j i = Some m ∧
       arbiter hs = Some arb ∧ refcnt hs = 0 ∧
       heap s' !! h = Some (notify_take m hs)) ∧
  (∀ h, (∀ i, (idx ≤ i < stop)%nat → ¬ attempted jobs j i h) →
     heap s' !! h = heap s !! h) ∧
  (ok = false →
     (stop < idx + n)%nat ∧
     ∃ h hs, attempted jobs j stop h ∧ heap s' !! h = Some hs ∧
       arbiter hs = Some arb ∧ refcnt hs ≠ 0) ∧
  (ok = true →
     stop = (idx + n)%nat ∨
     ∃ h hs, attempted jobs j stop h ∧ heap s' !! h = Some hs ∧
       arbiter hs ≠ Some arb).
Proof.
  revert idx s. induction n as [|n IH]; intros idx s H; simpl in H; inv_run H.
  - split_and!; [intros; lia | done | done | intros _; left; lia].
  - (* the buffer is skipped *)
    destruct (IH _ _ H) as (Htaken & Hframe & Hfail & Hsucc).
    split_and!.
    + intros i h Hi Hat. destruct (decide (i = idx)) as [->|Hne].
      * destruct Hat as [Hh Hb]. congruence.
      * apply Htaken; [lia | done].
    + intros h Hno. apply Hframe. intros i Hi. apply Hno. lia.
    + intros Hok. destruct (Hfail Hok) as [Hlt Hrest]. split; [lia | done].
    + intros Hok. destruct (Hsucc Hok) as [->|Hrest]; [left; lia | by right].
  - (* another arbiter *)
    apply bool_decide_eq_true in Hif0.
    split_and!; [intros; lia | done | done |].
    intros _. right. exists a, a0. by repeat split.
  - (* the handle is taken already: the pass stops *)
    apply bool_decide_eq_false in Hif0. apply dec_stable in Hif0.
    apply negb_true_iff, Z.eqb_neq in Hif1.
    split_and!; [intros; lia | done | | done].
    intros _. split; [lia|]. exists a, a0. by repeat split.
  - (* the reference is taken *)
    apply bool_decide_eq_false in Hif0. apply dec_stable in Hif0.
    apply negb_false_iff, Z.eqb_eq in Hif1.
    destruct (IH _ _ H) as (Htaken & Hframe & Hfail & Hsucc). simpl in *.
    assert (Hnot : ∀ i, (S idx ≤ i < stop)%nat → ¬ attempted jobs j i a).
    { intros i Hi Hat. destruct (Htaken i a Hi Hat) as (hs & m & Hl & _ & _ & Hz & _).
      rewrite lookup_insert_eq in Hl. simplify_eq. simpl in Hz.
      rewrite Hif1 in Hz. done. }
    split_and!.
    + intros i h Hi Hat. destruct (decide (i = idx)) as [->|Hne].
      * assert (h = a) as -> by (destruct Hat; congruence).
        exists a0, a1. split_and!; try done.
        rewrite (Hframe a Hnot). apply lookup_insert_eq.
      * destruct (Htaken i h) as (hs & m & Hl & Hm & Ha & Hz & Hl'); [lia|done|].
        destruct (decide (h = a)) as [->|Hha].
        { rewrite lookup_insert_eq in Hl. simplify_eq. simpl in Hz.
          rewrite Hif1 in Hz. done. }
        rewrite lookup_insert_ne in Hl by done. eauto 10.
    + intros h Hno. assert (h ≠ a).
      { intros ->. apply (Hno idx); [|done].
        apply notify_take_loop_range in H. lia. }
      rewrite Hframe; [by rewrite lookup_insert_ne|].
      intros i Hi. apply Hno. lia.
    + intros Hok. destruct (Hfail Hok) as [Hlt Hrest]. split; [lia | done].
    + intros Hok. destruct (Hsucc Hok) as [->|Hrest]; [left; lia | by right].
Qed.

End take.

Section rollback.

Variable jobs : gmap positive (list (positive * Z)).

(** The cancel loop run after the fast-takes, from any store that agrees
    with theirs on the handles they took, returns and drops exactly the
    references they took. *)
Lemma notify_take_cancel arb j n idx s stop ok s1 :
  notify_take_loop jobs arb j n idx s = Ret (stop, ok) s1 →
  ∀ t1,
    (∀ i h, (idx ≤ i < stop)%nat → attempted jobs j i h →
       heap t1 !! h = heap s1 !! h) →
    ∃ t2, cancel_loop jobs arb j (stop - idx) idx t1 = Ret () t2 ∧
      log_quiet t1 t2 ∧
      ∀ h, (heap t2 !! h = heap t1 !! h ∧ heap s1 !! h = heap s !! h) ∨
           (∃ hs m, heap s !! h = Some hs ∧ refcnt hs = 0 ∧
              heap t2 !! h = Some (drop_reference (notify_take m hs))).
Proof.
  revert idx s. induction n as [|n IH]; intros idx s H t1 Hagree;
    pose proof (notify_take_loop_range _ _ _ _ _ _ _ _ _ H) as Hrange;
    simpl in H; inv_run H.
  - rewrite Nat.sub_diag.
    exists t1. split_and!; [done | apply log_quiet_refl | by left].
  - (* skipped *)
    pose proof (notify_take_loop_range _ _ _ _ _ _ _ _ _ H) as Hrange'.
    replace (stop - idx)%nat with (S (stop - S idx)) by lia. simpl.
    rewrite (bind_Ret _ _ _ _ _ (deref_Some _ _ _ Hrun)).
    rewrite (bind_Ret _ _ _ _ _ (already_requested_run _ _ _ _ _ Hrun)).
    rewrite Hif. apply (IH _ _ H). intros i h Hi. apply (Hagree i). lia.
  - rewrite Nat.sub_diag.
    exists t1. split_and!; [done | apply log_quiet_refl | by left].
  - rewrite Nat.sub_diag.
    exists t1. split_and!; [done | apply log_quiet_refl | by left].
  - (* taken *)
    pose proof (notify_take_loop_range _ _ _ _ _ _ _ _ _ H) as Hrange'.
    apply bool_decide_eq_false in Hif0. apply dec_stable in Hif0.
    apply negb_false_iff, Z.eqb_eq in Hif1.
    destruct (notify_take_loop_inv _ _ _ _ _ _ _ _ _ H) as (Htaken & Hframe & _).
    simpl in *.
    assert (Hnot : ∀ i, (S idx ≤ i < stop)%nat → ¬ attempted jobs j i a).
    { intros i Hi Hat. destruct (Htaken i a Hi Hat) as (hs & m & Hl & _ & _ & Hz & _).
      rewrite lookup_insert_eq in Hl. simplify_eq. simpl in Hz.
      rewrite Hif1 in Hz. done. }
    assert (Hs1 : heap s1 !! a = Some (notify_take a1 a0)).
    { rewrite (Hframe a Hnot). apply lookup_insert_eq. }
    assert (Ht1 : heap t1 !! a = Some (notify_take a1 a0)).
    { rewrite <- Hs1. apply (Hagree idx); [lia | done]. }
    replace (stop - idx)%nat with (S (stop - S idx)) by lia. simpl.
    rewrite (bind_Ret _ _ _ _ _ (deref_Some _ _ _ Hrun)).
    rewrite (bind_Ret _ _ _ _ _ (already_requested_run _ _ _ _ _ Hrun)).
    rewrite Hif.
    rewrite (bind_Ret _ _ _ _ _ (load_Some _ _ _ Ht1)). simpl.
    rewrite bool_decide_eq_false_2 by (intros Hne; by apply Hne).
    unfold mbind at 1, M_bind at 1. simpl.
    rewrite Hif1. simpl.
    unfold mbind at 1, M_bind at 1. simpl.
    unfold mbind at 1, M_bind at 1. simpl.
    unfold mbind at 1, M_bind at 1. simpl.
    match goal with |- ∃ t2, cancel_loop _ _ _ _ _ ?t = _ ∧ _ => set (t1' := t) end.
    destruct (IH _ _ H t1') as (t2 & Hc & Hq & Hh).
    { intros i h Hi Hat. simpl.
      assert (h ≠ a) by (intros ->; by apply (Hnot i)).
      rewrite lookup_insert_ne by done. apply (Hagree i); [lia | done]. }
    exists t2. split_and!; [done | |].
    + eapply log_quiet_trans; [|exact Hq]. apply log_quiet_locked.
    + intros h. destruct (decide (h = a)) as [->|Hne].
      * right. exists a0, a1. split_and!; try done.
        destruct (Hh a) as [[Ha _] | (hs & m & Hl & Hz & _)].
        -- rewrite Ha. apply lookup_insert_eq.
        -- simpl in Hl. rewrite lookup_insert_eq in Hl. simplify_eq. simpl in Hz.
           rewrite Hif1 in Hz. done.
      * destruct (Hh h) as [[Ha Hb] | (hs & m & Hl & Hz & Hl')].
        -- left. simpl in Ha, Hb. rewrite !lookup_insert_ne in * by done. done.
        -- right. simpl in Hl. rewrite lookup_insert_ne in Hl by done. eauto.
Qed.

(** A pass of fast-takes followed by the cancel loop over the buffers it
    went through: every header is as before, but for the mode. *)
Lemma notify_rollback arb j n idx s stop ok s1 :
  notify_take_loop jobs arb j n idx s = Ret (stop, ok) s1 →
  ∃ s2, cancel_loop jobs arb j (stop - idx) idx s1 = Ret () s2 ∧
        heap_rel same_but_mode s s2 ∧ log_quiet s1 s2.
Proof.
  intros H. destruct (notify_take_cancel _ _ _ _ _ _ _ _ H s1) as (s2 & Hc & Hq & Hh);
    [done|].
  exists s2. split_and!; [done | | done].
  intros h. destruct (Hh h) as [[-> <-] | (hs & m & -> & Hz & ->)].
  - destruct (heap s1 !! h); by constructor.
  - constructor. repeat split. simpl. by rewrite Hz.
Qed.

End rollback.

Section promotion.

Variable jobs : gmap positive (list (positive * Z)).

(** The promotion loop run after fast-takes that all succeeded stops where
    they stopped, and takes the job out of the list of exactly the handles
    they took; it has asserted [busy_count >= 1] on each. *)
Lemma notify_take_remove arb j n idx s stop s1 :
  notify_take_loop jobs arb j n idx s = Ret (stop, true) s1 →
  ∀ t1 stop' t2,
    (∀ i h, (idx ≤ i < stop)%nat → attempted jobs j i h →
       heap t1 !! h = heap s1 !! h) →
    (∀ h, arbiter <$> heap t1 !! h = arbiter <$> heap s1 !! h) →
    remove_loop jobs arb j n idx t1 = Ret stop' t2 →
    stop' = stop ∧ log_quiet t1 t2 ∧
    ∀ h, (heap t2 !! h = heap t1 !! h ∧ heap s1 !! h = heap s !! h) ∨
         (∃ i hs m l, (idx ≤ i < stop)%nat ∧ attempted jobs j i h ∧
            heap s !! h = Some hs ∧ refcnt hs = 0 ∧
            1 ≤ busy_count hs ∧ arbitered_req_list hs = Some l ∧
            (remove_job_from_requester_list l j).2 = 0 ∧
            heap t2 !! h =
              Some (set_req_list (remove_job_from_requester_list l j).1
                      (notify_take m hs))).
Proof.
  revert idx s. induction n as [|n IH]; intros idx s H t1 stop' t2 Hagree Harb H';
    pose proof (notify_take_loop_range _ _ _ _ _ _ _ _ _ H) as Hrange;
    simpl in H; inv_run H.
  - simpl in H'. inv_run H'. split_and!; [done | apply log_quiet_refl | by left].
  - (* skipped *)
    simpl in H'. inv_run H'; try congruence.
    destruct (IH _ _ H t1 stop' t2) as (Hstop & Hq & Hh); [|done..|].
    { intros i h Hi. apply (Hagree i). lia. }
    split_and!; [done..|].
    intros h. destruct (Hh h) as [Hl | (i & hs & m & l & Hi & Hrest)]; [by left|].
    right. exists i, hs, m, l. split; [lia | done].
  - (* another arbiter *)
    simpl in H'. inv_run H'; norm_tests; try congruence.
    + split_and!; [done | apply log_quiet_refl | by left].
    + exfalso. pose proof (Harb a) as Ha.
      repeat match goal with
      | Hl : heap _ !! a = Some _ |- _ => rewrite Hl in Ha; clear Hl
      end.
      simpl in Ha. congruence.
  - (* taken *)
    norm_tests.
    pose proof (notify_take_loop_range _ _ _ _ _ _ _ _ _ H) as Hrange'.
    destruct (notify_take_loop_inv _ _ _ _ _ _ _ _ _ H) as (Htaken & Hframe & _).
    simpl in *.
    assert (Hnot : ∀ i, (S idx ≤ i < stop)%nat → ¬ attempted jobs j i a).
    { intros i Hi Hat. destruct (Htaken i a Hi Hat) as (hs & m & Hl & _ & _ & Hz & _).
      rewrite lookup_insert_eq in Hl. simplify_eq. simpl in Hz.
      rewrite Hif1 in Hz. done. }
    assert (Hs1 : heap s1 !! a = Some (notify_take a1 a0)).
    { rewrite (Hframe a Hnot). apply lookup_insert_eq. }
    assert (Ht1 : heap t1 !! a = Some (notify_take a1 a0)).
    { rewrite <- Hs1. apply (Hagree idx); [lia | done]. }
    simpl in H'. inv_run H'; norm_tests; try congruence.
    subst z.
    match type of H' with
    | remove_loop _ _ _ _ _ ?t = _ => set (t1' := t) in *
    end.
    destruct (IH _ _ H t1' stop' t2) as (Hstop & Hq & Hh); [| |done|].
    { intros i h Hi Hat. simpl.
      assert (h ≠ a) by (intros ->; by apply (Hnot i)).
      rewrite lookup_insert_ne by done. apply (Hagree i); [lia | done]. }
    { intros h. simpl. destruct (decide (h = a)) as [->|Hne].
      - by rewrite lookup_insert_eq, Hs1.
      - rewrite lookup_insert_ne by done. apply Harb. }
    split_and!; [done | |].
    + eapply log_quiet_trans; [|exact Hq]. apply log_quiet_locked.
    + intros h. destruct (decide (h = a)) as [->|Hne].
      * right. exists idx, a0, a1, a9. rewrite Hpair.
        split_and!; try done; try lia.
        destruct (Hh a) as [[Ha _] | (i & hs & m & l' & _ & _ & Hl & Hz & _)].
        -- rewrite Ha. apply lookup_insert_eq.
        -- simpl in Hl. rewrite lookup_insert_eq in Hl. simplify_eq. simpl in Hz.
           rewrite Hif1 in Hz. done.
      * destruct (Hh h) as [[Ha Hb] | (i & hs & m & l' & Hi & Hat & Hl & Hrest)].
        -- left. simpl in Ha, Hb. rewrite !lookup_insert_ne in * by done. done.
        -- right. simpl in Hl. rewrite lookup_insert_ne in Hl by done.
           exists i, hs, m, l'. split; [lia|]. split; [done|]. split; [done|].
           exact Hrest.
Qed.

End promotion.
(** ** The relations are respected by every update of the code *)

Global Instance arbiter_kept_preorder : PreOrder arbiter_kept.
Proof. split; [by intros a | intros a b c; unfold arbiter_kept; congruence]. Qed.

Global Instance single_reference_preorder : PreOrder single_reference.
Proof.
  split.
  - intros a. split; [done | by left].
  - intros a b c [Ha Hr] [Ha' Hr']. split; [congruence|].
    destruct Hr as [Hr|[Hr1 Hr2]], Hr' as [Hr'|[Hr1' Hr2']].
    + left. congruence.
    + right. rewrite <- Hr. done.
    + right. rewrite Hr'. done.
    + by right.
Qed.

Global Instance req_list_kept_exact_preorder : PreOrder req_list_kept_exact.
Proof. split; [by intros a ? | intros a b c; unfold req_list_kept_exact; auto]. Qed.

Global Instance any_update_preorder : PreOrder any_update.
Proof. by split. Qed.

Global Instance counters_kept_preorder : PreOrder counters_kept.
Proof.
  split; [by intros a | intros a b c [? ?] [? ?]; split; congruence].
Qed.

Global Instance reference_dropped_preorder : PreOrder reference_dropped.
Proof.
  split.
  - intros a. split; [done | by left].
  - intros a b c [Hb Hr] [Hb' Hr']. split; [congruence|].
    destruct Hr as [Hr|Hr], Hr' as [Hr'|Hr']; [left; congruence | right; lia..].
Qed.

Global Instance attempted_dec jobs j i h : Decision (attempted jobs j i h).
Proof. unfold attempted. apply _. Defined.

Lemma attempted_in_range jobs j lo hi h :
  (∃ i, (lo ≤ i < hi)%nat ∧ attempted jobs j i h) ∨
  (∀ i, (lo ≤ i < hi)%nat → ¬ attempted jobs j i h).
Proof.
  induction hi as [|hi IH].
  - right. intros i Hi. lia.
  - destruct IH as [(i & Hi & Hat) | Hno].
    + left. exists i. split; [lia | done].
    + destruct (decide (attempted jobs j hi h ∧ (lo ≤ hi)%nat)) as [[Hat Hle] | Hn].
      * left. exists hi. split; [lia | done].
      * right. intros i Hi Hat. destruct (decide (i = hi)) as [->|Hne].
        -- apply Hn. split; [done | lia].
        -- apply (Hno i); [lia | done].
Qed.

Global Instance pushed_front_preorder j : PreOrder (pushed_front j).
Proof.
  split.
  - intros a. by exists [].
  - intros a b c (n1 & H1 & F1) (n2 & H2 & F2). exists (n2 ++ n1). split.
    + by rewrite H2, H1, app_assoc.
    + by apply Forall_app.
Qed.

Global Instance list_kept_preorder : PreOrder list_kept.
Proof.
  split; [by intros a | intros a b c [? ?] [? ?]; split; congruence].
Qed.

Lemma set_req_list_exact l hs : req_list_exact (set_req_list l hs).
Proof. unfold req_list_exact, requesters. by destruct l. Qed.

Lemma record_requester_exact r bump hs : req_list_exact (record_requester r bump hs).
Proof.
  unfold req_list_exact, requesters. simpl.
  by destruct (arbitered_req_list hs).
Qed.

Section instances.

Variable jobs : gmap positive (list (positive * Z)).

Lemma submit_arbiter_kept j buf nbuffers s v s' :
  _starpu_submit_job_enforce_arbitered_deps jobs j buf nbuffers s = Ret v s' →
  call_ok arbiter_kept s s'.
Proof. by apply submit_fuel_ok; try apply _. Qed.

Lemma notify_arbiter_kept handle s v s' :
  _starpu_notify_arbitered_dependencies jobs handle s = Ret v s' →
  call_ok arbiter_kept s s'.
Proof. by apply notify_ok; try apply _. Qed.

Lemma single_reference_take hs mode :
  refcnt hs = 0 → single_reference hs (submit_take mode hs).
Proof. intros Hz. split; [done|]. right. simpl. rewrite Hz. auto. Qed.

Lemma single_reference_notify_take hs mode :
  refcnt hs = 0 → single_reference hs (notify_take mode hs).
Proof. intros Hz. split; [done|]. right. simpl. rewrite Hz. auto. Qed.

Lemma single_reference_drop hs :
  refcnt hs = 1 → single_reference hs (drop_reference hs).
Proof. intros Hz. split; [done|]. right. simpl. rewrite Hz. auto. Qed.

Lemma submit_single_reference j buf nbuffers s v s' :
  _starpu_submit_job_enforce_arbitered_deps jobs j buf nbuffers s = Ret v s' →
  call_ok single_reference s s'.
Proof.
  apply submit_fuel_ok; try apply _;
    auto using single_reference_take, single_reference_drop.
  intros. split; [done | by left].
Qed.

Lemma notify_single_reference handle s v s' :
  _starpu_notify_arbitered_dependencies jobs handle s = Ret v s' →
  call_ok single_reference s s'.
Proof.
  apply notify_ok; try apply _;
    auto using single_reference_take, single_reference_drop,
      single_reference_notify_take.
  - intros. split; [done | by left].
  - intros. split; [done | by left].
Qed.

Lemma submit_req_lists j buf nbuffers s v s' :
  _starpu_submit_job_enforce_arbitered_deps jobs j buf nbuffers s = Ret v s' →
  call_ok req_list_kept_exact s s'.
Proof.
  apply submit_fuel_ok; try apply _.
  - by intros hs mode _ ?.
  - by intros hs _ ?.
  - intros hs r bump _. apply record_requester_exact.
Qed.

Lemma notify_req_lists handle s v s' :
  _starpu_notify_arbitered_dependencies jobs handle s = Ret v s' →
  call_ok req_list_kept_exact s s'.
Proof.
  apply notify_ok; try apply _.
  - by intros hs mode _ ?.
  - by intros hs _ ?.
  - intros hs r bump _. apply record_requester_exact.
  - by intros hs mode _ ?.
  - intros hs req_list j l _ _ _ _ _. apply set_req_list_exact.
Qed.

Lemma submit_log j buf nbuffers s v s' :
  _starpu_submit_job_enforce_arbitered_deps jobs j buf nbuffers s = Ret v s' →
  log_call s s'.
Proof.
  intros H. by eapply (submit_fuel_ok jobs any_update) in H as [_ H].
Qed.

Lemma notify_log handle s v s' :
  _starpu_notify_arbitered_dependencies jobs handle s = Ret v s' →
  log_call s s'.
Proof.
  intros H. by eapply (notify_ok jobs any_update) in H as [_ H].
Qed.

End instances.

(** A header of the store on return comes from a header of the store on
    entry. *)
Lemma heap_rel_lookup R s s' h hs' :
  heap_rel R s s' → heap s' !! h = Some hs' →
  ∃ hs, heap s !! h = Some hs ∧ R hs hs'.
Proof.
  intros Hrel Hl. specialize (Hrel h). rewrite Hl in Hrel.
  inversion Hrel; simplify_eq. eauto.
Qed.

Lemma heap_rel_lookup_l R s s' h hs :
  heap_rel R s s' → heap s !! h = Some hs →
  ∃ hs', heap s' !! h = Some hs' ∧ R hs hs'.
Proof.
  intros Hrel Hl. specialize (Hrel h). rewrite Hl in Hrel.
  inversion Hrel; simplify_eq. eauto.
Qed.
(** ** What the scan of notify pushes *)

Lemma requesters_set_req_list l hs : requesters (set_req_list l hs) = l.
Proof. unfold requesters. by destruct l. Qed.

Section scan.

Variable jobs : gmap positive (list (positive * Z)).

Lemma submit_take_loop_quiet arb j n idx s r s' :
  submit_take_loop jobs arb j n idx s = Ret r s' → log_quiet s s'.
Proof. intros H. by eapply (submit_take_loop_ok jobs any_update) in H as [_ H]. Qed.

Lemma cancel_loop_quiet arb j n idx s u s' :
  cancel_loop jobs arb j n idx s = Ret u s' → log_quiet s s'.
Proof. intros H. by eapply (cancel_loop_ok jobs any_update) in H as [_ H]. Qed.

Lemma record_loop_quiet arb j ia n idx s u s' :
  record_loop jobs arb j ia n idx s = Ret u s' → log_quiet s s'.
Proof. intros H. by eapply (record_loop_ok jobs any_update) in H as [_ H]. Qed.

Lemma notify_take_loop_quiet arb j n idx s r s' :
  notify_take_loop jobs arb j n idx s = Ret r s' → log_quiet s s'.
Proof. intros H. by eapply (notify_take_loop_ok jobs any_update) in H as [_ H]. Qed.

Lemma remove_loop_quiet arb j n idx s r s' :
  remove_loop jobs arb j n idx s = Ret r s' → log_quiet s s'.
Proof. intros H. by eapply (remove_loop_ok jobs any_update) in H as [_ H]. Qed.

(** A submission pushes its job when it returns 0, and nothing when it
    returns 1. *)
Lemma submit_fuel_pushes fuel j buf nbuffers s v s' :
  submit_fuel jobs fuel j buf nbuffers s = Ret v s' →
  (v = 1 ∧ pushes (log s') = pushes (log s)) ∨
  (v = 0 ∧ pushes (log s') = j :: pushes (log s)).
Proof.
  revert buf s. induction fuel as [|fuel IH]; intros buf s H; simpl in H; [done|].
  inv_run H.
  - apply submit_take_loop_quiet in Hrun2 as (_ & Hp & _). simpl in Hp.
    apply IH in H. simpl in H. by rewrite Hp in H.
  - apply submit_take_loop_quiet in Hrun2 as (_ & Hp & _). simpl in *.
    right. by rewrite Hp.
  - apply submit_take_loop_quiet in Hrun2 as (_ & Hp & _).
    apply cancel_loop_quiet in Hrun3 as (_ & Hp' & _).
    apply record_loop_quiet in Hrun4 as (_ & Hp'' & _). simpl in *.
    left. split; [done | congruence].
Qed.

End scan.
(** ** The order of the two counters *)

Section order.

Variable jobs : gmap positive (list (positive * Z)).

Lemma submit_take_loop_ordered arb j n idx s r s' :
  all_counters_ordered s → headroom 1 s →
  submit_take_loop jobs arb j n idx s = Ret r s' →
  all_counters_ordered s'.
Proof.
  intros Hord Hroom H. destruct r as [stop ok].
  destruct (submit_take_loop_inv _ _ _ _ _ _ _ _ _ H) as (Htaken & Hframe & _).
  intros h hs' Hl.
  destruct (attempted_in_range jobs j idx stop h) as [(i & Hi & Hat) | Hno].
  - destruct (Htaken i h Hi Hat) as (hs & m & Hl0 & _ & _ & Hz & Hl1).
    rewrite Hl1 in Hl. simplify_eq. unfold counters_ordered. simpl.
    destruct (Hroom h hs Hl0) as [Hb Hb']. rewrite Hz.
    rewrite (u32_small (busy_count hs + 1)) by lia. rewrite u32_one. lia.
  - rewrite (Hframe h Hno) in Hl. by eapply (Hord h).
Qed.

Lemma notify_take_loop_ordered arb j n idx s r s' :
  all_counters_ordered s → counted_on_buffers jobs j idx n s →
  notify_take_loop jobs arb j n idx s = Ret r s' →
  all_counters_ordered s'.
Proof.
  intros Hord Hcount H. destruct r as [stop ok].
  pose proof (notify_take_loop_range _ _ _ _ _ _ _ _ _ H) as Hrange.
  destruct (notify_take_loop_inv _ _ _ _ _ _ _ _ _ H) as (Htaken & Hframe & _).
  intros h hs' Hl.
  destruct (attempted_in_range jobs j idx stop h) as [(i & Hi & Hat) | Hno].
  - destruct (Htaken i h Hi Hat) as (hs & m & Hl0 & _ & _ & Hz & Hl1).
    rewrite Hl1 in Hl. simplify_eq. unfold counters_ordered. simpl.
    rewrite Hz, u32_one. destruct Hat as [Hh _].
    apply (Hcount i h hs); [lia | done..].
  - rewrite (Hframe h Hno) in Hl. by eapply (Hord h).
Qed.

Lemma cancel_loop_ordered arb j n idx s u s' :
  all_counters_ordered s →
  cancel_loop jobs arb j n idx s = Ret u s' →
  all_counters_ordered s' ∧ ∀ k, headroom k s → headroom k s'.
Proof.
  intros Hord H.
  eapply (cancel_loop_ok jobs reference_dropped) in H as [Hrel _].
  2:{ intros hs Hz. split; [done|]. right. simpl. rewrite Hz.
      change (u32 (1 - 1)) with 0. lia. }
  split.
  - intros h hs' Hl.
    destruct (heap_rel_lookup _ _ _ _ _ Hrel Hl) as (hs & Hl0 & Hb & Hr).
    pose proof (Hord h hs Hl0) as Ho. unfold counters_ordered in *.
    destruct Hr as [Hr|Hr]; lia.
  - intros k Hroom h hs' Hl.
    destruct (heap_rel_lookup _ _ _ _ _ Hrel Hl) as (hs & Hl0 & Hb & Hr).
    rewrite Hb. by apply (Hroom h).
Qed.

Lemma remove_loop_ordered arb j n idx s r s' :
  all_counters_ordered s →
  remove_loop jobs arb j n idx s = Ret r s' →
  all_counters_ordered s'.
Proof.
  intros Hord H.
  eapply (remove_loop_ok jobs counters_kept) in H as [Hrel _]; [|done].
  intros h hs' Hl.
  destruct (heap_rel_lookup _ _ _ _ _ Hrel Hl) as (hs & Hl0 & Hr & Hb).
  pose proof (Hord h hs Hl0) as Ho. unfold counters_ordered in *. lia.
Qed.

Lemma headroom_weaken k k' s : (k' ≤ k)%nat → headroom k s → headroom k' s.
Proof. intros Hle Hroom h hs Hl. destruct (Hroom h hs Hl). lia. Qed.

Lemma record_loop_ordered_from arb j ia n idx s u s' :
  all_counters_ordered s → headroom (n - (ia - idx)) s →
  record_loop jobs arb j ia n idx s = Ret u s' →
  all_counters_ordered s'.
Proof.
  revert idx s. induction n as [|n IH]; intros idx s Hord Hroom H;
    simpl in H; inv_run H; try done.
  eapply IH; [| |exact H].
  - intros h hs' Hl. simpl in Hl. destruct (decide (h = a)) as [->|Hne].
    + rewrite lookup_insert_eq in Hl. simplify_eq.
      pose proof (Hord a a1 Hrun1) as Ho. destruct (Hroom a a1 Hrun1) as [Hb Hb'].
      unfold counters_ordered in *. simpl.
      case_bool_decide; [|done].
      rewrite u32_small; lia.
    + rewrite lookup_insert_ne in Hl by done. by apply (Hord h).
  - intros h hs' Hl. simpl in Hl. destruct (decide (h = a)) as [->|Hne].
    + rewrite lookup_insert_eq in Hl. simplify_eq.
      destruct (Hroom a a1 Hrun1) as [Hb Hb']. simpl.
      case_bool_decide; [rewrite u32_small|]; lia.
    + rewrite lookup_insert_ne in Hl by done.
      destruct (Hroom h hs' Hl). lia.
Qed.

Lemma record_loop_ordered arb j ia n idx s u s' :
  all_counters_ordered s → headroom n s →
  record_loop jobs arb j ia n idx s = Ret u s' →
  all_counters_ordered s'.
Proof.
  intros Hord Hroom. apply record_loop_ordered_from; [done|].
  eapply headroom_weaken; [|done]. lia.
Qed.

Lemma submit_take_loop_headroom arb j n idx s r s' k :
  all_counters_ordered s → headroom (S k) s →
  submit_take_loop jobs arb j n idx s = Ret r s' →
  headroom k s'.
Proof.
  intros Hord Hroom H. destruct r as [stop ok].
  destruct (submit_take_loop_inv _ _ _ _ _ _ _ _ _ H) as (Htaken & Hframe & _).
  intros h hs' Hl.
  destruct (attempted_in_range jobs j idx stop h) as [(i & Hi & Hat) | Hno].
  - destruct (Htaken i h Hi Hat) as (hs & m & Hl0 & _ & _ & Hz & Hl1).
    rewrite Hl1 in Hl. simplify_eq. simpl.
    destruct (Hroom h hs Hl0) as [Hb Hb'].
    rewrite (u32_small (busy_count hs + 1)) by lia. lia.
  - rewrite (Hframe h Hno) in Hl. destruct (Hroom h hs' Hl). lia.
Qed.

(** A whole submission, with room for one increment per buffer. *)
Lemma submit_fuel_ordered fuel j buf nbuffers s v s' :
  all_counters_ordered s → headroom (nbuffers - buf) s →
  submit_fuel jobs fuel j buf nbuffers s = Ret v s' →
  all_counters_ordered s'.
Proof.
  revert buf s. induction fuel as [|fuel IH]; intros buf s Hord Hroom H;
    simpl in H; [done|].
  apply bind_inv in H as (h0 & s0 & Hh0 & H). inv_run Hh0.
  apply bind_inv in H as (hs0 & s0 & Hl0 & H). inv_run Hl0.
  apply bind_inv in H as (arb & s0 & Harb & H). inv_run Harb.
  apply bind_inv in H as (u & s0 & Hlock & H). inv_run Hlock.
  apply bind_inv in H as ([stop ok] & s1 & Htake & H).
  pose proof (submit_take_loop_range _ _ _ _ _ _ _ _ _ Htake) as Hrange.
  set (s0 := {| heap := heap s; log := Lock (arbiter_mutex arb) :: log s |}) in *.
  assert (Hord0 : all_counters_ordered s0) by done.
  assert (all_counters_ordered s1 ∧ headroom (nbuffers - stop) s1) as [Hord1 Hroom1].
  { destruct (nbuffers - buf)%nat as [|k] eqn:Hk.
    - simpl in Htake. inv_run Htake. split; [done|].
      eapply headroom_weaken; [|exact Hroom]. lia.
    - split.
      + eapply submit_take_loop_ordered; [exact Hord0 | | exact Htake].
        eapply headroom_weaken; [|exact Hroom]. lia.
      + destruct (decide (stop = buf)) as [->|Hne].
        * destruct (submit_take_loop_inv _ _ _ _ _ _ _ _ _ Htake) as (_ & Hframe & _).
          intros h hs Hl. rewrite Hframe in Hl by (intros; lia).
          destruct (Hroom h hs Hl). lia.
        * eapply headroom_weaken; [|eapply submit_take_loop_headroom;
            [exact Hord0 | exact Hroom | exact Htake]]. lia. }
  destruct ok.
  - inv_run H; [|done].
    eapply IH; [| |exact H]; done.
  - apply bind_inv in H as (u1 & s2 & Hcancel & H).
    apply cancel_loop_ordered in Hcancel as [Hord2 Hroom2]; [|done].
    apply bind_inv in H as (u2 & s3 & Hrecord & H). inv_run H.
    change (all_counters_ordered s3).
    eapply record_loop_ordered_from; [exact Hord2 | | exact Hrecord].
    apply Hroom2. eapply headroom_weaken; [|exact Hroom1]. lia.
Qed.

Lemma same_but_mode_ordered s s2 :
  heap_rel same_but_mode s s2 → all_counters_ordered s → all_counters_ordered s2.
Proof.
  intros Hrel Hord h hs2 Hl.
  destruct (heap_rel_lookup _ _ _ _ _ Hrel Hl) as (hs & Hl0 & Hr & Hb & _).
  pose proof (Hord h hs Hl0) as Ho. unfold counters_ordered in *. lia.
Qed.

Lemma same_but_mode_headroom k s s2 :
  heap_rel same_but_mode s s2 → headroom k s → headroom k s2.
Proof.
  intros Hrel Hroom h hs2 Hl.
  destruct (heap_rel_lookup _ _ _ _ _ Hrel Hl) as (hs & Hl0 & Hr & Hb & _).
  rewrite Hb. by apply (Hroom h).
Qed.

(** A whole scan: a promotion has asserted [busy_count >= 1] on the handles
    it took, a failed attempt was rolled back. *)
Lemma notify_scan_ordered arb rs s v s' N :
  (∀ j bufs, jobs !! j = Some bufs → (length bufs ≤ N)%nat) →
  all_counters_ordered s → headroom N s →
  notify_scan jobs arb rs s = Ret v s' →
  all_counters_ordered s'.
Proof.
  intros Hjobs. revert s. induction rs as [|r rs IH]; intros s Hord Hroom H;
    simpl in H.
  { inv_run H. done. }
  apply bind_inv in H as (nbuffers & s0 & Hn & H).
  apply deref_inv in Hn as [Hn ->].
  apply bind_inv in H as (pos & s0 & Hpos & H).
  pose proof (find_arbiter_buffers_same _ _ _ _ _ _ _ _ Hpos) as ->.
  apply bind_inv in H as ([stop ok] & s1 & Htake & H).
  destruct ok.
  - apply bind_inv in H as (stop' & s2 & Hremove & H).
    destruct (notify_take_remove _ _ _ _ _ _ _ _ Htake s1 stop' s2)
      as (-> & _ & Hh); [done..|].
    assert (all_counters_ordered s2 ∧ headroom N s2) as [Hord2 Hroom2].
    { split; intros h hs2 Hl;
        (destruct (Hh h) as [[Ha Hb] | (i & hs & m & l & _ & _ & Hl0 & Hz & Hb & _ & _ & Hl2)];
         [rewrite Ha, Hb in Hl | rewrite Hl2 in Hl; simplify_eq]).
      - by apply (Hord h).
      - unfold counters_ordered. simpl. by rewrite Hz, u32_one.
      - by apply (Hroom h).
      - simpl. by apply (Hroom h hs). }
    inv_run H; [|done].
    eapply submit_fuel_ordered; [| |exact Hrun0]; [done|].
    eapply headroom_weaken; [|exact Hroom2].
    destruct (jobs !! req_j r) as [bufs|] eqn:Hj; simplify_eq/=.
    pose proof (Hjobs _ _ Hj). lia.
  - destruct (notify_rollback _ _ _ _ _ _ _ _ _ Htake) as (s2 & Hc & Hrel & _).
    apply bind_inv in H as (u & s2' & Hc' & H). destruct u.
    rewrite Hc in Hc'. simplify_eq.
    eapply IH; [| |exact H].
    + by eapply same_but_mode_ordered.
    + by eapply same_but_mode_headroom.
Qed.

Lemma notify_ordered handle s v s' N :
  (∀ j bufs, jobs !! j = Some bufs → (length bufs ≤ N)%nat) →
  all_counters_ordered s → headroom N s →
  _starpu_notify_arbitered_dependencies jobs handle s = Ret v s' →
  all_counters_ordered s'.
Proof.
  intros Hjobs Hord Hroom H. unfold _starpu_notify_arbitered_dependencies in H.
  apply bind_inv in H as (hs & s0 & Hl & H). inv_run Hl.
  apply bind_inv in H as (arb & s0 & Harb & H). inv_run Harb.
  apply bind_inv in H as (u & s0 & Hlock & H). inv_run Hlock.
  destruct (arbitered_req_list hs) as [rs|].
  - exact (notify_scan_ordered arb rs {| heap := heap s; log := _ |} v s' N
             Hjobs Hord Hroom H).
  - inv_run H. done.
Qed.
End order.
(** ** Where a parked job is recorded *)

Lemma requesters_record r bump hs :
  requesters (record_requester r bump hs) = r :: requesters hs.
Proof. unfold requesters. simpl. by destruct (arbitered_req_list hs). Qed.

Section front.

Variable jobs : gmap positive (list (positive * Z)).

Lemma record_loop_front arb j ia n idx s u s' :
  record_loop jobs arb j ia n idx s = Ret u s' → heap_rel (pushed_front j) s s'.
Proof.
  revert idx s. induction n as [|n IH]; intros idx s H; simpl in H; inv_run H;
    try apply (heap_rel_refl (pushed_front j)).
  eapply (heap_rel_trans (pushed_front j)); [|by eapply IH].
  eapply (heap_rel_store (pushed_front j)); [done|].
  eexists [_]. rewrite requesters_record. split; [done|].
  by repeat constructor.
Qed.

Lemma pushed_front_same j a b :
  arbitered_req_list b = arbitered_req_list a → pushed_front j a b.
Proof. intros Heq. exists []. unfold requesters. by rewrite Heq. Qed.

Lemma submit_fuel_front fuel j buf nbuffers s v s' :
  submit_fuel jobs fuel j buf nbuffers s = Ret v s' →
  heap_rel (pushed_front j) s s'.
Proof.
  revert buf s. induction fuel as [|fuel IH]; intros buf s H; simpl in H; [done|].
  inv_run H.
  - eapply (submit_take_loop_ok jobs (pushed_front j)) in Hrun2 as [Hrel _];
      [|intros; by apply pushed_front_same].
    eapply (heap_rel_trans (pushed_front j)); [exact Hrel|]. by eapply IH in H.
  - by eapply (submit_take_loop_ok jobs (pushed_front j)) in Hrun2 as [Hrel _];
      [|intros; by apply pushed_front_same].
  - eapply (submit_take_loop_ok jobs (pushed_front j)) in Hrun2 as [Hrel _];
      [|intros; by apply pushed_front_same].
    eapply (cancel_loop_ok jobs (pushed_front j)) in Hrun3 as [Hrel' _];
      [|intros; by apply pushed_front_same].
    apply record_loop_front in Hrun4.
    eapply (heap_rel_trans (pushed_front j)); [exact Hrel|].
    eapply (heap_rel_trans (pushed_front j)); [exact Hrel'|]. exact Hrun4.
Qed.
End front.

Section parks.

Variable jobs : gmap positive (list (positive * Z)).

Lemma submit_take_loop_list_kept arb j n idx s r s' :
  submit_take_loop jobs arb j n idx s = Ret r s' → heap_rel list_kept s s'.
Proof. intros H. by eapply (submit_take_loop_ok jobs list_kept) in H as [H _]. Qed.

Lemma cancel_loop_list_kept arb j n idx s u s' :
  cancel_loop jobs arb j n idx s = Ret u s' → heap_rel list_kept s s'.
Proof. intros H. by eapply (cancel_loop_ok jobs list_kept) in H as [H _]. Qed.

(** A submission that parks its job has recorded it on the first handle of
    the group whose pass failed, in front of what was there. *)
Lemma submit_fuel_parks fuel j buf nbuffers s s' :
  submit_fuel jobs fuel j buf nbuffers s = Ret 1 s' →
  ∃ i h hs hs' new m,
    (buf ≤ i)%nat ∧ job_handle jobs j i = Some h ∧
    heap s !! h = Some hs ∧ heap s' !! h = Some hs' ∧
    requesters hs' = new ++ job_requester j i m :: requesters hs ∧
    Forall (λ r, req_j r = j) new.
Proof.
  revert buf s. induction fuel as [|fuel IH]; intros buf s H; simpl in H; [done|].
  apply bind_inv in H as (h0 & s0 & Hh0 & H). inv_run Hh0.
  apply bind_inv in H as (hs0 & s0 & Hl0 & H). inv_run Hl0.
  apply bind_inv in H as (arb & s0 & Harb & H). inv_run Harb.
  apply bind_inv in H as (u & s0 & Hlock & H). inv_run Hlock.
  apply bind_inv in H as ([stop ok] & s1 & Htake & H).
  pose proof (submit_take_loop_range _ _ _ _ _ _ _ _ _ Htake) as Hrange.
  pose proof (submit_take_loop_list_kept _ _ _ _ _ _ _ Htake) as Hkept.
  destruct ok.
  - inv_run H.
    destruct (IH _ _ H) as (i & h & hs2 & hs' & new & m & Hi & Hh & Hl2 & Hl' & Hreq & Hall).
    simpl in Hl2.
    destruct (heap_rel_lookup _ _ _ _ _ Hkept Hl2) as (hs & Hl & Hlist & _).
    simpl in Hl. exists i, h, hs, hs', new, m.
    split_and!; try done; [lia|].
    rewrite Hreq. unfold requesters. by rewrite Hlist.
  - destruct (submit_take_loop_inv _ _ _ _ _ _ _ _ _ Htake) as (_ & _ & Hfail & _).
    destruct (Hfail eq_refl) as [Hlt _].
    apply bind_inv in H as (u1 & s2 & Hcancel & H).
    pose proof (cancel_loop_list_kept _ _ _ _ _ _ _ Hcancel) as Hkept'.
    apply bind_inv in H as (u2 & s3 & Hrecord & H). inv_run H.
    destruct (heap_rel_lookup_l _ _ _ _ _ Hkept Hl0) as (hs1 & Hl1 & Hlist1 & Harb1).
    destruct (heap_rel_lookup_l _ _ _ _ _ Hkept' Hl1) as (hs2 & Hl2 & Hlist2 & Harb2).
    clear Htake Hfail.
    destruct (nbuffers - buf)%nat as [|k] eqn:Hk; [lia|].
    simpl in Hrecord. inv_run Hrecord; norm_tests.
    { congruence. }
    apply record_loop_front in Hrecord.
    destruct (heap_rel_lookup_l _ _ _ h0 _ Hrecord (lookup_insert_eq _ _ _))
      as (hs3 & Hl3 & new & Hreq & Hall).
    exists buf, h0, hs0, hs3, new, a0. split_and!; try done.
    rewrite Hreq, requesters_record. unfold requesters.
    by rewrite Hlist2, Hlist1.
Qed.

(** The scan runs the fast-takes of the head of the list first, and stops
    there when they succeed. *)
Lemma notify_scan_first arb r next s v s' :
  notify_scan jobs arb (r :: next) s = Ret v s' →
  ∃ nbuffers pos stop ok s1,
    length <$> jobs !! req_j r = Some nbuffers ∧
    find_arbiter_buffers jobs arb (req_j r) nbuffers 0 s = Ret pos s ∧
    notify_take_loop jobs arb (req_j r) (nbuffers - pos) pos s = Ret (stop, ok) s1 ∧
    (ok = true →
     v = 0 ∧ (pushes (log s') = pushes (log s) ∨
              pushes (log s') = req_j r :: pushes (log s))).
Proof.
  intros H. simpl in H. apply bind_inv in H as (nbuffers & s0 & Hn & H).
  apply deref_inv in Hn as [Hn ->].
  apply bind_inv in H as (pos & s0 & Hpos & H).
  pose proof (find_arbiter_buffers_same _ _ _ _ _ _ _ _ Hpos) as ->.
  apply bind_inv in H as ([stop ok] & s1 & Htake & H).
  exists nbuffers, pos, stop, ok, s1. split_and!; [done..|].
  intros ->.
  apply notify_take_loop_quiet in Htake as (_ & Hp & _).
  apply bind_inv in H as (stop' & s2 & Hremove & H).
  apply remove_loop_quiet in Hremove as (_ & Hp' & _).
  inv_run H.
  - apply submit_fuel_pushes in Hrun0. simpl in Hrun0. split; [done|].
    destruct Hrun0 as [[_ Hs] | [_ Hs]]; [left | right]; congruence.
  - split; [done|]. right. simpl. congruence.
Qed.
End parks.
(** ** One step of the scan of notify *)

Section scan_step.

Variable jobs : gmap positive (list (positive * Z)).

Lemma notify_scan_unfold arb r next s v s' :
  notify_scan jobs arb (r :: next) s = Ret v s' →
  ∃ nbuffers pos stop ok s1,
    length <$> jobs !! req_j r = Some nbuffers ∧
    find_arbiter_buffers jobs arb (req_j r) nbuffers 0 s = Ret pos s ∧
    notify_take_loop jobs arb (req_j r) (nbuffers - pos) pos s = Ret (stop, ok) s1 ∧
    if ok then
      v = 0 ∧ promotion jobs arb (req_j r) nbuffers pos stop s s1 s'
    else
      ∃ s2,
        cancel_loop jobs arb (req_j r) (stop - pos) pos s1 = Ret () s2 ∧
        heap_rel same_but_mode s s2 ∧
        notify_scan jobs arb next s2 = Ret v s'.
Proof.
  intros H.
  simpl in H. apply bind_inv in H as (nbuffers & s0 & Hn & H).
  apply deref_inv in Hn as [Hn ->].
  apply bind_inv in H as (pos & s0 & Hpos & H).
  pose proof (find_arbiter_buffers_same _ _ _ _ _ _ _ _ Hpos) as ->.
  apply bind_inv in H as ([stop ok] & s1 & Htake & H).
  exists nbuffers, pos, stop, ok, s1. split_and!; [done..|].
  unfold promotion. destruct ok.
  - (* the fast-takes succeeded: the requester is promoted *)
    apply bind_inv in H as (stop' & s2 & Hremove & H).
    destruct (notify_take_remove _ _ _ _ _ _ _ _ Htake s1 stop' s2)
      as (-> & _ & Hh); [done..|].
    destruct (notify_take_loop_inv _ _ _ _ _ _ _ _ _ Htake) as (Htaken & _).
    assert (Hprom : ∀ i hs m l h,
      attempted jobs (req_j r) i h →
      heap s !! h = Some hs → refcnt hs = 0 → 1 ≤ busy_count hs →
      arbitered_req_list hs = Some l →
      (remove_job_from_requester_list l (req_j r)).2 = 0 →
      heap s2 !! h = Some (set_req_list (remove_job_from_requester_list l (req_j r)).1
                             (notify_take m hs)) →
      ∃ hs hs2, heap s !! h = Some hs ∧ heap s2 !! h = Some hs2 ∧
                promoted (req_j r) hs hs2).
    { intros i hs m l h Hat Hl Hz Hb Hlist Hrem Hl2.
      eexists _, _. split_and!; [done..|].
      unfold promoted. rewrite requesters_set_req_list. simpl.
      rewrite Hz. split_and!; try done.
      exists l. split; [done|].
      destruct (remove_job_from_requester_list l (req_j r)). simpl in *. by subst. }
    inv_run H.
    + split; [done|]. exists s2. split_and!; [done | | | eauto].
      * intros i h Hi Hat.
        destruct (Htaken i h Hi Hat) as (hs & m & Hl & _ & _ & Hz & Hl1).
        destruct (Hh h) as [[_ Heq] | (i' & hs' & m' & l & _ & _ & Hl' & Hz' & Hb & Hlist & Hrem & Hl2)].
        { rewrite Hl1, Hl in Heq. simplify_eq. apply (f_equal refcnt) in Heq.
          simpl in Heq. rewrite Hz in Heq. done. }
        eauto.
      * intros h Hno.
        destruct (Hh h) as [[-> ->] | (i' & hs' & m' & l & Hi' & Hat' & _)]; [done|].
        by destruct (Hno i' Hi').
    + split; [done|]. exists s2. split_and!; [done | | | done].
      * intros i h Hi Hat.
        destruct (Htaken i h Hi Hat) as (hs & m & Hl & _ & _ & Hz & Hl1).
        destruct (Hh h) as [[_ Heq] | (i' & hs' & m' & l & _ & _ & Hl' & Hz' & Hb & Hlist & Hrem & Hl2)].
        { rewrite Hl1, Hl in Heq. simplify_eq. apply (f_equal refcnt) in Heq.
          simpl in Heq. rewrite Hz in Heq. done. }
        eauto.
      * intros h Hno.
        destruct (Hh h) as [[-> ->] | (i' & hs' & m' & l & Hi' & Hat' & _)]; [done|].
        by destruct (Hno i' Hi').
  - (* a fast-take failed: rolled back, and on to the next requester *)
    destruct (notify_rollback _ _ _ _ _ _ _ _ _ Htake) as (s2 & Hc & Hrel & _).
    apply bind_inv in H as (u & s2' & Hc' & H). destruct u.
    rewrite Hc in Hc'. simplify_eq. eauto.
Qed.


End scan_step.

(** ** The rollback of the submission *)

Section submit_rollback.

Variable jobs : gmap positive (list (positive * Z)).

(** The cancel loop of lines 288-303 run after the try-acquire pass, from
    any store that agrees with the store the pass left on the handles it
    took, returns and drops exactly the references the pass took. *)
Lemma submit_take_cancel arb j n idx s stop ok s1 :
  submit_take_loop jobs arb j n idx s = Ret (stop, ok) s1 →
  ∀ t1,
    (∀ i h, (idx ≤ i < stop)%nat → attempted jobs j i h →
       heap t1 !! h = heap s1 !! h) →
    ∃ t2, cancel_loop jobs arb j (stop - idx) idx t1 = Ret () t2 ∧
      header_locks_only t1 t2 ∧
      ∀ h, (heap t2 !! h = heap t1 !! h ∧ heap s1 !! h = heap s !! h) ∨
           (∃ i hs m, (idx ≤ i < stop)%nat ∧ attempted jobs j i h ∧
              heap s !! h = Some hs ∧ refcnt hs = 0 ∧ arbiter hs = Some arb ∧
              heap t2 !! h = Some (drop_reference (submit_take m hs))).
Proof.
  revert idx s. induction n as [|n IH]; intros idx s H t1 Hagree;
    pose proof (submit_take_loop_range _ _ _ _ _ _ _ _ _ H) as Hrange;
    simpl in H; inv_run H.
  - rewrite Nat.sub_diag.
    exists t1. split_and!; [done | by exists [] ; split; [|constructor] | by left].
  - (* skipped *)
    pose proof (submit_take_loop_range _ _ _ _ _ _ _ _ _ H) as Hrange'.
    replace (stop - idx)%nat with (S (stop - S idx)) by lia. simpl.
    rewrite (bind_Ret _ _ _ _ _ (deref_Some _ _ _ Hrun)).
    rewrite (bind_Ret _ _ _ _ _ (already_requested_run _ _ _ _ _ Hrun)).
    rewrite Hif.
    destruct (IH _ _ H t1) as (t2 & Hc & Hq & Hh).
    { intros i h Hi. apply (Hagree i). lia. }
    exists t2. split_and!; [done..|].
    intros h. destruct (Hh h) as [Hl | (i & hs & m & Hi & Hrest)]; [by left|].
    right. exists i, hs, m. split; [lia | done].
  - rewrite Nat.sub_diag.
    exists t1. split_and!; [done | by exists [] ; split; [|constructor] | by left].
  - (* taken *)
    pose proof (submit_take_loop_range _ _ _ _ _ _ _ _ _ H) as Hrange'.
    apply bool_decide_eq_false in Hif0. apply dec_stable in Hif0.
    apply Z.eqb_eq in Hif1.
    destruct (submit_take_loop_inv _ _ _ _ _ _ _ _ _ H) as (Htaken & Hframe & _).
    simpl in *.
    assert (Hnot : ∀ i, (S idx ≤ i < stop)%nat → ¬ attempted jobs j i a).
    { intros i Hi Hat. destruct (Htaken i a Hi Hat) as (hs & m & Hl & _ & _ & Hz & _).
      rewrite lookup_insert_eq in Hl. simplify_eq. simpl in Hz.
      rewrite Hif1 in Hz. done. }
    assert (Hs1 : heap s1 !! a = Some (submit_take a0 a1)).
    { rewrite (Hframe a Hnot). apply lookup_insert_eq. }
    assert (Ht1 : heap t1 !! a = Some (submit_take a0 a1)).
    { rewrite <- Hs1. apply (Hagree idx); [lia | done]. }
    replace (stop - idx)%nat with (S (stop - S idx)) by lia. simpl.
    rewrite (bind_Ret _ _ _ _ _ (deref_Some _ _ _ Hrun)).
    rewrite (bind_Ret _ _ _ _ _ (already_requested_run _ _ _ _ _ Hrun)).
    rewrite Hif.
    rewrite (bind_Ret _ _ _ _ _ (load_Some _ _ _ Ht1)). simpl.
    rewrite bool_decide_eq_false_2 by (intros Hne; by apply Hne).
    unfold mbind at 1, M_bind at 1. simpl.
    rewrite Hif1. simpl.
    unfold mbind at 1, M_bind at 1. simpl.
    unfold mbind at 1, M_bind at 1. simpl.
    unfold mbind at 1, M_bind at 1. simpl.
    match goal with |- ∃ t2, cancel_loop _ _ _ _ _ ?t = _ ∧ _ => set (t1' := t) end.
    destruct (IH _ _ H t1') as (t2 & Hc & (evs & Hlog & Hevs) & Hh).
    { intros i h Hi Hat. simpl.
      assert (h ≠ a) by (intros ->; by apply (Hnot i)).
      rewrite lookup_insert_ne by done. apply (Hagree i); [lia | done]. }
    exists t2. split_and!; [done | |].
    + exists (evs ++ [Unlock (header_lock a); Lock (header_lock a)]).
      split; [by rewrite Hlog, <- app_assoc|].
      clear -Hevs. induction Hevs; simpl; by repeat constructor.
    + intros h. destruct (decide (h = a)) as [->|Hne].
      * right. exists idx, a1, a0. split_and!; try done; try lia.
        destruct (Hh a) as [[Ha _] | (i & hs & m & _ & _ & Hl & Hz & _)].
        -- rewrite Ha. apply lookup_insert_eq.
        -- simpl in Hl. rewrite lookup_insert_eq in Hl. simplify_eq. simpl in Hz.
           rewrite Hif1 in Hz. done.
      * destruct (Hh h) as [[Ha Hb] | (i & hs & m & Hi & Hat & Hl & Hrest)].
        -- left. simpl in Ha, Hb. rewrite !lookup_insert_ne in * by done. done.
        -- right. simpl in Hl. rewrite lookup_insert_ne in Hl by done.
           exists i, hs, m. split; [lia|]. split; [done|]. split; [done|].
           exact Hrest.
  - rewrite Nat.sub_diag.
    exists t1. split_and!; [done | by exists [] ; split; [|constructor] | by left].
Qed.

End submit_rollback.

(** ** Submissions that return *)

Lemma header_pairs_app evs1 evs2 :
  header_pairs evs1 → header_pairs evs2 → header_pairs (evs1 ++ evs2).
Proof. induction 1; simpl; [done|]. intros. constructor. auto. Qed.

Lemma header_locks_only_refl s : header_locks_only s s.
Proof. exists []. split; [done | constructor]. Qed.

Lemma header_locks_only_trans s1 s2 s3 :
  header_locks_only s1 s2 → header_locks_only s2 s3 → header_locks_only s1 s3.
Proof.
  intros (e1 & H1 & Hp1) (e2 & H2 & Hp2). exists (e2 ++ e1).
  split; [by rewrite H2, H1, app_assoc | by apply header_pairs_app].
Qed.

Lemma header_locks_only_locked s hp h :
  header_locks_only s
    {| heap := hp; log := Unlock (header_lock h) :: Lock (header_lock h) :: log s |}.
Proof.
  exists [Unlock (header_lock h); Lock (header_lock h)].
  split; [done | repeat constructor].
Qed.

Global Instance reference_taken_preorder : PreOrder reference_taken.
Proof.
  split.
  - intros a. by left.
  - intros a b c Hab Hbc. unfold reference_taken in *. lia.
Qed.

Global Instance same_but_mode_preorder : PreOrder same_but_mode.
Proof.
  split.
  - intros a. by repeat split.
  - intros a b c (H1 & H2 & H3 & H4) (H1' & H2' & H3' & H4').
    repeat split; congruence.
Qed.

Lemma buffers_arbitered_allocated jobs j lo hi s :
  buffers_arbitered jobs j lo hi s → buffers_allocated jobs j lo (hi - lo) s.
Proof.
  intros Hb i Hi. destruct (Hb i) as (h & hs & Hh & Hl & _); [lia|]. eauto.
Qed.

Lemma buffers_arbitered_kept jobs j lo hi s s' :
  heap_rel arbiter_kept s s' →
  buffers_arbitered jobs j lo hi s → buffers_arbitered jobs j lo hi s'.
Proof.
  intros Hrel Hb i Hi. destruct (Hb i Hi) as (h & hs & Hh & Hl & Ha).
  destruct (heap_rel_lookup_l _ _ _ _ _ Hrel Hl) as (hs' & Hl' & Hk).
  exists h, hs'. split_and!; [done..|]. unfold arbiter_kept in Hk. congruence.
Qed.

Lemma buffers_arbitered_sub jobs j lo hi lo' hi' s :
  (lo ≤ lo')%nat → (hi' ≤ hi)%nat →
  buffers_arbitered jobs j lo hi s → buffers_arbitered jobs j lo' hi' s.
Proof. intros ? ? Hb i Hi. apply Hb. lia. Qed.

Section returning.

Variable jobs : gmap positive (list (positive * Z)).

Lemma submit_take_loop_arbiter_kept arb j n idx s r s' :
  submit_take_loop jobs arb j n idx s = Ret r s' → heap_rel arbiter_kept s s'.
Proof. intros H. by eapply (submit_take_loop_ok jobs arbiter_kept) in H as [H _]. Qed.

Lemma cancel_loop_arbiter_kept arb j n idx s u s' :
  cancel_loop jobs arb j n idx s = Ret u s' → heap_rel arbiter_kept s s'.
Proof. intros H. by eapply (cancel_loop_ok jobs arbiter_kept) in H as [H _]. Qed.

(** The record loop of lines 305-331 has nothing to fault on when the
    buffers are on allocated handles. *)
Lemma record_loop_returns arb j ia n idx s :
  buffers_allocated jobs j idx n s →
  returns (record_loop jobs arb j ia n idx s).
Proof.
  revert idx s. induction n as [|n IH]; intros idx s Hal; simpl.
  { apply returns_Ret. }
  destruct (Hal idx) as (h & Hh & Hin); [lia|].
  destruct (job_handle_mode jobs j idx h Hh) as [m Hm].
  ret_step by (apply returns_deref; eauto).
  ret_step by (apply returns_deref; eauto).
  ret_step by (by apply returns_load).
  ret_if; [apply returns_Ret|].
  ret_step by (apply returns_Ret).
  ret_step by (apply returns_Ret).
  ret_step by (apply returns_Ret).
  apply IH. eapply buffers_allocated_next; eauto.
  intros h'. simpl. apply is_Some_insert_keep.
Qed.

Lemma submit_fuel_returns fuel j buf nbuffers s :
  (nbuffers - buf < fuel)%nat → (buf < nbuffers)%nat →
  buffers_arbitered jobs j buf nbuffers s →
  returns (submit_fuel jobs fuel j buf nbuffers s).
Proof.
  revert buf s. induction fuel as [|fuel IH]; intros buf s Hfuel Hlt Hb; [lia|].
  simpl.
  destruct (Hb buf) as (h & hs & Hh & Hl & Ha); [lia|].
  destruct (arbiter hs) as [arb|] eqn:Harb; [|done].
  rewrite (bind_Ret _ _ _ _ _ (deref_Some _ _ _ Hh)).
  rewrite (bind_Ret _ _ _ _ _ (load_Some _ _ _ Hl)).
  rewrite (bind_Ret _ _ _ _ _ (deref_Some _ _ _ Harb)).
  unfold mbind at 1, M_bind at 1. simpl.
  set (s0 := {| heap := heap s; log := Lock (arbiter_mutex arb) :: log s |}).
  assert (Hb0 : buffers_arbitered jobs j buf nbuffers s0) by done.
  destruct (submit_take_loop_returns jobs arb j (nbuffers - buf) buf s0)
    as ([stop ok] & s1 & Htake).
  { by apply buffers_arbitered_allocated. }
  rewrite (bind_Ret _ _ _ _ _ Htake).
  pose proof (submit_take_loop_range _ _ _ _ _ _ _ _ _ Htake) as Hrange.
  pose proof (submit_take_loop_arbiter_kept _ _ _ _ _ _ _ Htake) as Hkept.
  pose proof (buffers_arbitered_kept _ _ _ _ _ _ Hkept Hb0) as Hb1.
  destruct ok.
  - unfold mbind at 1, M_bind at 1. simpl.
    case_bool_decide as Hstop.
    + apply IH; [|done|].
      * assert (buf < stop)%nat; [|lia].
        destruct (nbuffers - buf)%nat as [|k] eqn:Hk; [lia|].
        eapply submit_take_loop_progress; eauto.
      * eapply buffers_arbitered_sub; [| |exact Hb1]; lia.
    + unfold mbind at 1, M_bind at 1. simpl. apply returns_Ret.
  - destruct (submit_take_cancel jobs _ _ _ _ _ _ _ _ Htake s1)
      as (s2 & Hcancel & _ & _); [done|].
    rewrite (bind_Ret _ _ _ _ _ Hcancel).
    pose proof (cancel_loop_arbiter_kept _ _ _ _ _ _ _ Hcancel) as Hkept2.
    pose proof (buffers_arbitered_kept _ _ _ _ _ _ Hkept2 Hb1) as Hb2.
    apply returns_bind.
    + apply record_loop_returns. by apply buffers_arbitered_allocated.
    + intros u s3 Hrec. unfold mbind at 1, M_bind at 1. simpl. apply returns_Ret.
Qed.

End returning.

(** ** Submissions that push *)

Ltac name_take :=
  match goal with
  | Ht : submit_take_loop _ _ _ _ _ _ = Ret (?st, _) _ |- _ =>
      rename Ht into Htake; rename st into stop
  end.

Section submit_granted.

Variable jobs : gmap positive (list (positive * Z)).

(** What the try-acquire pass does to a reference count: nothing, or 0 to
    1. *)
Lemma submit_take_loop_reference_taken arb j n idx s r s' :
  submit_take_loop jobs arb j n idx s = Ret r s' → heap_rel reference_taken s s'.
Proof.
  intros H. eapply (submit_take_loop_ok jobs reference_taken) in H as [H _]; [done|].
  intros hs mode Hz. right. split; [done|]. simpl. by rewrite Hz.
Qed.

(** A submission that pushes has only taken references. *)
Lemma submit_fuel_reference_taken fuel j buf nbuffers s s' :
  submit_fuel jobs fuel j buf nbuffers s = Ret 0 s' → heap_rel reference_taken s s'.
Proof.
  revert buf s. induction fuel as [|fuel IH]; intros buf s H; simpl in H; [done|].
  inv_run H; name_take.
  - apply IH in H. apply submit_take_loop_reference_taken in Htake.
    exact (heap_rel_trans reference_taken _ _ _ Htake H).
  - by apply submit_take_loop_reference_taken in Htake.
Qed.

(** After a pass that went through the buffers in [idx, stop), every one
    of them is on a handle that was free and now holds one reference. *)
Lemma submit_take_loop_granted arb j n idx s stop ok s' :
  submit_take_loop jobs arb j n idx s = Ret (stop, ok) s' →
  (∀ h, job_handle jobs j idx = Some h → requested_before jobs j idx h = false) →
  ∀ i h, (idx ≤ i < stop)%nat → job_handle jobs j i = Some h →
    ∃ hs hs', heap s !! h = Some hs ∧ refcnt hs = 0 ∧
              heap s' !! h = Some hs' ∧ refcnt hs' = 1.
Proof.
  intros H Hfirst.
  destruct (submit_take_loop_inv _ _ _ _ _ _ _ _ _ H) as (Htaken & _).
  intros i. induction i as [|i IHi]; intros h Hi Hh.
  - destruct (Htaken 0%nat h Hi) as (hs & m & Hl & _ & _ & Hz & Hl'); [by split|].
    exists hs, (submit_take m hs). split_and!; try done. simpl. by rewrite Hz.
  - destruct (requested_before jobs j (S i) h) eqn:Hreq.
    + simpl in Hreq. apply bool_decide_eq_true in Hreq.
      assert (idx ≠ S i) as Hne.
      { intros ->. specialize (Hfirst h Hh). simpl in Hfirst.
        by apply bool_decide_eq_false in Hfirst. }
      apply IHi; [lia | done].
    + destruct (Htaken (S i) h Hi) as (hs & m & Hl & _ & _ & Hz & Hl'); [by split|].
      exists hs, (submit_take m hs). split_and!; try done. simpl. by rewrite Hz.
Qed.

Lemma submit_fuel_granted fuel j buf nbuffers s s' :
  submit_fuel jobs fuel j buf nbuffers s = Ret 0 s' →
  (∀ h, job_handle jobs j buf = Some h → requested_before jobs j buf h = false) →
  ∀ i h, (buf ≤ i < nbuffers)%nat → job_handle jobs j i = Some h →
    ∃ hs hs', heap s !! h = Some hs ∧ refcnt hs = 0 ∧
              heap s' !! h = Some hs' ∧ refcnt hs' = 1.
Proof.
  revert buf s. induction fuel as [|fuel IH]; intros buf s H Hfirst i h Hi Hh;
    [done|].
  simpl in H. inv_run H; name_take.
  - (* another group follows *)
    pose proof (submit_take_loop_range _ _ _ _ _ _ _ _ _ Htake) as Hrange.
    pose proof (submit_take_loop_reference_taken _ _ _ _ _ _ _ Htake) as Hrel1.
    pose proof (submit_fuel_reference_taken _ _ _ _ _ _ H) as Hrel2.
    destruct (decide (i < stop)%nat) as [Hlt|Hge].
    + destruct (submit_take_loop_granted _ _ _ _ _ _ _ _ Htake Hfirst i h)
        as (hs & hs1 & Hl & Hz & Hl1 & Hone); [lia | done |].
      destruct (heap_rel_lookup_l _ _ _ _ _ Hrel2 Hl1) as (hs' & Hl' & Hk).
      exists hs, hs'. split_and!; try done. unfold reference_taken in Hk. lia.
    + destruct (submit_take_loop_inv _ _ _ _ _ _ _ _ _ Htake) as (_ & _ & _ & Hsucc).
      destruct (Hsucc eq_refl) as [-> | (h2 & hs2 & [Hh2 Hreq2] & _)]; [lia|].
      destruct (IH _ _ H) with (i := i) (h := h) as (hs1 & hs' & Hl1 & Hz1 & Hl' & Hone);
        [intros; congruence | lia | done |].
      destruct (heap_rel_lookup _ _ _ _ _ Hrel1 Hl1) as (hs & Hl & Hk).
      exists hs, hs'. split_and!; try done. unfold reference_taken in Hk. lia.
  - (* the last group: the job is pushed *)
    pose proof (submit_take_loop_range _ _ _ _ _ _ _ _ _ Htake) as Hrange.
    norm_tests.
    apply (submit_take_loop_granted _ _ _ _ _ _ _ _ Htake Hfirst i h); [lia | done].
Qed.

End submit_granted.

(** ** Submissions on free handles *)

Section submit_free.

Variable jobs : gmap positive (list (positive * Z)).

(** A pass over free handles, none attempted twice, does not fail. *)
Lemma submit_take_loop_free arb j n idx s stop ok s' :
  submit_take_loop jobs arb j n idx s = Ret (stop, ok) s' →
  buffers_free jobs j idx (idx + n) s →
  attempted_once jobs j idx (idx + n) →
  ok = true.
Proof.
  intros H Hfree Honce. destruct ok; [done|]. exfalso.
  pose proof (submit_take_loop_range _ _ _ _ _ _ _ _ _ H) as Hrange.
  destruct (submit_take_loop_inv _ _ _ _ _ _ _ _ _ H) as (_ & Hframe & Hfail & _).
  destruct (Hfail eq_refl) as (Hlt & h & hs & Hat & Hl & _ & Hbusy).
  rewrite Hframe in Hl.
  - apply Hbusy. apply (Hfree stop h hs); [lia | done | done].
  - intros i Hi Hat'. assert (i = stop); [|lia].
    apply (Honce i stop h); [lia | lia | done | done].
Qed.

Lemma submit_fuel_free fuel j buf nbuffers s v s' :
  submit_fuel jobs fuel j buf nbuffers s = Ret v s' →
  buffers_free jobs j buf nbuffers s →
  attempted_once jobs j buf nbuffers →
  v = 0.
Proof.
  revert buf s. induction fuel as [|fuel IH]; intros buf s H Hfree Honce; [done|].
  simpl in H. inv_run H; name_take.
  - pose proof (submit_take_loop_range _ _ _ _ _ _ _ _ _ Htake) as Hrange.
    destruct (submit_take_loop_inv _ _ _ _ _ _ _ _ _ Htake) as (_ & Hframe & _).
    apply (IH _ _ H).
    + intros i h hs Hi Hat Hl. simpl in Hl. rewrite Hframe in Hl.
      * apply (Hfree i h hs); [lia | done | done].
      * intros i' Hi' Hat'. assert (i' = i); [|lia].
        apply (Honce i' i h); [lia | lia | done | done].
    + intros i i' h Hi Hi'. apply Honce; lia.
  - done.
  - exfalso.
    pose proof (submit_take_loop_range _ _ _ _ _ _ _ _ _ Htake) as Hrange.
    assert (false = true); [|done].
    destruct (decide (buf ≤ nbuffers)%nat).
    + eapply submit_take_loop_free; [exact Htake | |].
      * intros i h hs Hi. apply Hfree. lia.
      * intros i i' h Hi Hi'. apply Honce; lia.
    + replace (nbuffers - buf)%nat with 0%nat in Htake by lia.
      simpl in Htake. by inv_run Htake.
Qed.

End submit_free.

(** ** The locks a call takes *)

Lemma lock_discipline_pairs evs l a :
  header_pairs evs →
  lock_discipline l = Some (InArbiter a) →
  lock_discipline (evs ++ l) = Some (InArbiter a).
Proof.
  induction 1 as [|h evs Hevs IH]; intros Hl; simpl; [done|].
  rewrite (IH Hl). simpl. by rewrite decide_True.
Qed.

Lemma lock_discipline_stretch s s' a :
  header_locks_only s s' →
  lock_discipline (log s) = Some (InArbiter a) →
  lock_discipline (log s') = Some (InArbiter a).
Proof. intros (evs & -> & Hevs). by apply lock_discipline_pairs. Qed.

Lemma lock_discipline_bracket hp l s1 a :
  lock_discipline l = Some Unlocked →
  header_locks_only {| heap := hp; log := Lock (arbiter_mutex a) :: l |} s1 →
  lock_discipline (Unlock (arbiter_mutex a) :: log s1) = Some Unlocked.
Proof.
  intros Hl Hs1. simpl.
  rewrite (lock_discipline_stretch _ _ a Hs1); simpl; [by rewrite decide_True|].
  by rewrite Hl.
Qed.

Section locks.

Variable jobs : gmap positive (list (positive * Z)).

Local Hint Resolve header_locks_only_refl header_locks_only_locked : core.

Local Ltac locks_loop IH :=
  eauto;
  try (eapply header_locks_only_trans; [|by eapply IH];
       apply header_locks_only_locked).

Lemma submit_take_loop_locks arb j n idx s r s' :
  submit_take_loop jobs arb j n idx s = Ret r s' → header_locks_only s s'.
Proof.
  revert idx s. induction n as [|n IH]; intros idx s H; simpl in H; inv_run H;
    locks_loop IH.
Qed.

Lemma cancel_loop_locks arb j n idx s u s' :
  cancel_loop jobs arb j n idx s = Ret u s' → header_locks_only s s'.
Proof.
  revert idx s. induction n as [|n IH]; intros idx s H; simpl in H; inv_run H;
    locks_loop IH.
Qed.

Lemma record_loop_locks arb j ia n idx s u s' :
  record_loop jobs arb j ia n idx s = Ret u s' → header_locks_only s s'.
Proof.
  revert idx s. induction n as [|n IH]; intros idx s H; simpl in H; inv_run H;
    locks_loop IH.
Qed.

Lemma notify_take_loop_locks arb j n idx s r s' :
  notify_take_loop jobs arb j n idx s = Ret r s' → header_locks_only s s'.
Proof.
  revert idx s. induction n as [|n IH]; intros idx s H; simpl in H; inv_run H;
    locks_loop IH.
Qed.

Lemma remove_loop_locks arb j n idx s r s' :
  remove_loop jobs arb j n idx s = Ret r s' → header_locks_only s s'.
Proof.
  revert idx s. induction n as [|n IH]; intros idx s H; simpl in H; inv_run H;
    locks_loop IH.
Qed.

(** A submission that returns has followed the discipline. *)
Lemma submit_fuel_discipline fuel j buf nbuffers s v s' :
  submit_fuel jobs fuel j buf nbuffers s = Ret v s' →
  lock_discipline (log s) = Some Unlocked →
  lock_discipline (log s') = Some Unlocked.
Proof.
  revert buf s. induction fuel as [|fuel IH]; intros buf s H Hs; simpl in H; [done|].
  inv_run H; name_take.
  - apply (IH _ _ H).
    eapply lock_discipline_bracket; [exact Hs|].
    eapply submit_take_loop_locks, Htake.
  - pose proof (lock_discipline_bracket _ _ _ _ Hs
                  (submit_take_loop_locks _ _ _ _ _ _ _ Htake)) as Hb.
    simpl in Hb |- *. by rewrite Hb.
  - match goal with
    | Hc : cancel_loop _ _ _ _ _ _ = _, Hr : record_loop _ _ _ _ _ _ _ = _ |- _ =>
        apply cancel_loop_locks in Hc; apply record_loop_locks in Hr;
        apply submit_take_loop_locks in Htake;
        pose proof (header_locks_only_trans _ _ _ Htake
                      (header_locks_only_trans _ _ _ Hc Hr)) as Hall
    end.
    eapply lock_discipline_bracket; [exact Hs | exact Hall].
Qed.

Lemma notify_scan_discipline arb rs s v s' :
  notify_scan jobs arb rs s = Ret v s' →
  lock_discipline (log s) = Some (InArbiter arb) →
  lock_discipline (log s') = Some Unlocked.
Proof.
  revert s. induction rs as [|r rs IH]; intros s H Hs; simpl in H; inv_run H.
  - simpl. rewrite Hs. simpl. by rewrite decide_True.
  - match goal with
    | Hf : find_arbiter_buffers _ _ _ _ _ _ = _ |- _ =>
        apply find_arbiter_buffers_same in Hf as ->
    end.
    match goal with
    | Ht : notify_take_loop _ _ _ _ _ _ = _, Hr : remove_loop _ _ _ _ _ _ = _ |- _ =>
        apply notify_take_loop_locks in Ht; apply remove_loop_locks in Hr;
        pose proof (header_locks_only_trans _ _ _ Ht Hr) as Hall
    end.
    match goal with
    | Hsub : _starpu_submit_job_enforce_arbitered_deps _ _ _ _ _ = _ |- _ =>
        apply submit_fuel_discipline in Hsub; [done|]
    end.
    simpl. rewrite (lock_discipline_stretch _ _ _ Hall Hs). simpl.
    by rewrite decide_True.
  - match goal with
    | Hf : find_arbiter_buffers _ _ _ _ _ _ = _ |- _ =>
        apply find_arbiter_buffers_same in Hf as ->
    end.
    match goal with
    | Ht : notify_take_loop _ _ _ _ _ _ = _, Hr : remove_loop _ _ _ _ _ _ = _ |- _ =>
        apply notify_take_loop_locks in Ht; apply remove_loop_locks in Hr;
        pose proof (header_locks_only_trans _ _ _ Ht Hr) as Hall
    end.
    simpl. rewrite (lock_discipline_stretch _ _ _ Hall Hs). simpl.
    by rewrite decide_True.
  - match goal with
    | Hf : find_arbiter_buffers _ _ _ _ _ _ = _ |- _ =>
        apply find_arbiter_buffers_same in Hf as ->
    end.
    match goal with
    | Ht : notify_take_loop _ _ _ _ _ _ = _, Hc : cancel_loop _ _ _ _ _ _ = _ |- _ =>
        apply notify_take_loop_locks in Ht; apply cancel_loop_locks in Hc;
        pose proof (header_locks_only_trans _ _ _ Ht Hc) as Hall
    end.
    apply (IH _ H). exact (lock_discipline_stretch _ _ _ Hall Hs).
Qed.

Lemma notify_discipline handle s v s' :
  _starpu_notify_arbitered_dependencies jobs handle s = Ret v s' →
  lock_discipline (log s) = Some Unlocked →
  lock_discipline (log s') = Some Unlocked.
Proof.
  unfold _starpu_notify_arbitered_dependencies. intros H Hs. inv_run H.
  match goal with
  | H : (match arbitered_req_list ?x with _ => _ end) _ = _ |- _ =>
      destruct (arbitered_req_list x) as [rs|] eqn:Hl
  end.
  - apply (notify_scan_discipline _ _ _ _ _ H). simpl. by rewrite Hs.
  - inv_run H. simpl. rewrite Hs. simpl. by rewrite decide_True.
Qed.

End locks.

(** ** The headers a call writes *)

Section writes.

Variable jobs : gmap positive (list (positive * Z)).

Local Ltac off_loop IH H Hoff :=
  try done;
  try (rewrite (IH _ _ H);
       [|let i := fresh "i" in let Hi := fresh "Hi" in
         intros i Hi; apply Hoff; lia];
       first [done
             | simpl; apply lookup_insert_ne; intros ->; eapply Hoff; [|done]; lia]).

Lemma submit_take_loop_off arb j n idx s r s' h :
  submit_take_loop jobs arb j n idx s = Ret r s' →
  off_buffers jobs j idx (idx + n) h → heap s' !! h = heap s !! h.
Proof.
  revert idx s. induction n as [|n IH]; intros idx s H Hoff; simpl in H; inv_run H;
    off_loop IH H Hoff.
Qed.

Lemma cancel_loop_off arb j n idx s u s' h :
  cancel_loop jobs arb j n idx s = Ret u s' →
  off_buffers jobs j idx (idx + n) h → heap s' !! h = heap s !! h.
Proof.
  revert idx s. induction n as [|n IH]; intros idx s H Hoff; simpl in H; inv_run H;
    off_loop IH H Hoff.
Qed.

Lemma record_loop_off arb j ia n idx s u s' h :
  record_loop jobs arb j ia n idx s = Ret u s' →
  off_buffers jobs j idx (idx + n) h → heap s' !! h = heap s !! h.
Proof.
  revert idx s. induction n as [|n IH]; intros idx s H Hoff; simpl in H; inv_run H;
    off_loop IH H Hoff.
Qed.

Lemma notify_take_loop_off arb j n idx s r s' h :
  notify_take_loop jobs arb j n idx s = Ret r s' →
  off_buffers jobs j idx (idx + n) h → heap s' !! h = heap s !! h.
Proof.
  revert idx s. induction n as [|n IH]; intros idx s H Hoff; simpl in H; inv_run H;
    off_loop IH H Hoff.
Qed.

Lemma remove_loop_off arb j n idx s r s' h :
  remove_loop jobs arb j n idx s = Ret r s' →
  off_buffers jobs j idx (idx + n) h → heap s' !! h = heap s !! h.
Proof.
  revert idx s. induction n as [|n IH]; intros idx s H Hoff; simpl in H; inv_run H;
    off_loop IH H Hoff.
Qed.

Lemma submit_fuel_off fuel j buf nbuffers s v s' h :
  submit_fuel jobs fuel j buf nbuffers s = Ret v s' →
  off_buffers jobs j buf nbuffers h → heap s' !! h = heap s !! h.
Proof.
  revert buf s. induction fuel as [|fuel IH]; intros buf s H Hoff; simpl in H; [done|].
  inv_run H; name_take;
    pose proof (submit_take_loop_range _ _ _ _ _ _ _ _ _ Htake) as Hrange;
    apply submit_take_loop_off with (h := h) in Htake;
    try (intros ? ?; apply Hoff; lia);
    simpl in Htake.
  - rewrite (IH _ _ H); [done|]. intros ? ?; apply Hoff; lia.
  - done.
  - match goal with
    | Hc : cancel_loop _ _ _ _ _ _ = _, Hr : record_loop _ _ _ _ _ _ _ = _ |- _ =>
        apply cancel_loop_off with (h := h) in Hc;
        [apply record_loop_off with (h := h) in Hr|]
    end; try (intros ? ?; apply Hoff; lia).
    simpl in *. congruence.
Qed.

Lemma notify_scan_off arb rs s v s' h :
  notify_scan jobs arb rs s = Ret v s' →
  (∀ r i, r ∈ rs → job_handle jobs (req_j r) i ≠ Some h) →
  heap s' !! h = heap s !! h.
Proof.
  revert s. induction rs as [|r rs IH]; intros s H Hoff; simpl in H; inv_run H;
    try done;
    assert (Hall : ∀ lo hi, off_buffers jobs (req_j r) lo hi h)
      by (intros lo hi i _; apply Hoff; left);
    match goal with
    | Hf : find_arbiter_buffers _ _ _ _ _ _ = _ |- _ =>
        apply find_arbiter_buffers_same in Hf as ->
    end;
    match goal with
    | Ht : notify_take_loop _ _ _ _ _ _ = _ |- _ =>
        apply notify_take_loop_off with (h := h) in Ht; [|apply Hall]
    end.
  - match goal with
    | Hr : remove_loop _ _ _ _ _ _ = _,
      Hsub : _starpu_submit_job_enforce_arbitered_deps _ _ _ _ _ = _ |- _ =>
        apply remove_loop_off with (h := h) in Hr; [|apply Hall];
        apply submit_fuel_off with (h := h) in Hsub; [|apply Hall]
    end.
    simpl in *. congruence.
  - match goal with
    | Hr : remove_loop _ _ _ _ _ _ = _ |- _ =>
        apply remove_loop_off with (h := h) in Hr; [|apply Hall]
    end.
    simpl in *. congruence.
  - match goal with
    | Hc : cancel_loop _ _ _ _ _ _ = _ |- _ =>
        apply cancel_loop_off with (h := h) in Hc; [|apply Hall]
    end.
    rewrite (IH _ H); [congruence|]. intros r' i Hr'. apply Hoff. by right.
Qed.

End writes.

(** ** Notifications *)

Section notify_more.

Variable jobs : gmap positive (list (positive * Z)).


End notify_more.

(** ** Running a call forward *)

Lemma bind_emit {B} (f : unit → M B) e s :
  mbind f (emit e) s = f () {| heap := heap s; log := e :: log s |}.
Proof. reflexivity. Qed.

Lemma bind_store {B} (f : unit → M B) h hs s :
  mbind f (store h hs) s = f () {| heap := <[h := hs]> (heap s); log := log s |}.
Proof. reflexivity. Qed.

Lemma bind_assert {B} (f : unit → M B) b s :
  b = true → mbind f (STARPU_ASSERT b) s = f () s.
Proof. by intros ->. Qed.

Lemma bind_mret {A B} (f : A → M B) a s : mbind f (mret a) s = f a s.
Proof. reflexivity. Qed.

Ltac run_locks :=
  unfold STARPU_PTHREAD_MUTEX_LOCK, STARPU_PTHREAD_MUTEX_UNLOCK,
    _starpu_spin_lock, _starpu_spin_unlock, _starpu_push_task.


(** ** Parking a job *)

Section park.

Variable jobs : gmap positive (list (positive * Z)).

(** On handles that differ two by two, the record loop of lines 305-331
    goes through the buffers up to the first one on a handle of another
    arbiter, and records one requester on the handle of each. *)
Lemma record_loop_inv arb j ia n idx s u s' :
  record_loop jobs arb j ia n idx s = Ret u s' →
  handles_distinct jobs j idx (idx + n) →
  ∃ e, (idx ≤ e ≤ idx + n)%nat ∧
    (∀ i, (idx ≤ i < e)%nat →
       ∃ h hs m, job_handle jobs j i = Some h ∧ job_mode jobs j i = Some m ∧
         heap s !! h = Some hs ∧ arbiter hs = Some arb ∧
         heap s' !! h =
           Some (record_requester (job_requester j i m)
                   (bool_decide (ia ≤ i)%nat) hs)) ∧
    ((e < idx + n)%nat →
       ∃ h hs, job_handle jobs j e = Some h ∧ heap s !! h = Some hs ∧
               arbiter hs ≠ Some arb) ∧
    (∀ h, off_buffers jobs j idx e h → heap s' !! h = heap s !! h).
Proof.
  revert idx s. induction n as [|n IH]; intros idx s H Hd; simpl in H; inv_run H.
  - exists idx. split; [lia|]. split; [intros; lia|]. split; [intros; lia | done].
  - (* another arbiter *)
    norm_tests. exists idx. split; [lia|]. split; [intros; lia|].
    split; [|done]. intros _. eauto.
  - (* recorded *)
    norm_tests.
    destruct (IH _ _ H) as (e & He & Hrec & Hend & Hframe).
    { intros i i' h Hi Hi'. apply Hd; lia. }
    simpl in *.
    assert (Hother : ∀ i h, (S idx ≤ i < idx + S n)%nat →
              job_handle jobs j i = Some h → h ≠ a).
    { intros i h Hi Hh ->. assert (i = idx); [|lia].
      apply (Hd i idx a); [lia | lia | done | done]. }
    exists e. split; [lia|]. split; [|split].
    + intros i Hi. destruct (decide (i = idx)) as [->|Hne].
      * exists a, a1, a0. split_and!; try done.
        rewrite Hframe; [apply lookup_insert_eq|].
        intros i Hi' Hh. apply (Hother i a); [lia | done | done].
      * destruct (Hrec i) as (h & hs & m & Hh & Hm & Hl & Ha & Hl'); [lia|].
        rewrite lookup_insert_ne in Hl by (apply not_eq_sym, (Hother i); [lia | done]).
        eauto 10.
    + intros Hlt. destruct Hend as (h & hs & Hh & Hl & Ha); [lia|].
      rewrite lookup_insert_ne in Hl by (apply not_eq_sym, (Hother e); [lia | done]).
      eauto.
    + intros h Hoff. rewrite Hframe; [|intros i Hi; apply Hoff; lia].
      apply lookup_insert_ne. intros ->. apply (Hoff idx); [lia | done].
Qed.

End park.

Lemma push_front_requesters l r :
  _starpu_data_requester_list_push_front l r = r :: default [] l.
Proof. by destruct l. Qed.

Section park_once.

Variable jobs : gmap positive (list (positive * Z)).

(** Among buffers on handles that differ two by two, every buffer after
    the first is attempted. *)
Lemma handles_distinct_attempted j lo hi i h :
  handles_distinct jobs j lo hi →
  (∀ h0, job_handle jobs j lo = Some h0 → requested_before jobs j lo h0 = false) →
  (lo ≤ i < hi)%nat → job_handle jobs j i = Some h → attempted jobs j i h.
Proof.
  intros Hd Hfirst Hi Hh. split; [done|].
  destruct (decide (i = lo)) as [->|Hne]; [by apply Hfirst|].
  destruct i as [|p]; [done|]. simpl. apply bool_decide_eq_false. intros Hp.
  assert (p = S p); [|lia]. apply (Hd p (S p) h); [lia | lia | done | done].
Qed.

Lemma submit_fuel_parks_once fuel j buf nbuffers s h0 hs0 arb stop s1 :
  job_handle jobs j buf = Some h0 →
  heap s !! h0 = Some hs0 →
  arbiter hs0 = Some arb →
  requested_before jobs j buf h0 = false →
  handles_distinct jobs j buf nbuffers →
  buffers_allocated jobs j buf (nbuffers - buf) s →
  submit_take_loop jobs arb j (nbuffers - buf) buf
    {| heap := heap s; log := Lock (arbiter_mutex arb) :: log s |}
    = Ret (stop, false) s1 →
  ∃ s' e,
    submit_fuel jobs (S fuel) j buf nbuffers s = Ret 1 s' ∧
    (stop < e ≤ nbuffers)%nat ∧
    (∀ i, (buf ≤ i < e)%nat →
       ∃ h hs hs' m,
         job_handle jobs j i = Some h ∧ job_mode jobs j i = Some m ∧
         heap s !! h = Some hs ∧ heap s' !! h = Some hs' ∧
         arbiter hs = Some arb ∧ parked_on j i m hs hs') ∧
    ((e < nbuffers)%nat →
       ∃ h hs, job_handle jobs j e = Some h ∧ heap s !! h = Some hs ∧
               arbiter hs ≠ Some arb) ∧
    (∀ h, off_buffers jobs j buf e h → heap s' !! h = heap s !! h).
Proof.
  intros Hh0 Hl0 Harb0 Hfirst Hd Hal Htake.
  set (s0 := {| heap := heap s; log := Lock (arbiter_mutex arb) :: log s |}) in *.
  pose proof (submit_take_loop_range _ _ _ _ _ _ _ _ _ Htake) as Hrange.
  destruct (submit_take_loop_inv _ _ _ _ _ _ _ _ _ Htake)
    as (Htaken & Hframe1 & Hfail & _).
  destruct (Hfail eq_refl) as (Hlt & hb & hsb & Hatb & Hlb & Harbb & Hbusy).
  assert (Hnb : (buf + (nbuffers - buf) = nbuffers)%nat) by lia.
  assert (Hatt : ∀ i h, (buf ≤ i < nbuffers)%nat → job_handle jobs j i = Some h →
            attempted jobs j i h).
  { intros i h Hi Hh. eapply handles_distinct_attempted; eauto.
    intros h' Hh'. congruence. }
  destruct (submit_take_cancel jobs _ _ _ _ _ _ _ _ Htake s1)
    as (s2 & Hcancel & _ & Hh); [done|].
  pose proof (submit_take_loop_arbiter_kept _ _ _ _ _ _ _ _ Htake) as Hk1.
  pose proof (cancel_loop_arbiter_kept _ _ _ _ _ _ _ _ Hcancel) as Hk2.
  pose proof (heap_rel_trans arbiter_kept _ _ _ Hk1 Hk2) as Hk.
  assert (Hal2 : buffers_allocated jobs j buf (nbuffers - buf) s2).
  { intros i Hi. destruct (Hal i Hi) as (h & Hh' & [hs Hl]).
    destruct (heap_rel_lookup_l _ _ _ _ _ Hk Hl) as (hs2 & Hl2 & _). eauto. }
  destruct (record_loop_returns jobs arb j stop _ _ _ Hal2) as (u & s3 & Hrec).
  destruct (record_loop_inv _ _ _ _ _ _ _ _ _ Hrec) as (e & He & Hrecd & Hend & Hframe3).
  { by rewrite Hnb. }
  (* the headers of the buffers up to the stop have the arbiter *)
  assert (Hgroup : ∀ i h hs2, (buf ≤ i ≤ stop)%nat → job_handle jobs j i = Some h →
            heap s2 !! h = Some hs2 → arbiter hs2 = Some arb).
  { intros i h hs2 Hi Hhi Hl2.
    destruct (Hh h) as [[Hsame Hs1] | (i0 & hs & m0 & _ & _ & _ & _ & Ha & Hl2')].
    - rewrite Hsame in Hl2. destruct (decide (i = stop)) as [->|Hne].
      + destruct Hatb as [Hhb _]. congruence.
      + destruct (Htaken i h) as (hs & m & Hl & _ & Ha & _ & Hl1);
          [lia | apply Hatt; [lia | done] |].
        rewrite Hs1, Hl in Hl2. congruence.
    - rewrite Hl2' in Hl2. injection Hl2 as <-. done. }
  assert (Hstop : (stop < e)%nat).
  { destruct (decide (stop < e)%nat) as [|Hge]; [done|]. exfalso.
    destruct Hend as (h & hs2 & Hhe & Hl2 & Ha); [lia|].
    apply Ha. apply (Hgroup e h hs2); [lia | done | done]. }
  exists {| heap := heap s3; log := Unlock (arbiter_mutex arb) :: log s3 |}, e.
  split; [|split; [lia|split; [|split]]].
  - cbn [submit_fuel]. unfold _STARPU_JOB_GET_ORDERED_BUFFER_HANDLE.
    rewrite (bind_Ret _ _ _ _ _ (deref_Some _ _ _ Hh0)).
    rewrite (bind_Ret _ _ _ _ _ (load_Some _ _ _ Hl0)).
    rewrite (bind_Ret _ _ _ _ _ (deref_Some _ _ _ Harb0)).
    run_locks. rewrite bind_emit. fold s0.
    rewrite (bind_Ret _ _ _ _ _ Htake).
    rewrite (bind_Ret _ _ _ _ _ Hcancel).
    rewrite (bind_Ret _ _ _ _ _ Hrec).
    by rewrite bind_emit.
  - intros i Hi.
    destruct (Hrecd i Hi) as (h & hs2 & m & Hhi & Hm & Hl2 & Ha2 & Hl3).
    destruct (Hh h) as [[Hsame Hs1] | (i0 & hs & m0 & Hi0 & Hat0 & Hl & Hz & Ha & Hl2')].
    + (* not taken by the pass: counted by the record loop *)
      assert (Hle : (stop ≤ i)%nat).
      { destruct (decide (stop ≤ i)%nat) as [|Hnle]; [done|]. exfalso.
        destruct (Htaken i h) as (hs & m' & Hl & _ & _ & Hz & Hl1);
          [lia | apply Hatt; [lia | done] |].
        rewrite Hs1, Hl in Hl1. injection Hl1 as Heq.
        apply (f_equal refcnt) in Heq. simpl in Heq. rewrite Hz in Heq. done. }
      rewrite bool_decide_eq_true_2 in Hl3 by done.
      exists h, hs2, (record_requester (job_requester j i m) true hs2), m.
      split_and!; try done.
      * by rewrite <- Hl2, Hsame, Hs1.
      * repeat split. simpl. by rewrite push_front_requesters.
    + (* taken by the pass, and given back *)
      assert (i0 = i) as ->.
      { destruct Hat0 as [Hh0' _]. apply (Hd i0 i h); [lia | lia | done | done]. }
      rewrite bool_decide_eq_false_2 in Hl3 by lia.
      rewrite Hl2' in Hl2. injection Hl2 as <-.
      exists h, hs, (record_requester (job_requester j i m) false
                       (drop_reference (submit_take m0 hs))), m.
      split_and!; try done. repeat split; simpl.
      * by rewrite Hz.
      * by rewrite push_front_requesters.
  - intros Hlte. destruct (Hend ltac:(lia)) as (h & hs2 & Hhe & Hl2 & Ha).
    destruct (heap_rel_lookup _ _ _ _ _ Hk Hl2) as (hs & Hl & Hkept).
    exists h, hs. split_and!; [done | done |]. unfold arbiter_kept in Hkept. congruence.
  - intros h Hoff. simpl. rewrite (Hframe3 h Hoff).
    destruct (Hh h) as [[Hsame Hs1] | (i0 & hs & m0 & Hi0 & [Hh0' _] & _)].
    + by rewrite Hsame, Hs1.
    + exfalso. apply (Hoff i0); [lia | done].
Qed.

End park_once.

(** ** References are taken, never dropped *)

Lemma heap_rel_impl (R R' : relation _starpu_data_state) s s' :
  (∀ a b, R a b → R' a b) → heap_rel R s s' → heap_rel R' s s'.
Proof. intros HR Hrel h. destruct (Hrel h); constructor. by apply HR. Qed.

Section references.

Variable jobs : gmap positive (list (positive * Z)).

Lemma record_loop_reference_taken arb j ia n idx s u s' :
  record_loop jobs arb j ia n idx s = Ret u s' → heap_rel reference_taken s s'.
Proof.
  intros H. eapply (record_loop_ok jobs reference_taken) in H as [H _]; [done|].
  intros hs r bump. by left.
Qed.

Lemma notify_take_loop_reference_taken arb j n idx s r s' :
  notify_take_loop jobs arb j n idx s = Ret r s' → heap_rel reference_taken s s'.
Proof.
  intros H. eapply (notify_take_loop_ok jobs reference_taken) in H as [H _]; [done|].
  intros hs mode Hz. right. split; [done|]. simpl. by rewrite Hz.
Qed.

Lemma remove_loop_reference_taken arb j n idx s r s' :
  remove_loop jobs arb j n idx s = Ret r s' → heap_rel reference_taken s s'.
Proof.
  intros H. eapply (remove_loop_ok jobs reference_taken) in H as [H _]; [done|].
  intros. by left.
Qed.

(** The pass and the cancel loop together leave every [refcnt] as it
    was. *)
Lemma submit_take_then_cancel arb j n idx s stop ok s1 u s2 :
  submit_take_loop jobs arb j n idx s = Ret (stop, ok) s1 →
  cancel_loop jobs arb j (stop - idx) idx s1 = Ret u s2 →
  heap_rel reference_taken s s2.
Proof.
  intros Htake Hcancel.
  destruct (submit_take_cancel _ _ _ _ _ _ _ _ _ Htake s1) as (t2 & Hc & _ & Hh);
    [done|].
  rewrite Hc in Hcancel. injection Hcancel as _ <-.
  intros h. destruct (Hh h) as [[-> <-] | (i & hs & m & _ & _ & -> & Hz & _ & ->)].
  - destruct (heap s1 !! h); constructor. by left.
  - constructor. left. simpl. by rewrite Hz.
Qed.

Lemma submit_fuel_references fuel j buf nbuffers s v s' :
  submit_fuel jobs fuel j buf nbuffers s = Ret v s' → heap_rel reference_taken s s'.
Proof.
  revert buf s. induction fuel as [|fuel IH]; intros buf s H; simpl in H; [done|].
  inv_run H; name_take.
  - apply IH in H. apply submit_take_loop_reference_taken in Htake.
    exact (heap_rel_trans reference_taken _ _ _ Htake H).
  - by apply submit_take_loop_reference_taken in Htake.
  - match goal with
    | Hc : cancel_loop _ _ _ _ _ _ = _, Hr : record_loop _ _ _ _ _ _ _ = _ |- _ =>
        pose proof (submit_take_then_cancel _ _ _ _ _ _ _ _ _ _ Htake Hc) as H1;
        apply record_loop_reference_taken in Hr;
        exact (heap_rel_trans reference_taken _ _ _ H1 Hr)
    end.
Qed.

Lemma notify_scan_references arb rs s v s' :
  notify_scan jobs arb rs s = Ret v s' → heap_rel reference_taken s s'.
Proof.
  revert s. induction rs as [|r rs IH]; intros s H.
  - simpl in H. inv_run H. exact (heap_rel_refl reference_taken _).
  - apply notify_scan_unfold in H
      as (nbuffers & pos & stop & ok & s1 & _ & _ & Htake & Hrest).
    destruct ok.
    + destruct Hrest as [_ (s2 & Hremove & _ & _ & Hnext)].
      apply notify_take_loop_reference_taken in Htake.
      apply remove_loop_reference_taken in Hremove.
      pose proof (heap_rel_trans reference_taken _ _ _ Htake Hremove) as H2.
      case_bool_decide.
      * destruct Hnext as [v' Hsub]. apply submit_fuel_references in Hsub.
        exact (heap_rel_trans reference_taken _ _ _ H2 Hsub).
      * by subst s'.
    + destruct Hrest as (s2 & _ & Hrel & Hnext).
      apply IH in Hnext.
      refine (heap_rel_trans reference_taken _ _ _ _ Hnext).
      eapply heap_rel_impl; [|exact Hrel]. intros a b (Hr & _). by left.
Qed.

Lemma notify_references handle s v s' :
  _starpu_notify_arbitered_dependencies jobs handle s = Ret v s' →
  heap_rel reference_taken s s'.
Proof.
  unfold _starpu_notify_arbitered_dependencies. intros H. inv_run H.
  match goal with
  | H : (match arbitered_req_list ?x with _ => _ end) _ = _ |- _ =>
      destruct (arbitered_req_list x) as [rs|] eqn:Hrs
  end.
  - by apply notify_scan_references in H.
  - inv_run H. exact (heap_rel_refl reference_taken _).
Qed.

End references.

(** ** The scan of notify, step by step on the store *)

Global Instance mode_kept_preorder : PreOrder mode_kept.
Proof. split; [by intros a | intros a b c; unfold mode_kept; congruence]. Qed.



Section scan_outcome.

Variable jobs : gmap positive (list (positive * Z)).








End scan_outcome.

(** ** The two counters across the fast-takes of notify *)

Section order_fast_take.

Variable jobs : gmap positive (list (positive * Z)).

(** After the fast-takes, [refcnt <= busy_count] holds on every header
    but those of the handles they took whose [busy_count] is 0. *)
Lemma notify_take_loop_counters arb j n idx s stop ok s' :
  all_counters_ordered s →
  notify_take_loop jobs arb j n idx s = Ret (stop, ok) s' →
  ∀ h hs', heap s' !! h = Some hs' →
    counters_ordered hs' ∨
    (refcnt hs' = 1 ∧ busy_count hs' = 0 ∧
     ∃ i, (idx ≤ i < stop)%nat ∧ attempted jobs j i h).
Proof.
  intros Hord H h hs' Hl'.
  destruct (notify_take_loop_inv _ _ _ _ _ _ _ _ _ H) as (Htaken & Hframe & _).
  destruct (attempted_in_range jobs j idx stop h) as [(i & Hi & Hat) | Hno].
  - destruct (Htaken i h Hi Hat) as (hs & m & Hl & _ & _ & Hz & Hl1).
    rewrite Hl1 in Hl'. injection Hl' as <-.
    pose proof (Hord h hs Hl) as Ho. unfold counters_ordered in *. simpl.
    rewrite Hz in *. change (u32 (0 + 1)) with 1.
    destruct (decide (1 ≤ busy_count hs)); [by left|].
    right. split; [done|]. split; [lia|]. eauto.
  - left. rewrite (Hframe h Hno) in Hl'. exact (Hord h hs' Hl').
Qed.

(** The fast-takes followed by the rollback keep the order. *)
Lemma notify_take_then_cancel_ordered arb j n idx s stop ok s1 :
  all_counters_ordered s →
  notify_take_loop jobs arb j n idx s = Ret (stop, ok) s1 →
  ∃ s2, cancel_loop jobs arb j (stop - idx) idx s1 = Ret () s2 ∧
        all_counters_ordered s2.
Proof.
  intros Hord H.
  destruct (notify_rollback _ _ _ _ _ _ _ _ _ H) as (s2 & Hc & Hrel & _).
  exists s2. split; [done|]. by eapply same_but_mode_ordered.
Qed.

(** The fast-takes followed by the promotion loop, which asserts
    [busy_count >= 1] on every handle taken, keep the order. *)
Lemma notify_take_then_remove_ordered arb j n idx s stop s1 r s2 :
  all_counters_ordered s →
  notify_take_loop jobs arb j n idx s = Ret (stop, true) s1 →
  remove_loop jobs arb j n idx s1 = Ret r s2 →
  all_counters_ordered s2.
Proof.
  intros Hord Htake Hremove.
  destruct (notify_take_remove _ _ _ _ _ _ _ _ Htake s1 r s2) as (_ & _ & Hh);
    [done..|].
  intros h hs2 Hl2.
  destruct (Hh h) as [[Ha Hb] | (i & hs & m & l & _ & _ & Hl & Hz & Hbusy & _ & _ & Hl2')].
  - rewrite Ha, Hb in Hl2. exact (Hord h hs2 Hl2).
  - rewrite Hl2' in Hl2. injection Hl2 as <-.
    unfold counters_ordered. simpl. rewrite Hz. change (u32 (0 + 1)) with 1. done.
Qed.

End order_fast_take.

(** ** Pushing or parking *)

Section push_or_park.

Variable jobs : gmap positive (list (positive * Z)).

(** A submission that pushes leaves every list as it is. *)
Lemma submit_fuel_pushed_lists fuel j buf nbuffers s s' :
  submit_fuel jobs fuel j buf nbuffers s = Ret 0 s' → heap_rel list_kept s s'.
Proof.
  revert buf s. induction fuel as [|fuel IH]; intros buf s H; simpl in H; [done|].
  inv_run H; name_take.
  - apply IH in H. apply submit_take_loop_list_kept in Htake.
    exact (heap_rel_trans list_kept _ _ _ Htake H).
  - by apply submit_take_loop_list_kept in Htake.
Qed.

End push_or_park.
(** ** The claims *)

(** C1. The try-acquire pass of the submission (lines 250-283), run over
    buffers on allocated handles, returns; it went through the buffers in
    [idx, stop). Every handle it attempted there (a buffer that is not
    skipped as a repeat of the previous one) had [refcnt] 0 when attempted
    and has now [refcnt] 1, the mode of the buffer as [current_mode], and
    [busy_count] incremented by one (modulo [2^32]: by exactly one below
    [UINT_MAX]); headers of handles it did not attempt are untouched. The
    pass reports a failure exactly when it stopped at an attempted handle of
    the arbiter whose [refcnt] is not 0, which it leaves as it is; otherwise
    it stopped at the end of the buffers or at a handle of another arbiter.
    A handle is attempted at most once before the stop, so its header at the
    start of the pass is its header at the moment of the attempt. *)
Theorem try_acquire_pass jobs arb j n idx s :
  buffers_allocated jobs j idx n s →
  ∃ stop ok s',
    submit_take_loop jobs arb j n idx s = Ret (stop, ok) s' ∧
    (idx ≤ stop ≤ idx + n)%nat ∧
    (∀ i h, (idx ≤ i < stop)%nat → attempted jobs j i h →
       ∃ hs hs' m,
         heap s !! h = Some hs ∧ heap s' !! h = Some hs' ∧
         job_mode jobs j i = Some m ∧
         arbiter hs = Some arb ∧ refcnt hs = 0 ∧
         refcnt hs' = 1 ∧
         busy_count hs' = u32 (busy_count hs + 1) ∧
         (0 ≤ busy_count hs < UINT_MAX → busy_count hs' = busy_count hs + 1) ∧
         current_mode hs' = m ∧
         arbiter hs' = arbiter hs ∧
         arbitered_req_list hs' = arbitered_req_list hs) ∧
    (∀ h, (∀ i, (idx ≤ i < stop)%nat → ¬ attempted jobs j i h) →
       heap s' !! h = heap s !! h) ∧
    (ok = false →
       (stop < idx + n)%nat ∧
       ∃ h hs, attempted jobs j stop h ∧ heap s' !! h = Some hs ∧
         arbiter hs = Some arb ∧ refcnt hs ≠ 0) ∧
    (ok = true →
       stop = (idx + n)%nat ∨
       ∃ h hs, attempted jobs j stop h ∧ heap s' !! h = Some hs ∧
         arbiter hs ≠ Some arb).
Proof.
  intros Hal.
  destruct (submit_take_loop_returns jobs arb j n idx s Hal) as ([stop ok] & s' & Hrun).
  exists stop, ok, s'. split; [done|].
  split; [by eapply submit_take_loop_range|].
  destruct (submit_take_loop_inv jobs arb j n idx s stop ok s' Hrun)
    as (Htaken & Hframe & Hfail & Hsucc).
  split_and!; try done.
  intros i h Hi Hat.
  destruct (Htaken i h Hi Hat) as (hs & m & Hl & Hm & Ha & Hz & Hl').
  exists hs, (submit_take m hs), m. split_and!; try done.
  - simpl. by rewrite Hz.
  - simpl. intros Hb. apply u32_small. unfold UINT_MAX in *. lia.
Qed.

Lemma try_acquire_pass_witness :
  buffers_allocated example_jobs 1 0 2 machine_second_held ∧
  ∃ stop ok s',
    submit_take_loop example_jobs 7 1 2 0 machine_second_held = Ret (stop, ok) s' ∧
    stop = 1%nat ∧ ok = false ∧
    (refcnt <$> heap s' !! 10%positive) = Some 1 ∧
    (busy_count <$> heap s' !! 10%positive) = Some 1 ∧
    heap s' !! 11%positive = heap machine_second_held !! 11%positive.
Proof.
  assert (Hal : buffers_allocated example_jobs 1 0 2 machine_second_held).
  { intros i Hi.
    assert (i = 0 ∨ i = 1)%nat as [-> | ->] by lia;
      eexists; (split; [reflexivity | eexists; reflexivity]). }
  split; [exact Hal|].
  destruct (try_acquire_pass example_jobs 7 1 2 0 machine_second_held Hal)
    as (stop & ok & s' & Hrun & _).
  exists stop, ok, s'. split; [exact Hrun|].
  vm_compute in Hrun. injection Hrun as <- <- <-. repeat split.
Defined.

(** C2. Job 3 has buffers on handles 10, 11 and 11 again, and handle 10 is
    held. The try-acquire pass fails on handle 10 and the job is parked;
    handle 11, which had no requester and [busy_count] 0, ends with two
    requesters of job 3 and [busy_count] 2: the loop that records the job
    (lines 305-331) does not skip the buffer that repeats the handle of the
    previous one, as the two loops before it do. *)
Theorem park_on_duplicate_buffers :
  (busy_count <$> heap machine_held !! 11%positive) = Some 0 ∧
  (requesters <$> heap machine_held !! 11%positive) = Some [] ∧
  after (_starpu_submit_job_enforce_arbitered_deps example_jobs 3 0 3 machine_held)
    (λ v s',
       v = 1 ∧
       (requesters <$> heap s' !! 11%positive)
         = Some [job_requester 3 2 1; job_requester 3 1 3] ∧
       (busy_count <$> heap s' !! 11%positive) = Some 2).
Proof. vm_compute. repeat split.
Qed.

(** C3, as stated, fails. With handle 10 held, job 2 and then job 4 are
    parked on it: the list of the handle has the requester of job 4 at its
    head and the requester of job 2 behind it, and once the reference on the
    handle is dropped, notify pushes job 4, the job that was parked last. *)
Lemma parked_last_served_first :
  after (_starpu_submit_job_enforce_arbitered_deps example_jobs 2 0 1 machine_held)
    (λ v1 s1,
       v1 = 1 ∧
       after (_starpu_submit_job_enforce_arbitered_deps example_jobs 4 0 1 s1)
         (λ v2 s2,
            v2 = 1 ∧
            (requesters <$> heap s2 !! 10%positive)
              = Some [job_requester 4 0 3; job_requester 2 0 2] ∧
            after (_starpu_notify_arbitered_dependencies example_jobs 10
                     {| heap := alter drop_reference 10%positive (heap s2);
                        log := [] |})
              (λ v3 s3, v3 = 0 ∧ pushes (log s3) = [4%positive]))).
Proof. vm_compute. repeat split.
Qed.

(** C3, amended. When a submission parks job [j] (it returns 1), on every
    handle the requesters it recorded are requesters of [j] placed in front
    of the requesters that were there, which keep their order; and it did
    record one on the first handle of the group whose pass failed. Notify on
    a handle whose list is [r :: next] runs the fast-takes of [r], the head,
    first: when they all succeed, notify returns 0 and pushes no job other
    than the job of [r]. So the requester that was parked last is the one
    considered first. *)
Theorem parked_at_head jobs j buf nbuffers s s' :
  _starpu_submit_job_enforce_arbitered_deps jobs j buf nbuffers s = Ret 1 s' →
  heap_rel (pushed_front j) s s' ∧
  (∃ i h hs hs' new m,
     (buf ≤ i)%nat ∧ job_handle jobs j i = Some h ∧
     heap s !! h = Some hs ∧ heap s' !! h = Some hs' ∧
     requesters hs' = new ++ job_requester j i m :: requesters hs ∧
     Forall (λ r, req_j r = j) new) ∧
  (∀ handle hs arb r next t v t',
     heap t !! handle = Some hs → arbiter hs = Some arb →
     arbitered_req_list hs = Some (r :: next) →
     _starpu_notify_arbitered_dependencies jobs handle t = Ret v t' →
     ∃ n pos stop ok t1,
       length <$> jobs !! req_j r = Some n ∧
       find_arbiter_buffers jobs arb (req_j r) n 0
         {| heap := heap t; log := Lock (arbiter_mutex arb) :: log t |}
         = Ret pos {| heap := heap t; log := Lock (arbiter_mutex arb) :: log t |} ∧
       notify_take_loop jobs arb (req_j r) (n - pos) pos
         {| heap := heap t; log := Lock (arbiter_mutex arb) :: log t |}
         = Ret (stop, ok) t1 ∧
       (ok = true →
        v = 0 ∧ (pushes (log t') = pushes (log t) ∨
                 pushes (log t') = req_j r :: pushes (log t)))).
Proof.
  intros H. split_and!.
  - by eapply submit_fuel_front.
  - by eapply submit_fuel_parks.
  - intros handle hs arb r next t v t' Hl Harb Hlist Hn.
    unfold _starpu_notify_arbitered_dependencies in Hn.
    rewrite (bind_Ret _ _ _ _ _ (load_Some _ _ _ Hl)) in Hn.
    rewrite Harb, Hlist in Hn.
    exact (notify_scan_first jobs arb r next _ v t' Hn).
Qed.

Lemma parked_at_head_witness :
  after (_starpu_submit_job_enforce_arbitered_deps example_jobs 2 0 1 machine_held)
    (λ v s',
       v = 1 ∧ heap_rel (pushed_front 2) machine_held s' ∧
       (requesters <$> heap s' !! 10%positive) = Some [job_requester 2 0 2]).
Proof.
  unfold after.
  destruct (_starpu_submit_job_enforce_arbitered_deps example_jobs 2 0 1 machine_held)
    as [v s'| | |] eqn:Hrun; [|vm_compute in Hrun; discriminate..].
  assert (v = 1) as -> by (vm_compute in Hrun; by injection Hrun as <- _).
  split; [reflexivity|].
  split; [exact (proj1 (parked_at_head example_jobs 2 0 1 machine_held s' Hrun))|].
  vm_compute in Hrun. by injection Hrun as <-.
Defined.




(** C5, as stated, fails in two places. A submission that finds
    [busy_count] at [UINT_MAX] on a free handle, where
    [refcnt <= busy_count] holds, returns with [refcnt] 1 and [busy_count]
    wrapped to 0. And the fast-takes of notify, which do not touch
    [busy_count], run on a free handle whose [busy_count] is 0, leave
    [refcnt] 1 above it. *)
Lemma counters_order_broken :
  (all_counters_ordered machine_full ∧
   after (_starpu_submit_job_enforce_arbitered_deps example_jobs 2 0 1 machine_full)
     (λ _ s',
        pushes (log s') = [2%positive] ∧
        (refcnt <$> heap s' !! 10%positive) = Some 1 ∧
        (busy_count <$> heap s' !! 10%positive) = Some 0 ∧
        ¬ all_counters_ordered s')) ∧
  (all_counters_ordered machine_uncounted ∧
   after (notify_take_loop example_jobs 7 2 1 0 machine_uncounted)
     (λ _ s',
        (refcnt <$> heap s' !! 10%positive) = Some 1 ∧
        (busy_count <$> heap s' !! 10%positive) = Some 0 ∧
        ¬ all_counters_ordered s')).
Proof.
  split; (split; [apply (bool_decide_unpack _); vm_compute; exact I|]).
  - vm_compute. split_and!; try done.
    intros Hord. pose proof (Hord 10%positive _ eq_refl) as Ho.
    vm_compute in Ho. by apply Ho.
  - vm_compute. split_and!; try done.
    intros Hord. pose proof (Hord 10%positive _ eq_refl) as Ho.
    vm_compute in Ho. by apply Ho.
Qed.

(** C5, amended. From a store where [refcnt <= busy_count] holds on every
    header and every [busy_count] can take [n] increments without
    wrapping: the try-acquire pass, the abort-and-park (cancel loop, then
    record loop), the rollback and the promotion loop of notify all keep
    [refcnt <= busy_count]. The fast-takes of notify, which need no room,
    keep it on every header but those of the handles they took whose
    [busy_count] is 0, where they leave [refcnt] 1; followed by the
    rollback they keep it everywhere, and so they do followed by the
    promotion loop, which asserts [busy_count >= 1] on each handle taken.
    A whole submission of at most [n] buffers keeps it and so does, no job
    having more than [n] buffers, a whole call of notify that returns. *)
Theorem counters_stay_ordered jobs arb j n idx s :
  all_counters_ordered s →
  headroom n s →
  (∀ r s', submit_take_loop jobs arb j n idx s = Ret r s' →
     all_counters_ordered s') ∧
  (∀ k ia u s1 u' s',
     cancel_loop jobs arb j k idx s = Ret u s1 →
     record_loop jobs arb j ia n idx s1 = Ret u' s' →
     all_counters_ordered s') ∧
  (∀ stop ok s1,
     notify_take_loop jobs arb j n idx s = Ret (stop, ok) s1 →
     (∀ h hs1, heap s1 !! h = Some hs1 →
        counters_ordered hs1 ∨
        (refcnt hs1 = 1 ∧ busy_count hs1 = 0 ∧
         ∃ i, (idx ≤ i < stop)%nat ∧ attempted jobs j i h)) ∧
     (∃ s2, cancel_loop jobs arb j (stop - idx) idx s1 = Ret () s2 ∧
            all_counters_ordered s2) ∧
     (∀ r s2, ok = true → remove_loop jobs arb j n idx s1 = Ret r s2 →
        all_counters_ordered s2)) ∧
  (∀ k u s', cancel_loop jobs arb j k idx s = Ret u s' →
     all_counters_ordered s') ∧
  (∀ r s', remove_loop jobs arb j n idx s = Ret r s' →
     all_counters_ordered s') ∧
  (∀ buf nbuffers v s', (nbuffers - buf ≤ n)%nat →
     _starpu_submit_job_enforce_arbitered_deps jobs j buf nbuffers s = Ret v s' →
     all_counters_ordered s') ∧
  (∀ handle v s',
     (∀ j' bufs, jobs !! j' = Some bufs → (length bufs ≤ n)%nat) →
     _starpu_notify_arbitered_dependencies jobs handle s = Ret v s' →
     all_counters_ordered s').
Proof.
  intros Hord Hroom. split_and!.
  - intros r s' H. destruct n as [|n].
    + simpl in H. inv_run H. done.
    + eapply submit_take_loop_ordered; [exact Hord | | exact H].
      eapply headroom_weaken; [|exact Hroom]. lia.
  - intros k ia u s1 u' s' Hc Hr.
    apply cancel_loop_ordered in Hc as [Hord1 Hroom1]; [|done].
    eapply record_loop_ordered; [exact Hord1 | | exact Hr]. by apply Hroom1.
  - intros stop ok s1 H. split_and!.
    + by eapply notify_take_loop_counters.
    + by eapply notify_take_then_cancel_ordered.
    + intros r s2 -> Hremove. by eapply notify_take_then_remove_ordered.
  - intros k u s' H. by apply cancel_loop_ordered in H as [H _].
  - intros r s' H. by eapply remove_loop_ordered.
  - intros buf nbuffers v s' Hle H.
    eapply submit_fuel_ordered; [exact Hord | | exact H].
    eapply headroom_weaken; [|exact Hroom]. done.
  - intros handle v s' Hjobs H. by eapply notify_ordered.
Qed.

Lemma counters_stay_ordered_witness :
  all_counters_ordered machine_two_groups ∧
  headroom 2 machine_two_groups ∧
  after (notify_take_loop two_group_jobs 7 5 2 0 machine_two_groups)
    (λ r s1,
       r = (1%nat, true) ∧
       (refcnt <$> heap s1 !! 10%positive) = Some 1 ∧
       ∀ h hs1, heap s1 !! h = Some hs1 →
         counters_ordered hs1 ∨
         (refcnt hs1 = 1 ∧ busy_count hs1 = 0 ∧
          ∃ i, (0 ≤ i < 1)%nat ∧ attempted two_group_jobs 5 i h)) ∧
  after (_starpu_notify_arbitered_dependencies two_group_jobs 10 machine_two_groups)
    (λ v s',
       v = 0 ∧ pushes (log s') = [5%positive] ∧
       (busy_count <$> heap s' !! 12%positive) = Some 1 ∧
       all_counters_ordered s').
Proof.
  assert (Hord : all_counters_ordered machine_two_groups).
  { apply (bool_decide_unpack _). vm_compute. exact I. }
  assert (Hroom : headroom 2 machine_two_groups).
  { apply (bool_decide_unpack _). vm_compute. exact I. }
  split; [exact Hord|]. split; [exact Hroom|].
  destruct (counters_stay_ordered two_group_jobs 7 5 2 0 machine_two_groups Hord Hroom)
    as (_ & _ & Htake & _ & _ & _ & Hnotify).
  split.
  - unfold after.
    destruct (notify_take_loop two_group_jobs 7 5 2 0 machine_two_groups)
      as [[stop ok] s1| | |] eqn:Hrun; [|vm_compute in Hrun; discriminate..].
    destruct (Htake stop ok s1 eq_refl) as (Hcount & _).
    assert (stop = 1%nat ∧ ok = true) as [-> ->]
      by (vm_compute in Hrun; by injection Hrun as <- <- _).
    split; [done|]. split; [|exact Hcount].
    vm_compute in Hrun. by injection Hrun as <-.
  - unfold after.
    destruct (_starpu_notify_arbitered_dependencies two_group_jobs 10 machine_two_groups)
      as [v s'| | |] eqn:Hrun; [|vm_compute in Hrun; discriminate..].
    split_and!.
    + vm_compute in Hrun. by injection Hrun as <- _.
    + vm_compute in Hrun. by injection Hrun as _ <-.
    + vm_compute in Hrun. by injection Hrun as _ <-.
    + eapply Hnotify; [|exact Hrun].
      intros j' bufs Hj'. apply (bool_decide_unpack _).
      revert j' bufs Hj'.
      apply (bool_decide_unpack
               (map_Forall (λ _ bufs, bool_decide (length bufs ≤ 2)%nat) two_group_jobs)).
      vm_compute. exact I.
Defined.

(** C6. On an allocated handle, [starpu_data_assign_arbiter] stores the
    arbiter when the handle has none and its [refcnt] and [busy_count] are
    both 0, and aborts in every other case; a submission and a notify leave
    the arbiter of every header as it was. *)
Theorem assign_arbiter_once jobs handle arb s hs :
  heap s !! handle = Some hs →
  starpu_data_assign_arbiter handle arb s =
    (if decide (arbiter hs = None ∧ refcnt hs = 0 ∧ busy_count hs = 0) then
       Ret () {| heap := <[handle := {| refcnt := refcnt hs;
                                        busy_count := busy_count hs;
                                        current_mode := current_mode hs;
                                        arbiter := arb;
                                        arbitered_req_list := arbitered_req_list hs |}]>
                           (heap s);
                 log := log s |}
     else Abort) ∧
  (∀ j buf nbuffers v s',
     _starpu_submit_job_enforce_arbitered_deps jobs j buf nbuffers s = Ret v s' →
     heap_rel arbiter_kept s s') ∧
  (∀ h v s',
     _starpu_notify_arbitered_dependencies jobs h s = Ret v s' →
     heap_rel arbiter_kept s s').
Proof.
  intros Hh. split_and!.
  - unfold starpu_data_assign_arbiter.
    rewrite (bind_Ret _ _ _ _ _ (load_Some _ _ _ Hh)).
    unfold mbind, M_bind, STARPU_ASSERT, store.
    destruct (decide _) as [(Ha & Hr & Hb) | Hn].
    + rewrite Ha, Hr, Hb. reflexivity.
    + destruct (arbiter hs) as [a|]; simpl; [done|].
      destruct (refcnt hs =? 0) eqn:Hr; simpl; [|done].
      destruct (busy_count hs =? 0) eqn:Hb; simpl; [|done].
      apply Z.eqb_eq in Hr, Hb. naive_solver.
  - intros j buf nbuffers v s' H. by apply submit_arbiter_kept in H as [H _].
  - intros h v s' H. by apply notify_arbiter_kept in H as [H _].
Qed.

Lemma assign_arbiter_once_witness :
  heap machine_fresh !! 10%positive = Some fresh_header ∧
  starpu_data_assign_arbiter 10 (Some 7%positive) machine_fresh =
    Ret () {| heap := {[ 10%positive := free_header ]}; log := [] |}.
Proof.
  split; [reflexivity|].
  destruct (assign_arbiter_once example_jobs 10 (Some 7%positive) machine_fresh
              fresh_header) as [Hassign _]; [reflexivity|].
  rewrite Hassign. reflexivity.
Defined.

(** C7. Notify on a handle whose list pointer is NULL, or whose list is
    empty, returns 1: the store is the store of the entry, and nothing is
    pushed. *)
Theorem notify_empty_queue jobs handle s hs arb :
  heap s !! handle = Some hs →
  arbiter hs = Some arb →
  arbitered_req_list hs = None ∨ arbitered_req_list hs = Some [] →
  ∃ s', _starpu_notify_arbitered_dependencies jobs handle s = Ret 1 s' ∧
        heap s' = heap s ∧
        pushes (log s') = pushes (log s).
Proof.
  intros Hh Ha Hl. eexists. split_and!.
  - unfold _starpu_notify_arbitered_dependencies.
    rewrite (bind_Ret _ _ _ _ _ (load_Some _ _ _ Hh)). rewrite Ha.
    destruct Hl as [-> | ->]; reflexivity.
  - done.
  - done.
Qed.

Lemma notify_empty_queue_witness :
  heap machine_free !! 10%positive = Some free_header ∧
  arbiter free_header = Some 7%positive ∧
  (arbitered_req_list free_header = None ∨ arbitered_req_list free_header = Some []) ∧
  ∃ s', _starpu_notify_arbitered_dependencies example_jobs 10 machine_free = Ret 1 s' ∧
        heap s' = heap machine_free ∧
        pushes (log s') = pushes (log machine_free).
Proof.
  split; [reflexivity|]. split; [reflexivity|]. split; [left; reflexivity|].
  apply (notify_empty_queue example_jobs 10 machine_free free_header 7);
    [reflexivity | reflexivity | left; reflexivity].
Defined.

(** C8. In a submission or a notify that returns, entered with the locks
    [held] held, every push was made with exactly [held] held, and [held]
    is what is held on return: the arbiter mutex and every header lock the
    call took were released before [_starpu_push_task] was called. Entered
    with no lock held, the call pushes with no lock held. *)
Theorem push_outside_locks jobs held s :
  locks_held (log s) = held →
  pushes_with held (log s) →
  (∀ j buf nbuffers v s',
     _starpu_submit_job_enforce_arbitered_deps jobs j buf nbuffers s = Ret v s' →
     locks_held (log s') = held ∧ pushes_with held (log s')) ∧
  (∀ h v s',
     _starpu_notify_arbitered_dependencies jobs h s = Ret v s' →
     locks_held (log s') = held ∧ pushes_with held (log s')).
Proof.
  intros Hheld Hpush. split.
  - intros j buf nbuffers v s' H.
    apply submit_log in H as (Hl & Hp & _). rewrite Hheld in *. auto.
  - intros h v s' H.
    apply notify_log in H as (Hl & Hp & _). rewrite Hheld in *. auto.
Qed.

Lemma push_outside_locks_witness :
  locks_held (log machine_free) = [] ∧
  pushes_with [] (log machine_free) ∧
  after (_starpu_submit_job_enforce_arbitered_deps example_jobs 1 0 2 machine_free)
    (λ v s',
       v = 0 ∧ pushes (log s') = [1%positive] ∧
       locks_held (log s') = [] ∧ pushes_with [] (log s')).
Proof.
  split; [reflexivity|]. split; [exact I|].
  destruct (push_outside_locks example_jobs [] machine_free) as [Hsubmit _];
    [reflexivity | exact I |].
  unfold after.
  destruct (_starpu_submit_job_enforce_arbitered_deps example_jobs 1 0 2 machine_free)
    as [v s'| | |] eqn:Hrun; [|vm_compute in Hrun; discriminate..].
  split; [|split; [|by eapply Hsubmit]].
  - vm_compute in Hrun. by injection Hrun as <- _.
  - vm_compute in Hrun. by injection Hrun as _ <-.
Defined.

(** C9. If every handle that has an arbiter has [refcnt] 0 or 1, then so
    it is after [starpu_data_assign_arbiter], after a submission and after
    a notify; in the last two, the [refcnt] of a header is unchanged or has
    moved between 0 and 1, and its arbiter is unchanged. *)
Theorem arbitered_refcnt_invariant jobs s :
  arbitered_refcnt_binary s →
  (∀ handle arb s',
     starpu_data_assign_arbiter handle arb s = Ret () s' →
     arbitered_refcnt_binary s') ∧
  (∀ j buf nbuffers v s',
     _starpu_submit_job_enforce_arbitered_deps jobs j buf nbuffers s = Ret v s' →
     heap_rel single_reference s s' ∧ arbitered_refcnt_binary s') ∧
  (∀ h v s',
     _starpu_notify_arbitered_dependencies jobs h s = Ret v s' →
     heap_rel single_reference s s' ∧ arbitered_refcnt_binary s').
Proof.
  intros Hinv.
  assert (Hkeep : ∀ s', heap_rel single_reference s s' → arbitered_refcnt_binary s').
  { intros s' Hrel h hs' Hl Ha.
    destruct (heap_rel_lookup _ _ _ _ _ Hrel Hl) as (hs & Hl0 & Hsame & Hr).
    rewrite Hsame in Ha. pose proof (Hinv h hs Hl0 Ha) as Hb.
    destruct Hr as [-> | [_ Hr]]; done. }
  split_and!.
  - intros handle arb s' H. unfold starpu_data_assign_arbiter in H. inv_run H.
    intros h hs Hl Ha. simpl in Hl.
    destruct (decide (h = handle)) as [->|Hne].
    + rewrite lookup_insert_eq in Hl. simplify_eq. simpl.
      left. by apply Z.eqb_eq.
    + rewrite lookup_insert_ne in Hl by done. by eapply (Hinv h).
  - intros j buf nbuffers v s' H. apply submit_single_reference in H as [H _]. auto.
  - intros h v s' H. apply notify_single_reference in H as [H _]. auto.
Qed.

Lemma arbitered_refcnt_invariant_witness :
  arbitered_refcnt_binary machine_held ∧
  after (_starpu_submit_job_enforce_arbitered_deps example_jobs 1 0 2 machine_held)
    (λ v s', v = 1 ∧ arbitered_refcnt_binary s').
Proof.
  assert (Hinv : arbitered_refcnt_binary machine_held).
  { apply (bool_decide_unpack _). vm_compute. exact I. }
  split; [exact Hinv|].
  destruct (arbitered_refcnt_invariant example_jobs machine_held Hinv)
    as (_ & Hsubmit & _).
  unfold after.
  destruct (_starpu_submit_job_enforce_arbitered_deps example_jobs 1 0 2 machine_held)
    as [v s'| | |] eqn:Hrun; [|vm_compute in Hrun; discriminate..].
  split; [|by eapply Hsubmit].
  vm_compute in Hrun. by injection Hrun as <- _.
Defined.

(** C10. If on every header the list pointer is non-NULL exactly when a
    requester is recorded, then so it is after a submission and after a
    notify; recording on a NULL pointer allocates a list that holds the
    requester, and a list that a removal left empty is deleted and the
    pointer set to NULL. *)
Theorem req_list_pointer_exact jobs s :
  req_lists_exact s →
  (∀ j buf nbuffers v s',
     _starpu_submit_job_enforce_arbitered_deps jobs j buf nbuffers s = Ret v s' →
     req_lists_exact s') ∧
  (∀ h v s',
     _starpu_notify_arbitered_dependencies jobs h s = Ret v s' →
     req_lists_exact s') ∧
  (∀ r bump hs,
     arbitered_req_list hs = None →
     arbitered_req_list (record_requester r bump hs) = Some [r]) ∧
  (∀ hs, arbitered_req_list (set_req_list [] hs) = None).
Proof.
  intros Hinv.
  assert (Hkeep : ∀ s', heap_rel req_list_kept_exact s s' → req_lists_exact s').
  { intros s' Hrel h hs' Hl.
    destruct (heap_rel_lookup _ _ _ _ _ Hrel Hl) as (hs & Hl0 & Hr).
    apply Hr. by eapply Hinv. }
  split_and!.
  - intros j buf nbuffers v s' H. apply submit_req_lists in H as [H _]. auto.
  - intros h v s' H. apply notify_req_lists in H as [H _]. auto.
  - intros r bump hs Hn. simpl. by rewrite Hn.
  - done.
Qed.

Lemma req_list_pointer_exact_witness :
  req_lists_exact machine_held ∧
  after (_starpu_submit_job_enforce_arbitered_deps example_jobs 1 0 2 machine_held)
    (λ v s', v = 1 ∧ req_lists_exact s').
Proof.
  assert (Hinv : req_lists_exact machine_held).
  { apply (bool_decide_unpack _). vm_compute. exact I. }
  split; [exact Hinv|].
  destruct (req_list_pointer_exact example_jobs machine_held Hinv) as (Hsubmit & _).
  unfold after.
  destruct (_starpu_submit_job_enforce_arbitered_deps example_jobs 1 0 2 machine_held)
    as [v s'| | |] eqn:Hrun; [|vm_compute in Hrun; discriminate..].
  split; [|by eapply Hsubmit].
  vm_compute in Hrun. by injection Hrun as <- _.
Defined.


(** ** The requester lists *)

(** X1. [remove_job_from_requester_list] (lines 185-198) erases the first
    requester of the list whose job is [j], and no other, and returns 0;
    when no requester of the list is for [j] it leaves the list as it is
    and returns 1. *)
Theorem remove_job_erases_first req_list j :
  (∃ l1 r l2,
     req_list = l1 ++ r :: l2 ∧ req_j r = j ∧
     Forall (λ x, req_j x ≠ j) l1 ∧
     remove_job_from_requester_list req_list j = (l1 ++ l2, 0)) ∨
  (Forall (λ x, req_j x ≠ j) req_list ∧
   remove_job_from_requester_list req_list j = (req_list, 1)).
Proof.
  induction req_list as [|iter rest IH]; simpl.
  { right. by split. }
  case_bool_decide as Hj.
  - left. exists [], iter, rest. by repeat split.
  - destruct IH as [(l1 & r & l2 & -> & Hr & Hl1 & ->) | [Hall ->]].
    + left. exists (iter :: l1), r, l2. repeat split; [done|].
      by constructor.
    + right. split; [by constructor | done].
Qed.

(** X2. The result of [remove_job_from_requester_list] is 0 or 1, the
    list is one requester shorter exactly when it is 0, and the requesters
    of every other job are those of the list, in their order. *)
Theorem remove_job_keeps_others req_list j :
  let '(l, res) := remove_job_from_requester_list req_list j in
  (res = 0 ∨ res = 1) ∧
  Z.of_nat (length req_list) = Z.of_nat (length l) + (1 - res) ∧
  (res = 0 ↔ ∃ r, r ∈ req_list ∧ req_j r = j) ∧
  filter (λ r, req_j r ≠ j) l = filter (λ r, req_j r ≠ j) req_list.
Proof.
  induction req_list as [|iter rest IH]; simpl.
  { split_and!; [by right | done | | done].
    split; [done|]. intros (r & Hr & _). by apply elem_of_nil in Hr. }
  case_bool_decide as Hj.
  - split_and!; [by left | lia | |].
    + split; [|done]. intros _. exists iter. split; [left | done].
    + rewrite filter_cons_False; [done|]. by intros Hne.
  - destruct (remove_job_from_requester_list rest j) as [l res].
    destruct IH as (Hres & Hlen & Hiff & Hfil). split_and!; [done | simpl; lia | |].
    + rewrite Hiff. split.
      * intros (r & Hr & Hrj). exists r. split; [by right | done].
      * intros (r & Hr & Hrj). apply elem_of_cons in Hr as [-> | Hr]; [done|].
        by exists r.
    + rewrite !filter_cons_True by done. by rewrite Hfil.
Qed.

(** X3. Parking then promotion, on one header: the requester that lines
    321-329 record is the one lines 457-463 take out for its job, and the
    list pointer is back to what it was, NULL included, when it was NULL
    exactly for an empty list. *)
Theorem record_then_remove r bump hs :
  req_list_exact hs →
  let hs1 := record_requester r bump hs in
  ∃ l, arbitered_req_list hs1 = Some l ∧
       remove_job_from_requester_list l (req_j r) = (requesters hs, 0) ∧
       arbitered_req_list (set_req_list (requesters hs) hs1) = arbitered_req_list hs.
Proof.
  intros Hex. simpl. eexists. split; [reflexivity|].
  unfold requesters, req_list_exact, requesters in *.
  destruct (arbitered_req_list hs) as [[|r0 l0]|] eqn:Hl; simpl in *.
  - exfalso. destruct Hex as [Hex _]. by apply Hex.
  - rewrite bool_decide_eq_true_2 by done. done.
  - rewrite bool_decide_eq_true_2 by done. done.
Qed.

Lemma record_then_remove_witness :
  req_list_exact free_header ∧
  ∃ l, arbitered_req_list (record_requester (job_requester 2 0 2) true free_header) = Some l ∧
       remove_job_from_requester_list l 2 = ([], 0) ∧
       arbitered_req_list
         (set_req_list [] (record_requester (job_requester 2 0 2) true free_header))
       = None.
Proof.
  assert (Hex : req_list_exact free_header).
  { apply (bool_decide_unpack _). vm_compute. exact I. }
  split; [exact Hex|].
  exact (record_then_remove (job_requester 2 0 2) true free_header Hex).
Defined.

(** ** The position of the arbiter group *)

(** X4. The search of lines 393-406, over buffers on allocated handles,
    returns and changes nothing. It returns the first index, from [idx]
    on, of a buffer that is not a repeat of the previous one and whose
    handle has arbiter [arb]; when there is none it returns the end of the
    buffers. *)
Theorem find_arbiter_buffers_first jobs arb j n idx s :
  buffers_allocated jobs j idx n s →
  ∃ pos,
    find_arbiter_buffers jobs arb j n idx s = Ret pos s ∧
    (idx ≤ pos ≤ idx + n)%nat ∧
    (∀ i h hs, (idx ≤ i < pos)%nat → attempted jobs j i h →
       heap s !! h = Some hs → arbiter hs ≠ Some arb) ∧
    ((pos < idx + n)%nat →
       ∃ h hs, attempted jobs j pos h ∧ heap s !! h = Some hs ∧
               arbiter hs = Some arb).
Proof.
  revert idx. induction n as [|n IH]; intros idx Hal; simpl.
  { exists idx. split; [done|]. split; [lia|]. split; intros; lia. }
  destruct (Hal idx) as (h & Hh & [hs Hhs]); [lia|].
  rewrite (bind_Ret _ _ _ _ _ (deref_Some _ _ _ Hh)).
  rewrite (bind_Ret _ _ _ _ _ (already_requested_run _ _ _ _ _ Hh)).
  destruct (IH (S idx)) as (pos & Hrun & Hrange & Hbefore & Hat).
  { eapply buffers_allocated_next; eauto. }
  destruct (requested_before jobs j idx h) eqn:Hskip.
  - exists pos. split; [done|]. split; [lia|].
    split; [|intros; apply Hat; lia].
    intros i h' hs' Hi [Hh' Hb'] Hl. destruct (decide (i = idx)) as [->|Hne].
    + congruence.
    + apply (Hbefore i h'); [lia | done | done].
  - rewrite (bind_Ret _ _ _ _ _ (load_Some _ _ _ Hhs)).
    case_bool_decide as Harb.
    + exists idx. split; [done|]. split; [lia|]. split; [intros; lia|].
      intros _. exists h, hs. by repeat split.
    + exists pos. split; [done|]. split; [lia|].
      split; [|intros; apply Hat; lia].
      intros i h' hs' Hi Hat' Hl. destruct (decide (i = idx)) as [->|Hne].
      * destruct Hat' as [Hh' _]. congruence.
      * apply (Hbefore i h'); [lia | done | done].
Qed.

Lemma find_arbiter_buffers_first_witness :
  buffers_allocated example_jobs 1 0 2 machine_free ∧
  find_arbiter_buffers example_jobs 7 1 2 0 machine_free = Ret 0%nat machine_free ∧
  find_arbiter_buffers example_jobs 8 1 2 0 machine_free = Ret 2%nat machine_free.
Proof.
  assert (Hal : buffers_allocated example_jobs 1 0 2 machine_free).
  { intros i Hi.
    assert (i = 0 ∨ i = 1)%nat as [-> | ->] by lia;
      eexists; (split; [reflexivity | eexists; reflexivity]). }
  split; [exact Hal|]. split.
  - destruct (find_arbiter_buffers_first example_jobs 7 1 2 0 machine_free Hal)
      as (pos & Hrun & _).
    rewrite Hrun. vm_compute in Hrun. by injection Hrun as <-.
  - destruct (find_arbiter_buffers_first example_jobs 8 1 2 0 machine_free Hal)
      as (pos & Hrun & _).
    rewrite Hrun. vm_compute in Hrun. by injection Hrun as <-.
Defined.

(** ** The submission as a whole *)

(** X5. A submission that returns has done one of two things. Either it
    has pushed its job, once, and every requester list is as it was; or
    it has pushed nothing and has parked the job: on the handle of one of
    the buffers from [buf] on, the requester of that buffer is in the
    list, in front of what was there. It pushes no other job (lines 336
    and 343-350). *)
Theorem submit_pushes_or_parks jobs j buf nbuffers s v s' :
  _starpu_submit_job_enforce_arbitered_deps jobs j buf nbuffers s = Ret v s' →
  (pushes (log s') = j :: pushes (log s) ∧ heap_rel list_kept s s') ∨
  (pushes (log s') = pushes (log s) ∧
   ∃ i h hs hs' new m,
     (buf ≤ i)%nat ∧ job_handle jobs j i = Some h ∧
     heap s !! h = Some hs ∧ heap s' !! h = Some hs' ∧
     requesters hs' = new ++ job_requester j i m :: requesters hs ∧
     Forall (λ r, req_j r = j) new).
Proof.
  intros H. destruct (submit_fuel_pushes _ _ _ _ _ _ _ _ H) as [[-> Hp] | [-> Hp]].
  - right. split; [done|]. by eapply submit_fuel_parks.
  - left. split; [done|]. by eapply submit_fuel_pushed_lists.
Qed.

Lemma submit_pushes_or_parks_witness :
  after (_starpu_submit_job_enforce_arbitered_deps example_jobs 2 0 1 machine_held)
    (λ _ s',
       pushes (log s') = [] ∧
       (requesters <$> heap s' !! 10%positive) = Some [job_requester 2 0 2]) ∧
  after (_starpu_submit_job_enforce_arbitered_deps example_jobs 2 0 1 machine_free)
    (λ _ s', pushes (log s') = [2%positive] ∧ heap_rel list_kept machine_free s').
Proof.
  split; unfold after.
  - destruct (_starpu_submit_job_enforce_arbitered_deps example_jobs 2 0 1 machine_held)
      as [v s'| | |] eqn:Hrun; [|vm_compute in Hrun; discriminate..].
    destruct (submit_pushes_or_parks _ _ _ _ _ _ _ Hrun) as [[Hp _] | [Hp _]].
    + vm_compute in Hrun. injection Hrun as _ <-. discriminate Hp.
    + split; [exact Hp|]. vm_compute in Hrun. by injection Hrun as _ <-.
  - destruct (_starpu_submit_job_enforce_arbitered_deps example_jobs 2 0 1 machine_free)
      as [v s'| | |] eqn:Hrun; [|vm_compute in Hrun; discriminate..].
    destruct (submit_pushes_or_parks _ _ _ _ _ _ _ Hrun) as [[Hp Hl] | [Hp _]].
    + by split.
    + vm_compute in Hrun. injection Hrun as _ <-. discriminate Hp.
Defined.

(** X6. A submission from buffer [buf] of a job whose buffers from [buf]
    on are on allocated handles that have an arbiter returns: it does not
    fault, the assertion of line 300 holds whenever it is reached, and the
    calls the function makes to itself end. *)
Theorem submit_returns jobs j buf nbuffers s :
  (buf < nbuffers)%nat →
  buffers_arbitered jobs j buf nbuffers s →
  returns (_starpu_submit_job_enforce_arbitered_deps jobs j buf nbuffers s).
Proof. intros Hlt Hb. apply submit_fuel_returns; [lia | done | done]. Qed.

Lemma submit_returns_witness :
  (0 < 3)%nat ∧ buffers_arbitered example_jobs 3 0 3 machine_held ∧
  returns (_starpu_submit_job_enforce_arbitered_deps example_jobs 3 0 3 machine_held).
Proof.
  assert (Hb : buffers_arbitered example_jobs 3 0 3 machine_held).
  { intros i Hi.
    assert (i = 0 ∨ i = 1 ∨ i = 2)%nat as [-> | [-> | ->]] by lia;
      do 2 eexists; (split; [reflexivity | split; [reflexivity | done]]). }
  split; [lia|]. split; [exact Hb|].
  apply (submit_returns example_jobs 3 0 3 machine_held); [lia | exact Hb].
Defined.

(** X7. A submission that returns 0 was granted every buffer from [buf]
    on: the handle of each was free when the submission was entered and
    holds one reference when it returns. ([buf] is not a repeat of the
    buffer before it: that buffer is on a handle without arbiter.) *)
Theorem submit_grants_all_buffers jobs j buf nbuffers s s' :
  _starpu_submit_job_enforce_arbitered_deps jobs j buf nbuffers s = Ret 0 s' →
  (∀ h, job_handle jobs j buf = Some h → requested_before jobs j buf h = false) →
  ∀ i h, (buf ≤ i < nbuffers)%nat → job_handle jobs j i = Some h →
    ∃ hs hs', heap s !! h = Some hs ∧ refcnt hs = 0 ∧
              heap s' !! h = Some hs' ∧ refcnt hs' = 1.
Proof. apply submit_fuel_granted. Qed.

Lemma submit_grants_all_buffers_witness :
  after (_starpu_submit_job_enforce_arbitered_deps example_jobs 3 0 3 machine_free)
    (λ v s',
       v = 0 ∧
       ∃ hs hs', heap machine_free !! 11%positive = Some hs ∧ refcnt hs = 0 ∧
                 heap s' !! 11%positive = Some hs' ∧ refcnt hs' = 1).
Proof.
  unfold after.
  destruct (_starpu_submit_job_enforce_arbitered_deps example_jobs 3 0 3 machine_free)
    as [v s'| | |] eqn:Hrun; [|vm_compute in Hrun; discriminate..].
  assert (v = 0) as -> by (vm_compute in Hrun; by injection Hrun as <- _).
  split; [done|].
  apply (submit_grants_all_buffers example_jobs 3 0 3 machine_free s' Hrun)
    with (i := 2%nat); [done | lia | reflexivity].
Defined.

(** X8. When the handles of the buffers from [buf] on are allocated, have
    an arbiter and are free, and no handle comes back after another one,
    the submission returns 0: the job is pushed at once. *)
Theorem submit_free_handles_pushes jobs j buf nbuffers s :
  (buf < nbuffers)%nat →
  buffers_arbitered jobs j buf nbuffers s →
  buffers_free jobs j buf nbuffers s →
  attempted_once jobs j buf nbuffers →
  ∃ s', _starpu_submit_job_enforce_arbitered_deps jobs j buf nbuffers s = Ret 0 s' ∧
        pushes (log s') = j :: pushes (log s).
Proof.
  intros Hlt Hb Hfree Honce.
  destruct (submit_fuel_returns jobs (S (nbuffers - buf)) j buf nbuffers s)
    as (v & s' & Hrun); [lia | done | done |].
  pose proof (submit_fuel_free _ _ _ _ _ _ _ _ Hrun Hfree Honce) as ->.
  exists s'. split; [done|].
  destruct (submit_fuel_pushes _ _ _ _ _ _ _ _ Hrun) as [[? _] | [_ Hp]]; done.
Qed.

Lemma submit_free_handles_pushes_witness :
  (0 < 3)%nat ∧ buffers_arbitered example_jobs 3 0 3 machine_free ∧
  buffers_free example_jobs 3 0 3 machine_free ∧
  attempted_once example_jobs 3 0 3 ∧
  ∃ s', _starpu_submit_job_enforce_arbitered_deps example_jobs 3 0 3 machine_free
          = Ret 0 s' ∧
        pushes (log s') = [3%positive].
Proof.
  assert (Hb : buffers_arbitered example_jobs 3 0 3 machine_free).
  { intros i Hi.
    assert (i = 0 ∨ i = 1 ∨ i = 2)%nat as [-> | [-> | ->]] by lia;
      do 2 eexists; (split; [reflexivity | split; [reflexivity | done]]). }
  assert (Hfree : buffers_free example_jobs 3 0 3 machine_free).
  { intros i h hs Hi [Hh _] Hl.
    assert (i = 0 ∨ i = 1 ∨ i = 2)%nat as [-> | [-> | ->]] by lia;
      vm_compute in Hh; injection Hh as <-; vm_compute in Hl;
      by injection Hl as <-. }
  assert (Honce : attempted_once example_jobs 3 0 3).
  { intros i i' h Hi Hi' [Hh Hr] [Hh' Hr'].
    assert (i = 0 ∨ i = 1 ∨ i = 2)%nat as [-> | [-> | ->]] by lia;
      assert (i' = 0 ∨ i' = 1 ∨ i' = 2)%nat as [-> | [-> | ->]] by lia;
      try done;
      vm_compute in Hh; injection Hh as <-; vm_compute in Hh', Hr, Hr';
      discriminate. }
  split; [lia|]. split; [exact Hb|]. split; [exact Hfree|]. split; [exact Honce|].
  apply (submit_free_handles_pushes example_jobs 3 0 3 machine_free);
    [lia | exact Hb | exact Hfree | exact Honce].
Defined.

(** X9. The cancel loop of lines 288-303, run over the buffers the
    try-acquire pass went through, returns: the assertion of line 300
    holds on each handle. After it every handle has the [refcnt], the
    arbiter and the list it had before the pass; [busy_count] stays
    incremented on the handles the pass had taken, which were free. *)
Theorem submit_cancel_restores jobs arb j n idx s stop ok s1 :
  submit_take_loop jobs arb j n idx s = Ret (stop, ok) s1 →
  ∃ s2, cancel_loop jobs arb j (stop - idx) idx s1 = Ret () s2 ∧
        heap_rel rolled_back s s2 ∧
        ∀ i h, (idx ≤ i < stop)%nat → attempted jobs j i h →
          ∃ hs hs2, heap s !! h = Some hs ∧ heap s2 !! h = Some hs2 ∧
                    refcnt hs = 0 ∧ refcnt hs2 = 0 ∧
                    busy_count hs2 = u32 (busy_count hs + 1).
Proof.
  intros H.
  destruct (submit_take_cancel _ _ _ _ _ _ _ _ _ H s1) as (s2 & Hc & _ & Hh); [done|].
  exists s2. split; [done|]. split.
  - intros h. destruct (Hh h) as [[-> <-] | (i & hs & m & _ & _ & -> & Hz & _ & ->)].
    + destruct (heap s1 !! h); constructor. repeat split. by left.
    + constructor. repeat split; simpl; [by rewrite Hz | by right].
  - intros i h Hi Hat.
    destruct (submit_take_loop_inv _ _ _ _ _ _ _ _ _ H) as (Htaken & _).
    destruct (Htaken i h Hi Hat) as (hs & m & Hl & _ & _ & Hz & Hl1).
    destruct (Hh h) as [[Hsame Hs1] | (i0 & hs0 & m0 & _ & _ & Hl0 & Hz0 & _ & Hl2)].
    + exfalso. rewrite Hs1, Hl in Hl1. injection Hl1 as Heq.
      apply (f_equal refcnt) in Heq. simpl in Heq. rewrite Hz in Heq. done.
    + rewrite Hl in Hl0. injection Hl0 as <-.
      exists hs, (drop_reference (submit_take m0 hs)).
      split_and!; try done. simpl. by rewrite Hz.
Qed.

Lemma submit_cancel_restores_witness :
  after (submit_take_loop example_jobs 7 1 2 0 machine_second_held)
    (λ r s1,
       r = (1%nat, false) ∧
       ∃ s2, cancel_loop example_jobs 7 1 1 0 s1 = Ret () s2 ∧
             heap_rel rolled_back machine_second_held s2).
Proof.
  unfold after.
  destruct (submit_take_loop example_jobs 7 1 2 0 machine_second_held)
    as [[stop ok] s1| | |] eqn:Hrun; [|vm_compute in Hrun; discriminate..].
  destruct (submit_cancel_restores _ _ _ _ _ _ _ _ _ Hrun) as (s2 & Hc & Hrel & _).
  assert (stop = 1%nat ∧ ok = false) as [-> ->]
    by (vm_compute in Hrun; by injection Hrun as <- <- _).
  split; [done|]. by exists s2.
Defined.

(** X10. The locks of a call. Entered with none of these locks held, a
    submission or a notify that returns has taken the mutex of an arbiter
    with nothing held, every header lock under that mutex and one at a
    time, has given each lock back before taking the next, and has pushed
    with nothing held; it returns with nothing held. *)
Theorem calls_follow_lock_discipline jobs s :
  lock_discipline (log s) = Some Unlocked →
  (∀ j buf nbuffers v s',
     _starpu_submit_job_enforce_arbitered_deps jobs j buf nbuffers s = Ret v s' →
     lock_discipline (log s') = Some Unlocked) ∧
  (∀ handle v s',
     _starpu_notify_arbitered_dependencies jobs handle s = Ret v s' →
     lock_discipline (log s') = Some Unlocked).
Proof.
  intros Hs. split.
  - intros j buf nbuffers v s' H. by eapply submit_fuel_discipline.
  - intros handle v s' H. by eapply notify_discipline.
Qed.

Lemma calls_follow_lock_discipline_witness :
  lock_discipline (log machine_parked) = Some Unlocked ∧
  after (_starpu_notify_arbitered_dependencies example_jobs 10 machine_parked)
    (λ v s', v = 0 ∧ length (log s') = 7%nat ∧
             lock_discipline (log s') = Some Unlocked).
Proof.
  split; [reflexivity|].
  destruct (calls_follow_lock_discipline example_jobs machine_parked) as [_ Hnotify];
    [reflexivity|].
  unfold after.
  destruct (_starpu_notify_arbitered_dependencies example_jobs 10 machine_parked)
    as [v s'| | |] eqn:Hrun; [|vm_compute in Hrun; discriminate..].
  split; [|split; [|by eapply Hnotify]].
  - vm_compute in Hrun. by injection Hrun as <- _.
  - vm_compute in Hrun. by injection Hrun as _ <-.
Defined.

(** X11. What a call writes. A submission of job [j] from buffer [buf]
    leaves untouched the header of every handle that is on none of the
    buffers of [j] from [buf] on. A notify on a handle leaves untouched
    the header of every handle that no job waiting in the list of the
    handle has a buffer on. *)
Theorem calls_write_job_handles_only jobs s h :
  (∀ j buf nbuffers v s',
     _starpu_submit_job_enforce_arbitered_deps jobs j buf nbuffers s = Ret v s' →
     off_buffers jobs j buf nbuffers h →
     heap s' !! h = heap s !! h) ∧
  (∀ handle hs v s',
     _starpu_notify_arbitered_dependencies jobs handle s = Ret v s' →
     heap s !! handle = Some hs →
     (∀ r i, r ∈ requesters hs → job_handle jobs (req_j r) i ≠ Some h) →
     heap s' !! h = heap s !! h).
Proof.
  split.
  - intros j buf nbuffers v s' H Hoff. by eapply submit_fuel_off.
  - intros handle hs v s' H Hl Hoff.
    unfold _starpu_notify_arbitered_dependencies in H. inv_run H.
    unfold requesters in Hoff.
    match goal with
    | H : (match arbitered_req_list ?x with _ => _ end) _ = _ |- _ =>
        destruct (arbitered_req_list x) as [rs|] eqn:Hrs
    end.
    + apply notify_scan_off with (h := h) in H; [done|]. exact Hoff.
    + by inv_run H.
Qed.

Lemma calls_write_job_handles_only_witness :
  off_buffers example_jobs 2 0 1 11%positive ∧
  after (_starpu_submit_job_enforce_arbitered_deps example_jobs 2 0 1 machine_free)
    (λ v s', v = 0 ∧ heap s' !! 11%positive = Some free_header).
Proof.
  assert (Hoff : off_buffers example_jobs 2 0 1 11%positive).
  { intros i Hi. assert (i = 0%nat) as -> by lia. vm_compute. discriminate. }
  split; [exact Hoff|].
  destruct (calls_write_job_handles_only example_jobs machine_free 11%positive)
    as [Hsubmit _].
  unfold after.
  destruct (_starpu_submit_job_enforce_arbitered_deps example_jobs 2 0 1 machine_free)
    as [v s'| | |] eqn:Hrun; [|vm_compute in Hrun; discriminate..].
  split.
  - vm_compute in Hrun. by injection Hrun as <- _.
  - by rewrite (Hsubmit _ _ _ _ _ Hrun Hoff).
Defined.

(** ** The notification as a whole *)



(** X13. Notify on a free handle whose first waiting job has that handle
    as its only buffer promotes the job: the assertions of lines 454-458
    hold, the handle is taken in the mode of the buffer, the requester is
    out of the list (the list is deleted when it was the last), the job is
    pushed after the locks are given back, and the result is 0. *)
Theorem notify_promotes_single_buffer jobs handle s hs arb r next m :
  heap s !! handle = Some hs →
  arbiter hs = Some arb →
  arbitered_req_list hs = Some (r :: next) →
  jobs !! req_j r = Some [(handle, m)] →
  refcnt hs = 0 →
  1 ≤ busy_count hs →
  _starpu_notify_arbitered_dependencies jobs handle s =
    Ret 0 {| heap := <[handle := set_req_list next (notify_take m hs)]> (heap s);
             log := Push (req_j r) :: Unlock (arbiter_mutex arb) ::
                    Unlock (header_lock handle) :: Lock (header_lock handle) ::
                    Unlock (header_lock handle) :: Lock (header_lock handle) ::
                    Lock (arbiter_mutex arb) :: log s |}.
Proof.
  intros Hl Harb Hlist Hjob Hz Hbusy.
  assert (Hh : job_handle jobs (req_j r) 0 = Some handle).
  { unfold job_handle. by rewrite Hjob. }
  assert (Hm : job_mode jobs (req_j r) 0 = Some m).
  { unfold job_mode. by rewrite Hjob. }
  assert (Hn : length <$> jobs !! req_j r = Some 1%nat) by (by rewrite Hjob).
  assert (Hfind : ∀ t hs', heap t !! handle = Some hs' → arbiter hs' = Some arb →
            find_arbiter_buffers jobs arb (req_j r) 1 0 t = Ret 0%nat t).
  { intros t hs' Hl' Ha'. cbn [find_arbiter_buffers].
    unfold _STARPU_JOB_GET_ORDERED_BUFFER_HANDLE.
    rewrite (bind_Ret _ _ _ _ _ (deref_Some _ _ _ Hh)).
    cbn [already_requested]. rewrite bind_mret.
    rewrite (bind_Ret _ _ _ _ _ (load_Some _ _ _ Hl')).
    by rewrite bool_decide_eq_true_2. }
  assert (Htake : ∀ t, heap t !! handle = Some hs →
            notify_take_loop jobs arb (req_j r) 1 0 t =
              Ret (1%nat, true)
                {| heap := <[handle := notify_take m hs]> (heap t);
                   log := Unlock (header_lock handle) :: Lock (header_lock handle)
                          :: log t |}).
  { intros t Hl'. cbn [notify_take_loop].
    unfold _STARPU_JOB_GET_ORDERED_BUFFER_HANDLE, _STARPU_JOB_GET_ORDERED_BUFFER_MODE.
    rewrite (bind_Ret _ _ _ _ _ (deref_Some _ _ _ Hh)).
    cbn [already_requested]. rewrite bind_mret.
    rewrite (bind_Ret _ _ _ _ _ (load_Some _ _ _ Hl')).
    rewrite bool_decide_eq_false_2 by (intros Hne; by apply Hne).
    rewrite (bind_Ret _ _ _ _ _ (deref_Some _ _ _ Hm)).
    run_locks. rewrite bind_emit, Hz. cbn [Z.eqb negb].
    rewrite bind_store, bind_emit. reflexivity. }
  assert (Hremove : ∀ t, heap t !! handle = Some (notify_take m hs) →
            remove_loop jobs arb (req_j r) 1 0 t =
              Ret 1%nat
                {| heap := <[handle := set_req_list next (notify_take m hs)]> (heap t);
                   log := Unlock (header_lock handle) :: Lock (header_lock handle)
                          :: log t |}).
  { intros t Hl'. cbn [remove_loop].
    unfold _STARPU_JOB_GET_ORDERED_BUFFER_HANDLE, _STARPU_JOB_GET_ORDERED_BUFFER_MODE.
    rewrite (bind_Ret _ _ _ _ _ (deref_Some _ _ _ Hh)).
    cbn [already_requested]. rewrite bind_mret.
    rewrite (bind_Ret _ _ _ _ _ (load_Some _ _ _ Hl')).
    rewrite bool_decide_eq_false_2 by (intros Hne; by apply Hne).
    rewrite (bind_Ret _ _ _ _ _ (deref_Some _ _ _ Hm)).
    run_locks. rewrite bind_emit.
    rewrite bind_assert by (simpl; by rewrite Hz).
    rewrite bind_assert by (by apply Z.leb_le).
    rewrite bind_assert by (simpl; apply Z.eqb_refl).
    rewrite (bind_Ret _ _ _ _ _ (deref_Some _ _ _ Hlist)).
    cbn [remove_job_from_requester_list]. rewrite bool_decide_eq_true_2 by done.
    rewrite bind_assert by done.
    rewrite bind_store, bind_emit. reflexivity. }
  unfold _starpu_notify_arbitered_dependencies.
  rewrite (bind_Ret _ _ _ _ _ (load_Some _ _ _ Hl)).
  rewrite (bind_Ret _ _ _ _ _ (deref_Some _ _ _ Harb)).
  run_locks. rewrite bind_emit, Hlist.
  cbn [notify_scan]. unfold STARPU_TASK_GET_NBUFFERS.
  rewrite (bind_Ret _ _ _ _ _ (deref_Some _ _ _ Hn)).
  set (s0 := {| heap := heap s; log := Lock (arbiter_mutex arb) :: log s |}).
  rewrite (bind_Ret _ _ _ _ _ (Hfind s0 hs Hl Harb)).
  cbn [Nat.sub].
  rewrite (bind_Ret _ _ _ _ _ (Htake s0 Hl)).
  rewrite (bind_Ret _ _ _ _ _ (Hremove _ (lookup_insert_eq _ _ _))).
  run_locks. rewrite bind_emit.
  rewrite bool_decide_eq_false_2 by lia.
  rewrite bind_emit. unfold mret, M_ret, s0. cbn [heap log].
  by rewrite insert_insert_eq.
Qed.

Lemma notify_promotes_single_buffer_witness :
  after (_starpu_notify_arbitered_dependencies example_jobs 10 machine_parked)
    (λ v s',
       v = 0 ∧ pushes (log s') = [2%positive] ∧
       (refcnt <$> heap s' !! 10%positive) = Some 1 ∧
       (arbitered_req_list <$> heap s' !! 10%positive) = Some None).
Proof.
  rewrite (notify_promotes_single_buffer example_jobs 10 machine_parked
             {| refcnt := 0; busy_count := 1; current_mode := 2;
                arbiter := Some 7%positive;
                arbitered_req_list := Some [job_requester 2 0 2] |}
             7 (job_requester 2 0 2) [] 2);
    [|reflexivity | reflexivity | reflexivity | reflexivity | reflexivity | simpl; lia].
  vm_compute. repeat split.
Defined.

(** ** Sequences of calls *)

(** X14. Along any sequence of returning calls of
    [starpu_data_assign_arbiter], of the submission and of notify, the
    handles are the same, and a handle that has an arbiter keeps it: the
    arbiter of a handle is set once and never changed. *)
Theorem arbiter_set_once_for_all jobs s s' :
  rtc (arbiter_call jobs) s s' →
  (∀ h, is_Some (heap s' !! h) ↔ is_Some (heap s !! h)) ∧
  (∀ h hs a, heap s !! h = Some hs → arbiter hs = Some a →
     ∃ hs', heap s' !! h = Some hs' ∧ arbiter hs' = Some a).
Proof.
  induction 1 as [s | s s1 s' Hcall _ [IHdom IHarb]].
  { split; [done | eauto]. }
  assert (Hstep : (∀ h, is_Some (heap s1 !! h) ↔ is_Some (heap s !! h)) ∧
                  ∀ h hs a, heap s !! h = Some hs → arbiter hs = Some a →
                    ∃ hs1, heap s1 !! h = Some hs1 ∧ arbiter hs1 = Some a).
  { assert (Hkept : heap_rel arbiter_kept s s1 →
              (∀ h, is_Some (heap s1 !! h) ↔ is_Some (heap s !! h)) ∧
              ∀ h hs a, heap s !! h = Some hs → arbiter hs = Some a →
                ∃ hs1, heap s1 !! h = Some hs1 ∧ arbiter hs1 = Some a).
    { intros Hrel. split.
      - intros h. specialize (Hrel h). destruct Hrel; split; intros [? ?]; eauto; done.
      - intros h hs a Hl Ha.
        destruct (heap_rel_lookup_l _ _ _ _ _ Hrel Hl) as (hs1 & Hl1 & Hk).
        exists hs1. split; [done|]. unfold arbiter_kept in Hk. congruence. }
    destruct Hcall as [handle arb s u s1 Hrun | j buf nbuffers s v s1 Hrun
                      | handle s v s1 Hrun].
    - unfold starpu_data_assign_arbiter in Hrun. inv_run Hrun. norm_tests. split.
      + intros h. simpl. destruct (decide (h = handle)) as [->|Hne].
        * rewrite lookup_insert_eq. split; intros _; eauto.
        * by rewrite lookup_insert_ne.
      + intros h hs0 arb0 Hl Ha. simpl. destruct (decide (h = handle)) as [->|Hne].
        * congruence.
        * rewrite lookup_insert_ne by done. eauto.
    - apply Hkept. by apply submit_arbiter_kept in Hrun as [? _].
    - apply Hkept. by apply notify_arbiter_kept in Hrun as [? _]. }
  destruct Hstep as [Hdom Harb]. split.
  - intros h. by rewrite IHdom.
  - intros h hs a Hl Ha. destruct (Harb h hs a Hl Ha) as (hs1 & Hl1 & Ha1). eauto.
Qed.

Lemma arbiter_set_once_for_all_witness :
  after (starpu_data_assign_arbiter 10 (Some 7%positive) machine_fresh)
    (λ _ s1,
       after (_starpu_submit_job_enforce_arbitered_deps example_jobs 2 0 1 s1)
         (λ _ s2,
            rtc (arbiter_call example_jobs) s1 s2 ∧
            ∃ hs2, heap s2 !! 10%positive = Some hs2 ∧
                   arbiter hs2 = Some 7%positive)).
Proof.
  unfold after.
  destruct (starpu_data_assign_arbiter 10 (Some 7%positive) machine_fresh)
    as [u s1| | |] eqn:Hrun1; [|vm_compute in Hrun1; discriminate..].
  destruct (_starpu_submit_job_enforce_arbitered_deps example_jobs 2 0 1 s1)
    as [v s2| | |] eqn:Hrun2.
  2-4: vm_compute in Hrun1; injection Hrun1 as _ <-; vm_compute in Hrun2;
       discriminate.
  assert (Hrtc : rtc (arbiter_call example_jobs) s1 s2).
  { apply rtc_once. eapply call_submit, Hrun2. }
  split; [exact Hrtc|].
  destruct (arbiter_set_once_for_all example_jobs s1 s2 Hrtc) as [_ Harb].
  assert (Hl1 : ∃ hs1, heap s1 !! 10%positive = Some hs1 ∧ arbiter hs1 = Some 7%positive).
  { vm_compute in Hrun1. injection Hrun1 as _ <-. eexists. split; reflexivity. }
  destruct Hl1 as (hs1 & Hl1 & Ha1).
  exact (Harb _ _ _ Hl1 Ha1).
Defined.


(** ** Parking *)

(** X15. Parking on handles that differ two by two. When the try-acquire
    pass from [buf] fails (it stops at buffer [stop]), the submission
    returns 1, and it has gone through the buffers up to the first one on
    a handle of another arbiter, [e], which is after [stop]. On the handle
    of each buffer before [e] the requester of that buffer is in front of
    the list, [busy_count] is one more (modulo [2^32]) and [refcnt] and
    the arbiter are as on entry, whether the pass had taken the handle or
    not. The other headers are untouched. *)
Theorem submit_parks_once_per_handle jobs j buf nbuffers s h0 hs0 arb stop s1 :
  job_handle jobs j buf = Some h0 →
  heap s !! h0 = Some hs0 →
  arbiter hs0 = Some arb →
  requested_before jobs j buf h0 = false →
  handles_distinct jobs j buf nbuffers →
  buffers_allocated jobs j buf (nbuffers - buf) s →
  submit_take_loop jobs arb j (nbuffers - buf) buf
    {| heap := heap s; log := Lock (arbiter_mutex arb) :: log s |}
    = Ret (stop, false) s1 →
  ∃ s' e,
    _starpu_submit_job_enforce_arbitered_deps jobs j buf nbuffers s = Ret 1 s' ∧
    (stop < e ≤ nbuffers)%nat ∧
    (∀ i, (buf ≤ i < e)%nat →
       ∃ h hs hs' m,
         job_handle jobs j i = Some h ∧ job_mode jobs j i = Some m ∧
         heap s !! h = Some hs ∧ heap s' !! h = Some hs' ∧
         arbiter hs = Some arb ∧ parked_on j i m hs hs') ∧
    ((e < nbuffers)%nat →
       ∃ h hs, job_handle jobs j e = Some h ∧ heap s !! h = Some hs ∧
               arbiter hs ≠ Some arb) ∧
    (∀ h, off_buffers jobs j buf e h → heap s' !! h = heap s !! h).
Proof. apply submit_fuel_parks_once. Qed.

Lemma submit_parks_once_per_handle_witness :
  handles_distinct example_jobs 1 0 2 ∧
  buffers_allocated example_jobs 1 0 2 machine_second_held ∧
  after (_starpu_submit_job_enforce_arbitered_deps example_jobs 1 0 2
           machine_second_held)
    (λ v s',
       v = 1 ∧
       heap s' !! 10%positive =
         Some {| refcnt := 0; busy_count := 1; current_mode := 2;
                 arbiter := Some 7%positive;
                 arbitered_req_list := Some [job_requester 1 0 2] |} ∧
       heap s' !! 11%positive =
         Some {| refcnt := 1; busy_count := 2; current_mode := 2;
                 arbiter := Some 7%positive;
                 arbitered_req_list := Some [job_requester 1 1 3] |}).
Proof.
  assert (Hd : handles_distinct example_jobs 1 0 2).
  { intros i i' h Hi Hi' Hh Hh'.
    assert (i = 0 ∨ i = 1)%nat as [-> | ->] by lia;
      assert (i' = 0 ∨ i' = 1)%nat as [-> | ->] by lia;
      try done; vm_compute in Hh, Hh'; congruence. }
  assert (Hal : buffers_allocated example_jobs 1 0 2 machine_second_held).
  { intros i Hi.
    assert (i = 0 ∨ i = 1)%nat as [-> | ->] by lia;
      eexists; (split; [reflexivity | eexists; reflexivity]). }
  split; [exact Hd|]. split; [exact Hal|].
  destruct (submit_take_loop example_jobs 7 1 2 0
              {| heap := heap machine_second_held;
                 log := Lock (arbiter_mutex 7) :: log machine_second_held |})
    as [[stop ok] s1| | |] eqn:Htake; [|vm_compute in Htake; discriminate..].
  assert (ok = false) as -> by (vm_compute in Htake; by injection Htake as _ <- _).
  destruct (submit_parks_once_per_handle example_jobs 1 0 2 machine_second_held
              10 free_header 7 stop s1)
    as (s' & e & Hrun & _);
    [reflexivity | reflexivity | reflexivity | reflexivity | exact Hd | exact Hal
    | exact Htake |].
  rewrite Hrun. simpl. vm_compute in Hrun. injection Hrun as <-. repeat split.
Defined.

(** ** References *)

(** X16. Neither the submission nor notify gives a reference back: when
    the call returns, the [refcnt] of every header is what it was on
    entry, or was 0 and is 1. The references a failed pass had taken are
    dropped again; no other reference is ever dropped. *)
Theorem calls_never_drop_references jobs s :
  (∀ j buf nbuffers v s',
     _starpu_submit_job_enforce_arbitered_deps jobs j buf nbuffers s = Ret v s' →
     heap_rel reference_taken s s') ∧
  (∀ handle v s',
     _starpu_notify_arbitered_dependencies jobs handle s = Ret v s' →
     heap_rel reference_taken s s').
Proof.
  split.
  - intros j buf nbuffers v s' H. by eapply submit_fuel_references.
  - intros handle v s' H. by eapply notify_references.
Qed.

Lemma calls_never_drop_references_witness :
  after (_starpu_submit_job_enforce_arbitered_deps example_jobs 1 0 2
           machine_second_held)
    (λ v s',
       v = 1 ∧ heap_rel reference_taken machine_second_held s' ∧
       (refcnt <$> heap s' !! 10%positive) = Some 0 ∧
       (refcnt <$> heap s' !! 11%positive) = Some 1).
Proof.
  destruct (calls_never_drop_references example_jobs machine_second_held)
    as [Hsubmit _].
  unfold after.
  destruct (_starpu_submit_job_enforce_arbitered_deps example_jobs 1 0 2
              machine_second_held)
    as [v s'| | |] eqn:Hrun; [|vm_compute in Hrun; discriminate..].
  split; [|split; [by eapply Hsubmit|]].
  - vm_compute in Hrun. by injection Hrun as <- _.
  - vm_compute in Hrun. injection Hrun as _ <-. by split.
Defined.
